(** * SingleLinkedList: a shallow embedding of single-linked-list.h

    The C++ class template [SingleLinkedList<Type>] is embedded over an
    explicit memory: a store of heap nodes (created by [new Node], released
    by [delete]) and a store of list objects (each holding the sentinel
    [head_] and the counter [size_]).  Every member function is a
    computation in a small state-and-error monad, statement by statement as
    in the header.

    - A [Node*] is null, the address of a sentinel, or the address of a heap
      node; dereferencing null or a released node is undefined behaviour.
    - [size_] is a 64-bit [size_t]: [++] and [--] wrap around.
    - [new] takes an unused address and throws [std::bad_alloc] when
      the free store already holds [SIZE_MAX] nodes; the exception unwinds
      through the destructors of the local lists.
    - Copying a [Type] value and its [operator==] and [operator<] are pure.
    - Loops carry fuel; a list of [n] nodes needs fuel [n].
    - [Iterator] and [ConstIterator] hold the same [Node*] and are one type
      here; [cbegin], [cend] and the [const] overloads are [begin], [end_]. *)

From stdpp Require Import numbers list gmap.

(** ** Machine integers: [size_t] *)

Definition size_t_bits : Z := 64.
Definition SIZE_MAX : Z := 2 ^ size_t_bits - 1.

(** [++size_] and [--size_] on an unsigned [size_t]: arithmetic modulo
    [2 ^ size_t_bits]. *)
Definition size_incr (z : Z) : Z := (z + 1) mod 2 ^ size_t_bits.
Definition size_decr (z : Z) : Z := (z - 1) mod 2 ^ size_t_bits.

(** ** Pointers and objects *)

Abbreviation addr := positive (only parsing).

(** A [Node*] is null, the address of the sentinel [head_] embedded in the
    list object stored at [l], or the address of a node on the free store. *)
Inductive NodePtr : Type :=
| nullptr
| HeadOf (l : addr)
| HeapNode (a : addr).

Global Instance NodePtr_eq_dec : EqDecision NodePtr.
Proof. solve_decision. Defined.

(** What the template requires of [Type]: a default constructor (for the
    sentinel [Node()]), [operator==] and [operator<]. *)
Class ElemType (T : Type) := {
  default_value : T;
  eqT : T → T → bool;
  ltT : T → T → bool
}.

Section Model.
Context {T : Type} `{ElemType T}.

(** [struct Node { Type value; Node* next_node = nullptr; }] *)
Record Node : Type := mkNode {
  value : T;
  next_node : NodePtr
}.

(** The data members of [SingleLinkedList]: [Node head_] and [size_t size_]. *)
Record SingleLinkedList : Type := mkList {
  head_ : Node;
  size_ : Z
}.

(** Memory: the free store of nodes and the list objects alive. *)
Record mem : Type := mkMem {
  heap : gmap positive Node;
  objs : gmap positive SingleLinkedList
}.

Definition empty_mem : mem := mkMem ∅ ∅.

(** ** Outcomes and the monad *)

Inductive fault : Type :=
| UndefinedBehaviour   (* null or dangling dereference, bad delete *)
| AssertionFailed      (* a failed [assert] *)
| Terminated           (* an exception escaping a destructor *)
| OutOfFuel.           (* the model's loop bound was reached *)

(** [Throw m]: [std::bad_alloc] propagates out, leaving memory [m]. *)
Inductive outcome (A : Type) : Type :=
| Ok (a : A) (m : mem)
| Throw (m : mem)
| Fault (f : fault).

Definition M (A : Type) : Type := mem → outcome A.

Definition ret {A} (a : A) : M A := λ m, Ok A a m.

Definition bind {A B} (e : M A) (k : A → M B) : M B := λ m,
  match e m with
  | Ok _ a m1 => k a m1
  | Throw _ m1 => Throw B m1
  | Fault _ f => Fault B f
  end.

Definition fail {A} (f : fault) : M A := λ _, Fault A f.

Definition assert (b : bool) : M unit :=
  if b then ret tt else fail AssertionFailed.

End Model.

Arguments Ok {T A} a m.
Arguments Throw {T A} m.
Arguments Fault {T A} f.
Arguments Node T : clear implicits.
Arguments SingleLinkedList T : clear implicits.
Arguments mem T : clear implicits.
Arguments outcome T A : clear implicits.
Arguments M T A : clear implicits.

Declare Scope cpp_scope.
Delimit Scope cpp_scope with cpp.
Notation "x <- e ;; k" := (bind e (λ x, k))
  (at level 20, e at level 99, k at level 200, only parsing) : cpp_scope.
Notation "e ;; k" := (bind e (λ _, k))
  (at level 100, k at level 200, right associativity, only parsing) : cpp_scope.
Open Scope cpp_scope.

Section Operations.
Context {T : Type} `{ElemType T}.

(** ** Memory primitives *)

(** [*p] for a [Node* p]. *)
Definition load (p : NodePtr) : M T (Node T) := λ m,
  match p with
  | nullptr => Fault UndefinedBehaviour
  | HeadOf l =>
      match objs m !! l with
      | Some o => Ok (head_ o) m
      | None => Fault UndefinedBehaviour
      end
  | HeapNode a =>
      match heap m !! a with
      | Some n => Ok n m
      | None => Fault UndefinedBehaviour
      end
  end.

(** [p->next_node] and [p->value] as rvalues. *)
Definition load_next (p : NodePtr) : M T NodePtr :=
  n <- load p ;; ret (next_node n).
Definition load_value (p : NodePtr) : M T T :=
  n <- load p ;; ret (value n).

(** [p->next_node = q]. *)
Definition store_next (p q : NodePtr) : M T unit := λ m,
  match p with
  | nullptr => Fault UndefinedBehaviour
  | HeadOf l =>
      match objs m !! l with
      | Some o =>
          Ok tt (mkMem (heap m)
                   (<[l := mkList (mkNode (value (head_ o)) q) (size_ o)]> (objs m)))
      | None => Fault UndefinedBehaviour
      end
  | HeapNode a =>
      match heap m !! a with
      | Some n => Ok tt (mkMem (<[a := mkNode (value n) q]> (heap m)) (objs m))
      | None => Fault UndefinedBehaviour
      end
  end.

(** [p->value = v]: what an assignment through the reference returned by
    [operator*] (or the pointer returned by [operator->]) does. *)
Definition store_value (p : NodePtr) (v : T) : M T unit := λ m,
  match p with
  | nullptr => Fault UndefinedBehaviour
  | HeadOf l =>
      match objs m !! l with
      | Some o =>
          Ok tt (mkMem (heap m)
                   (<[l := mkList (mkNode v (next_node (head_ o))) (size_ o)]> (objs m)))
      | None => Fault UndefinedBehaviour
      end
  | HeapNode a =>
      match heap m !! a with
      | Some n => Ok tt (mkMem (<[a := mkNode v (next_node n)]> (heap m)) (objs m))
      | None => Fault UndefinedBehaviour
      end
  end.

(** [this->size_] read and written. *)
Definition load_size (this : addr) : M T Z := λ m,
  match objs m !! this with
  | Some o => Ok (size_ o) m
  | None => Fault UndefinedBehaviour
  end.

Definition store_size (this : addr) (z : Z) : M T unit := λ m,
  match objs m !! this with
  | Some o => Ok tt (mkMem (heap m) (<[this := mkList (head_ o) z]> (objs m)))
  | None => Fault UndefinedBehaviour
  end.

(** [new Node(val, next)].  The allocation function runs first and throws
    [std::bad_alloc] when the free store is full: it never holds more than
    [SIZE_MAX] nodes, every node having an address of its own.  The
    constructor argument [next] is evaluated after the allocation. *)
Definition new_Node (val : T) (next : M T NodePtr) : M T NodePtr := λ m,
  if bool_decide (Z.of_nat (size (heap m)) < SIZE_MAX)%Z then
    match next m with
    | Ok q m1 =>
        let a := fresh (dom (heap m1)) in
        Ok (HeapNode a) (mkMem (<[a := mkNode val q]> (heap m1)) (objs m1))
    | Throw m1 => Throw m1
    | Fault f => Fault f
    end
  else Throw m.

(** [delete p]. *)
Definition delete_Node (p : NodePtr) : M T unit := λ m,
  match p with
  | nullptr => Ok tt m
  | HeadOf _ => Fault UndefinedBehaviour
  | HeapNode a =>
      match heap m !! a with
      | Some _ => Ok tt (mkMem (delete a (heap m)) (objs m))
      | None => Fault UndefinedBehaviour
      end
  end.

(** Storage for a list object with its default member initialisers
    [head_ = Node()] and [size_ = 0]; and its release. *)
Definition alloc_obj : M T addr := λ m,
  let l := fresh (dom (objs m)) in
  Ok l (mkMem (heap m) (<[l := mkList (mkNode default_value nullptr) 0]> (objs m))).

Definition free_obj (l : addr) : M T unit := λ m,
  Ok tt (mkMem (heap m) (delete l (objs m))).

(** ** BasicIterator *)

Record BasicIterator : Type := mkIterator { node_ : NodePtr }.

(** The operations a function template uses on its iterator parameter. *)
Class ForwardIterator (It : Type) := {
  it_eqb : It → It → bool;        (* operator== ; operator!= is its negation *)
  it_deref : It → M T T;          (* operator* *)
  it_incr : It → M T It           (* operator++ *)
}.

Definition iter_eqb (a b : BasicIterator) : bool :=
  bool_decide (node_ a = node_ b).

Definition iter_neb (a b : BasicIterator) : bool :=
  negb (bool_decide (node_ a = node_ b)).

Definition iter_incr (it : BasicIterator) : M T BasicIterator :=
  assert (bool_decide (node_ it ≠ nullptr)) ;;
  n <- load_next (node_ it) ;;
  ret (mkIterator n).

Definition iter_deref (it : BasicIterator) : M T T :=
  load_value (node_ it).

(** [*it = v] on an [Iterator]. *)
Definition iter_write (it : BasicIterator) (v : T) : M T unit :=
  store_value (node_ it) v.

(** [it++]: the value returned (the old position) and the iterator
    afterwards. *)
Definition iter_post_incr (it : BasicIterator)
  : M T (BasicIterator * BasicIterator) :=
  it' <- iter_incr it ;;
  ret (it, it').

Global Instance BasicIterator_forward : ForwardIterator BasicIterator := {
  it_eqb := iter_eqb;
  it_deref := iter_deref;
  it_incr := iter_incr
}.

(** The iterators of a [std::initializer_list<Type>]: pointers into its
    backing array. *)
Record ArrayIterator : Type := mkArrayIterator {
  array_of : list T;
  index_of : nat
}.

Global Instance ArrayIterator_forward : ForwardIterator ArrayIterator := {
  it_eqb a b := bool_decide (index_of a = index_of b);
  it_deref a :=
    match array_of a !! index_of a with
    | Some v => ret v
    | None => fail UndefinedBehaviour
    end;
  it_incr a :=
    if bool_decide (index_of a < length (array_of a))
    then ret (mkArrayIterator (array_of a) (S (index_of a)))
    else fail UndefinedBehaviour
}.

Definition init_begin (S : list T) : ArrayIterator := mkArrayIterator S 0.
Definition init_end (S : list T) : ArrayIterator := mkArrayIterator S (length S).

(** ** Member functions *)

Definition begin (this : addr) : M T BasicIterator :=
  p <- load_next (HeadOf this) ;; ret (mkIterator p).

Definition end_ (this : addr) : M T BasicIterator :=
  ret (mkIterator nullptr).

Definition before_begin (this : addr) : M T BasicIterator :=
  ret (mkIterator (HeadOf this)).

Definition GetSize (this : addr) : M T Z := load_size this.

Definition IsEmpty (this : addr) : M T bool :=
  s <- load_size this ;; ret (bool_decide (s = 0%Z)).

(** [std::swap(a, b)] on the two [next_node] fields, then on the two
    counters. *)
Definition swap (this rhs : addr) : M T unit :=
  tmp <- load_next (HeadOf rhs) ;;
  x <- load_next (HeadOf this) ;;
  store_next (HeadOf rhs) x ;;
  store_next (HeadOf this) tmp ;;
  tmps <- load_size rhs ;;
  y <- load_size this ;;
  store_size rhs y ;;
  store_size this tmps.

Definition PushFront (this : addr) (v : T) : M T unit :=
  front <- new_Node v (load_next (HeadOf this)) ;;
  store_next (HeadOf this) front ;;
  s <- load_size this ;;
  store_size this (size_incr s).

Fixpoint Clear_loop (fuel : nat) (this : addr) : M T unit :=
  p <- load_next (HeadOf this) ;;
  if bool_decide (p = nullptr) then ret tt
  else
    match fuel with
    | O => fail OutOfFuel
    | S fuel' =>
        tmp <- load_next p ;;
        q <- load_next (HeadOf this) ;;
        delete_Node q ;;
        store_next (HeadOf this) tmp ;;
        Clear_loop fuel' this
    end.

Definition Clear (fuel : nat) (this : addr) : M T unit :=
  Clear_loop fuel this ;;
  store_size this 0.

Definition PopFront (this : addr) : M T unit :=
  s <- load_size this ;;
  assert (bool_decide (s ≠ 0%Z)) ;;
  tmp <- load_next (HeadOf this) ;;
  p <- load_next (HeadOf this) ;;
  n <- load_next p ;;
  store_next (HeadOf this) n ;;
  s' <- load_size this ;;
  store_size this (size_decr s') ;;
  delete_Node tmp.

Definition InsertAfter (this : addr) (pos : BasicIterator) (v : T)
  : M T BasicIterator :=
  new_node <- new_Node v (load_next (node_ pos)) ;;
  store_next (node_ pos) new_node ;;
  s <- load_size this ;;
  store_size this (size_incr s) ;;
  r <- load_next (node_ pos) ;;
  ret (mkIterator r).

Definition EraseAfter (this : addr) (pos : BasicIterator) : M T BasicIterator :=
  p <- load_next (node_ pos) ;;
  tmp <- load_next p ;;
  q <- load_next (node_ pos) ;;
  delete_Node q ;;
  store_next (node_ pos) tmp ;;
  s <- load_size this ;;
  store_size this (size_decr s) ;;
  r <- load_next (node_ pos) ;;
  ret (mkIterator r).

(** ** Object lifetime *)

(** Run [cleanup] after [body], on the normal path and while an exception
    unwinds. *)
Definition finally {A} (body : M T A) (cleanup : M T unit) : M T A := λ m,
  match body m with
  | Ok a m1 =>
      match cleanup m1 with
      | Ok _ m2 => Ok a m2
      | Throw _ => Fault Terminated
      | Fault f => Fault f
      end
  | Throw m1 =>
      match cleanup m1 with
      | Ok _ m2 => Throw m2
      | Throw _ => Fault Terminated
      | Fault f => Fault f
      end
  | Fault f => Fault f
  end.

(** [~SingleLinkedList() { Clear(); }], then the storage goes away. *)
Definition destroy (fuel : nat) (this : addr) : M T unit :=
  Clear fuel this ;;
  free_obj this.

(** A constructor: storage with the default member initialisers, then the
    constructor body; an exception leaving the body releases the storage
    and no destructor runs. *)
Definition construct (body : addr → M T unit) : M T addr := λ m,
  match alloc_obj m with
  | Ok l m0 =>
      match body l m0 with
      | Ok _ m1 => Ok l m1
      | Throw m1 => Throw (mkMem (heap m1) (delete l (objs m1)))
      | Fault f => Fault f
      end
  | Throw m0 => Throw m0
  | Fault f => Fault f
  end.

(** A local variable of type [SingleLinkedList]: constructed, used by
    [body], destroyed when the scope is left. *)
Definition with_local {A} (fuel : nat) (ctor : addr → M T unit)
    (body : addr → M T A) : M T A :=
  l <- construct ctor ;;
  finally (body l) (destroy fuel l).

(** ** CopyList and the constructors *)

(** [for (auto iter = first; iter != last; iter++) dst.PushFront( *iter);] *)
Fixpoint CopyList_loop {It} `{ForwardIterator It} (fuel : nat) (dst : addr)
    (iter last : It) : M T unit :=
  if negb (it_eqb iter last) then
    match fuel with
    | O => fail OutOfFuel
    | S fuel' =>
        v <- it_deref iter ;;
        PushFront dst v ;;
        iter' <- it_incr iter ;;
        CopyList_loop fuel' dst iter' last
    end
  else ret tt.

Definition CopyList {It} `{ForwardIterator It} (fuel : nat) (this : addr)
    (first last : It) : M T unit :=
  with_local fuel (λ _, ret tt) (λ tmp1,
    with_local fuel (λ _, ret tt) (λ tmp2,
      CopyList_loop fuel tmp1 first last ;;
      b <- begin tmp1 ;;
      e <- end_ tmp1 ;;
      CopyList_loop fuel tmp2 b e ;;
      swap this tmp2)).

(** [SingleLinkedList() = default] *)
Definition ctor_default (this : addr) : M T unit := ret tt.

(** [SingleLinkedList(std::initializer_list<Type> list)] *)
Definition ctor_init (fuel : nat) (S : list T) (this : addr) : M T unit :=
  CopyList fuel this (init_begin S) (init_end S).

(** [SingleLinkedList(const SingleLinkedList& other)] *)
Definition ctor_copy (fuel : nat) (other : addr) (this : addr) : M T unit :=
  s <- load_size this ;;
  p <- load_next (HeadOf this) ;;
  assert (bool_decide (s = 0%Z) && bool_decide (p = nullptr)) ;;
  b <- begin other ;;
  e <- end_ other ;;
  CopyList fuel this b e.

Definition new_default : M T addr := construct ctor_default.
Definition new_from (fuel : nat) (S : list T) : M T addr :=
  construct (ctor_init fuel S).
Definition new_copy (fuel : nat) (other : addr) : M T addr :=
  construct (ctor_copy fuel other).

(** [operator=]: returns [*this]. *)
Definition assign (fuel : nat) (this rhs : addr) : M T addr :=
  (if bool_decide (this ≠ rhs)
   then with_local fuel (ctor_copy fuel rhs) (λ tmp, swap this tmp)
   else ret tt) ;;
  ret this.

(** ** Free functions *)

(** [std::equal(first1, last1, first2, last2)] on forward iterators. *)
Fixpoint std_equal {It} `{ForwardIterator It} (fuel : nat)
    (first1 last1 first2 last2 : It) : M T bool :=
  if negb (it_eqb first1 last1) && negb (it_eqb first2 last2) then
    match fuel with
    | O => fail OutOfFuel
    | S fuel' =>
        x <- it_deref first1 ;;
        y <- it_deref first2 ;;
        if negb (eqT x y) then ret false
        else
          first1' <- it_incr first1 ;;
          first2' <- it_incr first2 ;;
          std_equal fuel' first1' last1 first2' last2
    end
  else ret (it_eqb first1 last1 && it_eqb first2 last2).

(** [std::lexicographical_compare(first1, last1, first2, last2)]. *)
Fixpoint std_lexicographical_compare {It} `{ForwardIterator It} (fuel : nat)
    (first1 last1 first2 last2 : It) : M T bool :=
  if negb (it_eqb first1 last1) && negb (it_eqb first2 last2) then
    match fuel with
    | O => fail OutOfFuel
    | S fuel' =>
        x <- it_deref first1 ;;
        y <- it_deref first2 ;;
        if ltT x y then ret true
        else if ltT y x then ret false
        else
          first1' <- it_incr first1 ;;
          first2' <- it_incr first2 ;;
          std_lexicographical_compare fuel' first1' last1 first2' last2
    end
  else ret (it_eqb first1 last1 && negb (it_eqb first2 last2)).

Definition op_eq (fuel : nat) (lhs rhs : addr) : M T bool :=
  b1 <- begin lhs ;; e1 <- end_ lhs ;;
  b2 <- begin rhs ;; e2 <- end_ rhs ;;
  std_equal fuel b1 e1 b2 e2.

Definition op_ne (fuel : nat) (lhs rhs : addr) : M T bool :=
  b <- op_eq fuel lhs rhs ;; ret (negb b).

Definition op_lt (fuel : nat) (lhs rhs : addr) : M T bool :=
  b1 <- begin lhs ;; e1 <- end_ lhs ;;
  b2 <- begin rhs ;; e2 <- end_ rhs ;;
  std_lexicographical_compare fuel b1 e1 b2 e2.

Definition op_gt (fuel : nat) (lhs rhs : addr) : M T bool :=
  op_lt fuel rhs lhs.

Definition op_le (fuel : nat) (lhs rhs : addr) : M T bool :=
  b <- op_lt fuel rhs lhs ;; ret (negb b).

Definition op_ge (fuel : nat) (lhs rhs : addr) : M T bool :=
  b <- op_lt fuel lhs rhs ;; ret (negb b).

(** The free function [swap(lhs, rhs)] calls [rhs.swap(lhs)]. *)
Definition free_swap (lhs rhs : addr) : M T unit := swap rhs lhs.

(** ** Client-side traversal

    [for (auto it = l.begin(); it != l.end(); ++it) out.push_back( *it);] *)
Fixpoint traverse {It} `{ForwardIterator It} (fuel : nat) (iter last : It)
  : M T (list T) :=
  if negb (it_eqb iter last) then
    match fuel with
    | O => fail OutOfFuel
    | S fuel' =>
        v <- it_deref iter ;;
        iter' <- it_incr iter ;;
        rest <- traverse fuel' iter' last ;;
        ret (v :: rest)
    end
  else ret [].

Definition to_list (fuel : nat) (this : addr) : M T (list T) :=
  b <- begin this ;;
  e <- end_ this ;;
  traverse fuel b e.

End Operations.

Ltac crunch tac := repeat (progress (simpl; tac)).

(** ** Abstraction: the node chain of a list *)

Section Abstraction.
Context {T : Type} {ET : ElemType T}.

(** [lseg h p cells q]: following [next_node] from [p] visits exactly the
    heap nodes [cells] (address and value, in order) and then reaches [q]. *)
Fixpoint lseg (h : gmap positive (Node T)) (p : NodePtr)
    (cells : list (positive * T)) (q : NodePtr) : Prop :=
  match cells with
  | [] => p = q
  | c :: rest =>
      p = HeapNode c.1 ∧
      ∃ r, h !! c.1 = Some (mkNode c.2 r) ∧ lseg h r rest q
  end.

(** A chain whose last node's successor link is null. *)
Definition chain (h : gmap positive (Node T)) (p : NodePtr)
    (cells : list (positive * T)) : Prop :=
  lseg h p cells nullptr.

(** The list object at [l] owns exactly the nodes [cells]: they are what is
    reachable from its sentinel, the last link is null, and [size_] (a
    [size_t] value, so at most [SIZE_MAX]) counts them. *)
Definition list_at (m : mem T) (l : addr) (cells : list (positive * T)) : Prop :=
  ∃ o, objs m !! l = Some o ∧
       chain (heap m) (next_node (head_ o)) cells ∧
       size_ o = Z.of_nat (length cells) ∧
       (size_ o ≤ SIZE_MAX)%Z.

(** The free store can take [n] more nodes. *)
Definition room (m : mem T) (n : nat) : Prop :=
  (Z.of_nat (size (heap m)) + Z.of_nat n ≤ SIZE_MAX)%Z.

(** The free store holds no more nodes than there are addresses. *)
Definition heap_ok (m : mem T) : Prop := room m 0.

(** The structural invariant of the list object at [l]. *)
Definition Inv (m : mem T) (l : addr) : Prop :=
  ∃ cells, list_at m l cells.

(** The list object at [l] holds the element sequence [xs]. *)
Definition repr (m : mem T) (l : addr) (xs : list T) : Prop :=
  ∃ cells, list_at m l cells ∧ cells.*2 = xs.

(** The node a position refers to: position [0] is [before_begin()],
    position [i + 1] is the [i]-th node. *)
Definition pos_ptr (l : addr) (cells : list (positive * T)) (i : nat) : NodePtr :=
  match i with
  | O => HeadOf l
  | S j => match cells !! j with Some c => HeapNode c.1 | None => nullptr end
  end.

(** The iterator reached from [begin()] by [i] increments. *)
Definition nth_ptr (cells : list (positive * T)) (i : nat) : NodePtr :=
  match cells !! i with Some c => HeapNode c.1 | None => nullptr end.

(** [range R first last xs]: in every memory satisfying [R], stepping an
    iterator from [first] up to [last] reads the values [xs] in order. *)
Fixpoint range {It} `{ForwardIterator T It} (R : mem T → Prop)
    (first last : It) (xs : list T) : Prop :=
  match xs with
  | [] => it_eqb first last = true
  | x :: rest =>
      it_eqb first last = false ∧
      (∀ m, R m → it_deref first m = Ok x m) ∧
      ∃ first', (∀ m, R m → it_incr first m = Ok first' m) ∧
                range R first' last rest
  end.

(** *** The comparisons on element sequences *)

(** The orders as the specification words them: same length and
    elementwise equal, in order. *)
Definition seq_equal (xs ys : list T) : Prop :=
  length xs = length ys ∧
  ∀ i x y, xs !! i = Some x → ys !! i = Some y → eqT x y = true.

(** Lexicographic order: the sequences agree (neither element less than the
    other) on the first [k] positions, and then either the left one ends
    while the right one goes on, or the left element is less. *)
Definition seq_less (xs ys : list T) : Prop :=
  ∃ k,
    (∀ i x y, i < k → xs !! i = Some x → ys !! i = Some y →
              ltT x y = false ∧ ltT y x = false) ∧
    k ≤ length xs ∧ k ≤ length ys ∧
    ((k = length xs ∧ k < length ys) ∨
     (∃ x y, xs !! k = Some x ∧ ys !! k = Some y ∧ ltT x y = true)).

(** The loops as the library runs them: what [std::equal] returns on two
    element sequences. *)
Fixpoint equal_loop (xs ys : list T) : bool :=
  match xs, ys with
  | [], [] => true
  | x :: xs', y :: ys' => if negb (eqT x y) then false else equal_loop xs' ys'
  | _, _ => false
  end.

(** What the loop of [std::lexicographical_compare] returns. *)
Fixpoint lex_loop (xs ys : list T) : bool :=
  match xs, ys with
  | _, [] => false
  | [], _ :: _ => true
  | x :: xs', y :: ys' =>
      if ltT x y then true
      else if ltT y x then false
      else lex_loop xs' ys'
  end.

(** *** Mutations of one list *)

Inductive mutation : Type :=
| MPushFront (v : T)
| MPopFront
| MClear
| MInsertAfter (pos : BasicIterator) (v : T)
| MEraseAfter (pos : BasicIterator).

Definition mutate (fuel : nat) (l : addr) (mu : mutation) : M T unit :=
  match mu with
  | MPushFront v => PushFront l v
  | MPopFront => PopFront l
  | MClear => Clear fuel l
  | MInsertAfter pos v => InsertAfter l pos v ;; ret tt
  | MEraseAfter pos => EraseAfter l pos ;; ret tt
  end.

(** [pos] is [before_begin()] of the list at [l] or refers to one of its
    nodes. *)
Definition refers_into (l : addr) (cells : list (positive * T))
    (pos : BasicIterator) : Prop :=
  ∃ i, i ≤ length cells ∧ node_ pos = pos_ptr l cells i.

(** The position arguments of a mutation belong to the list it is applied
    to. *)
Definition valid_mutation (l : addr) (cells : list (positive * T))
    (mu : mutation) : Prop :=
  match mu with
  | MInsertAfter pos _ | MEraseAfter pos => refers_into l cells pos
  | _ => True
  end.

(** Two distinct list objects with well-formed chains that share no node. *)
Definition separate (m : mem T) (l1 l2 : addr) : Prop :=
  l1 ≠ l2 ∧
  ∃ c1 c2, list_at m l1 c1 ∧ list_at m l2 c2 ∧
           ∀ a, a ∈ c1.*1 → a ∉ c2.*1.

(** What a mutation of the list at [l], owning [cells] before and [cells']
    after, may touch: no other list object, no node of another owner, and
    the nodes it ends with are old ones of its own or newly allocated. *)
Definition footprint (m m' : mem T) (l : addr)
    (cells cells' : list (positive * T)) : Prop :=
  (∀ l', l' ≠ l → objs m' !! l' = objs m !! l') ∧
  (∀ a, a ∉ cells.*1 → is_Some (heap m !! a) → heap m' !! a = heap m !! a) ∧
  (∀ a, a ∈ cells'.*1 → a ∈ cells.*1 ∨ heap m !! a = None).

(** Whatever valid mutation is applied to the list at [l1], whether it
    returns or throws, the list at [l2] keeps its element sequence and the
    two lists still share no node. *)
Definition independent (fuel : nat) (m : mem T) (l1 l2 : addr) : Prop :=
  ∀ mu c1 m',
    list_at m l1 c1 → valid_mutation l1 c1 mu → length c1 ≤ fuel →
    (mutate fuel l1 mu m = Ok tt m' ∨ mutate fuel l1 mu m = Throw m') →
    (∀ xs, repr m l2 xs → repr m' l2 xs) ∧ separate m' l1 l2.

(** *** Reading the chain of a list off a memory *)

Fixpoint walk (fuel : nat) (h : gmap positive (Node T)) (p : NodePtr)
  : option (list (positive * T)) :=
  match p with
  | nullptr => Some []
  | HeadOf _ => None
  | HeapNode a =>
      match fuel with
      | O => None
      | S fuel' =>
          match h !! a with
          | Some n =>
              match walk fuel' h (next_node n) with
              | Some rest => Some ((a, value n) :: rest)
              | None => None
              end
          | None => None
          end
      end
  end.

Definition cells_of (fuel : nat) (m : mem T) (l : addr)
  : option (list (positive * T)) :=
  match objs m !! l with
  | Some o =>
      match walk fuel (heap m) (next_node (head_ o)) with
      | Some cells =>
          if bool_decide (size_ o = Z.of_nat (length cells)) &&
             bool_decide (size_ o ≤ SIZE_MAX)%Z
          then Some cells else None
      | None => None
      end
  | None => None
  end.

(** The value an outcome returns and the memory it ends in. *)
Definition result {A} (r : outcome T A) : option A :=
  match r with Ok a _ => Some a | _ => None end.

Definition final_mem {A} (r : outcome T A) : mem T :=
  match r with Ok _ m | Throw m => m | Fault _ => empty_mem end.

(** [n] increments of an iterator. *)
Fixpoint iter_advance (n : nat) (it : BasicIterator) : M T BasicIterator :=
  match n with
  | O => ret it
  | S n' => it' <- iter_incr it ;; iter_advance n' it'
  end.

(** *** Memory after each member function *)

Implicit Types (m : mem T) (l : positive) (o : SingleLinkedList T).

Definition push_mem m l (o : SingleLinkedList T) v : mem T :=
  let a := fresh (dom (heap m)) in
  mkMem (<[a := mkNode v (next_node (head_ o))]> (heap m))
        (<[l := mkList (mkNode (value (head_ o)) (HeapNode a))
                       (size_incr (size_ o))]> (objs m)).

Definition pop_mem m l (o : SingleLinkedList T) (a : positive) (n : Node T) : mem T :=
  mkMem (delete a (heap m))
        (<[l := mkList (mkNode (value (head_ o)) (next_node n))
                       (size_decr (size_ o))]> (objs m)).

Definition insert_mem m l (o : SingleLinkedList T) (b : positive) (nb : Node T) v
  : mem T :=
  let a := fresh (dom (heap m)) in
  mkMem (<[b := mkNode (value nb) (HeapNode a)]>
           (<[a := mkNode v (next_node nb)]> (heap m)))
        (<[l := mkList (head_ o) (size_incr (size_ o))]> (objs m)).

Definition erase_mem m l (o : SingleLinkedList T) (b : positive) (nb : Node T)
    (c : positive) (nc : Node T) : mem T :=
  mkMem (<[b := mkNode (value nb) (next_node nc)]> (delete c (heap m)))
        (<[l := mkList (head_ o) (size_decr (size_ o))]> (objs m)).

Definition swap_mem m l1 (o1 : SingleLinkedList T) l2 (o2 : SingleLinkedList T)
  : mem T :=
  mkMem (heap m)
        (<[l1 := mkList (mkNode (value (head_ o1)) (next_node (head_ o2))) (size_ o2)]>
           (<[l2 := mkList (mkNode (value (head_ o2)) (next_node (head_ o1))) (size_ o1)]>
              (objs m))).

(** Releasing the nodes at the addresses [X], front to back. *)
Definition free_all (X : list positive) (h : gmap positive (Node T))
  : gmap positive (Node T) :=
  foldl (λ h a, delete a h) h X.

Definition clear_mem m l o (X : list positive) : mem T :=
  mkMem (free_all X (heap m))
        (<[l := mkList (mkNode (value (head_ o)) nullptr) 0]> (objs m)).

End Abstraction.



(** ** Concrete lists of integers *)

Global Instance Z_elem : ElemType Z := {
  default_value := 0%Z;
  eqT := Z.eqb;
  ltT := Z.ltb
}.

(** One list [{1, 2, 3}], at address [1]. *)
Definition mem123 : mem Z :=
  final_mem (new_from 3 [1; 2; 3]%Z empty_mem).

(** The list [{1, 2, 3}] at address [1] and the list [{1, 2}] at address [2]. *)
Definition mem_two : mem Z :=
  final_mem ((new_from 3 [1; 2; 3]%Z ;; new_from 3 [1; 2]%Z) empty_mem).

(** An empty list at address [1] and the list [{1, 2, 3}] at address [2]. *)
Definition mem_empty : mem Z :=
  final_mem ((new_default ;; new_from 3 [1; 2; 3]%Z) empty_mem).

(** The nodes these lists own. *)
Definition cells123 : list (positive * Z) :=
  [(6%positive, 1%Z); (5%positive, 2%Z); (4%positive, 3%Z)].
Definition cells12 : list (positive * Z) :=
  [(10%positive, 1%Z); (9%positive, 2%Z)].

Section Proofs.
Context {T : Type} {ET : ElemType T}.
Implicit Types (m : mem T) (h : gmap positive (Node T)) (p q : NodePtr)
  (cells : list (positive * T)) (l this : positive) (v : T).

(** *** The monad *)

Lemma bind_Ok {A B} (e : M T A) (k : A → M T B) m a m1 :
  e m = Ok a m1 → bind e k m = k a m1.
Proof. unfold bind. by intros ->. Qed.

Lemma bind_Throw {A B} (e : M T A) (k : A → M T B) m m1 :
  e m = Throw m1 → bind e k m = Throw m1.
Proof. unfold bind. by intros ->. Qed.

Lemma size_incr_small (z : Z) :
  (0 ≤ z < SIZE_MAX)%Z → size_incr z = (z + 1)%Z.
Proof.
  unfold size_incr, SIZE_MAX, size_t_bits. intros Hz.
  apply Z.mod_small. lia.
Qed.

Lemma size_decr_pos (z : Z) :
  (0 < z ≤ SIZE_MAX)%Z → size_decr z = (z - 1)%Z.
Proof.
  unfold size_decr, SIZE_MAX, size_t_bits. intros Hz.
  apply Z.mod_small. lia.
Qed.

(** *** Chains *)

Lemma lseg_frame h h' p cells q :
  (∀ a, a ∈ cells.*1 → h' !! a = h !! a) →
  lseg h p cells q → lseg h' p cells q.
Proof.
  revert p. induction cells as [|c rest IH]; intros p Hfr; simpl; [done|].
  intros [-> (r & Hc & Hr)]. split; [done|]. exists r. split.
  - rewrite Hfr; [done|]. simpl. left.
  - apply IH; [|done]. intros a Ha. apply Hfr. simpl. by right.
Qed.

Lemma lseg_app h p c1 c2 q :
  lseg h p (c1 ++ c2) q ↔ ∃ r, lseg h p c1 r ∧ lseg h r c2 q.
Proof.
  revert p. induction c1 as [|c rest IH]; intros p; simpl.
  - split; [intros Hl; by exists p | by intros (r & -> & Hl)].
  - split.
    + intros [-> (r & Hc & Hr)]. apply IH in Hr as (r' & H1 & H2).
      exists r'. split; [|done]. split; [done|]. by exists r.
    + intros (r' & [-> (r & Hc & Hr)] & H2). split; [done|].
      exists r. split; [done|]. apply IH. by exists r'.
Qed.

Lemma lseg_dom h p cells q a :
  lseg h p cells q → a ∈ cells.*1 → a ∈ dom h.
Proof.
  revert p. induction cells as [|c rest IH]; intros p; simpl.
  - intros _ Ha. by apply elem_of_nil in Ha.
  - intros [-> (r & Hc & Hr)] [->|Ha]%elem_of_cons.
    + apply elem_of_dom. by eexists.
    + by eapply IH.
Qed.

Lemma chain_functional h p c1 c2 :
  chain h p c1 → chain h p c2 → c1 = c2.
Proof.
  unfold chain. revert p c2. induction c1 as [|[a v] rest IH]; intros p [|[a' v'] rest']; simpl.
  - done.
  - intros -> [? _]. done.
  - intros [-> _] ?. done.
  - intros [-> (r & Hc & Hr)] [[= <-] (r' & Hc' & Hr')].
    rewrite Hc in Hc'. injection Hc' as <- <-. f_equal. by eapply IH.
Qed.

Lemma chain_NoDup h p cells :
  chain h p cells → NoDup cells.*1.
Proof.
  unfold chain. revert p. induction cells as [|[a v] rest IH]; intros p; simpl.
  - intros _. constructor.
  - intros [-> (r & Hc & Hr)]. constructor; [|by eapply IH].
    intros Ha. apply list_elem_of_fmap in Ha as ([a' v'] & Heq & Hin). simpl in Heq. subst a'.
    apply list_elem_of_split in Hin as (c1 & c2 & ->).
    apply lseg_app in Hr as (r' & H1 & H2). simpl in H2.
    destruct H2 as [-> (r2 & Hc2 & H2)].
    rewrite Hc in Hc2. injection Hc2 as <- <-.
    assert (Hlong : chain h r (c1 ++ (a, v) :: c2)).
    { apply lseg_app. exists (HeapNode a). split; [done|]. simpl. split; [done|]. by exists r. }
    pose proof (chain_functional _ _ _ _ Hlong H2) as Heq.
    apply (f_equal length) in Heq. rewrite length_app in Heq. simpl in Heq. lia.
Qed.

Lemma chain_length_le h p cells :
  chain h p cells → length cells ≤ size h.
Proof.
  intros Hc. rewrite <- (length_fmap fst), <- size_dom.
  rewrite <- (size_list_to_set (C := gset positive)) by by eapply chain_NoDup.
  apply subseteq_size. intros a Ha%elem_of_list_to_set. by eapply lseg_dom.
Qed.

(** *** What each member function computes *)


Lemma PushFront_run m l o v :
  objs m !! l = Some o →
  (Z.of_nat (size (heap m)) < SIZE_MAX)%Z →
  PushFront l v m = Ok tt (push_mem m l o v).
Proof.
  intros Ho Hcap. unfold PushFront, push_mem, bind, new_Node, load_next, bind, load.
  rewrite bool_decide_eq_true_2 by done. rewrite Ho. simpl.
  unfold store_next, load_size, store_size. simpl. rewrite Ho. simpl.
  rewrite lookup_insert_eq. simpl. rewrite lookup_insert_eq. simpl.
  by rewrite insert_insert_eq.
Qed.

Lemma PushFront_full m l v :
  ¬ (Z.of_nat (size (heap m)) < SIZE_MAX)%Z →
  PushFront l v m = Throw m.
Proof.
  intros Hcap. unfold PushFront, bind, new_Node.
  by rewrite bool_decide_eq_false_2.
Qed.

Lemma PushFront_inv m l v (r : unit) m' :
  PushFront l v m = Ok r m' →
  ∃ o, objs m !! l = Some o ∧ (Z.of_nat (size (heap m)) < SIZE_MAX)%Z ∧
       m' = push_mem m l o v.
Proof.
  destruct (decide (Z.of_nat (size (heap m)) < SIZE_MAX)%Z) as [Hcap|Hcap].
  - destruct (objs m !! l) as [o|] eqn:Ho.
    + rewrite (PushFront_run _ _ o) by done. intros [= <-]. by exists o.
    + unfold PushFront, bind, new_Node, load_next, bind, load.
      rewrite bool_decide_eq_true_2 by done. by rewrite Ho.
  - by rewrite PushFront_full.
Qed.

Lemma PushFront_Throw_inv m l v m' :
  PushFront l v m = @Throw T unit m' → m' = m.
Proof.
  destruct (decide (Z.of_nat (size (heap m)) < SIZE_MAX)%Z) as [Hcap|Hcap].
  - destruct (objs m !! l) as [o|] eqn:Ho.
    + by rewrite (PushFront_run _ _ o).
    + unfold PushFront, bind, new_Node, load_next, bind, load.
      rewrite bool_decide_eq_true_2 by done. by rewrite Ho.
  - rewrite PushFront_full by done. by intros [= <-].
Qed.

Lemma PopFront_run m l o a n :
  objs m !! l = Some o →
  size_ o ≠ 0%Z →
  next_node (head_ o) = HeapNode a →
  heap m !! a = Some n →
  PopFront l m = Ok tt (pop_mem m l o a n).
Proof.
  intros Ho Hs Hn Ha.
  unfold PopFront, pop_mem, bind, load_size, assert, load_next, bind, load,
    store_next, store_size, delete_Node.
  rewrite Ho. rewrite bool_decide_eq_true_2 by done.
  crunch ltac:(rewrite ?Ho, ?Hn, ?Ha, ?lookup_insert_eq).
  by rewrite insert_insert_eq.
Qed.

Lemma InsertAfter_head_run m l o v :
  objs m !! l = Some o →
  (Z.of_nat (size (heap m)) < SIZE_MAX)%Z →
  InsertAfter l (mkIterator (HeadOf l)) v m =
    Ok (mkIterator (HeapNode (fresh (dom (heap m))))) (push_mem m l o v).
Proof.
  intros Ho Hcap.
  unfold InsertAfter, push_mem, bind, new_Node, load_next, bind, load,
    store_next, load_size, store_size.
  simpl. rewrite bool_decide_eq_true_2 by done.
  crunch ltac:(rewrite ?Ho, ?lookup_insert_eq).
  by rewrite insert_insert_eq.
Qed.

Lemma fresh_heap_ne h a (n : Node T) :
  h !! a = Some n → fresh (dom h) ≠ a.
Proof.
  intros Ha Heq. apply (is_fresh (dom h)). rewrite Heq.
  apply elem_of_dom. by eexists.
Qed.

Lemma InsertAfter_node_run m l o b nb v :
  objs m !! l = Some o →
  heap m !! b = Some nb →
  (Z.of_nat (size (heap m)) < SIZE_MAX)%Z →
  InsertAfter l (mkIterator (HeapNode b)) v m =
    Ok (mkIterator (HeapNode (fresh (dom (heap m))))) (insert_mem m l o b nb v).
Proof.
  intros Ho Hb Hcap. pose proof (fresh_heap_ne _ _ _ Hb) as Hne.
  unfold InsertAfter, insert_mem, bind, new_Node, load_next, bind, load,
    store_next, load_size, store_size.
  simpl. rewrite bool_decide_eq_true_2 by done.
  crunch ltac:(rewrite ?Ho, ?Hb, ?lookup_insert_eq, ?(lookup_insert_ne _ _ b) by done).
  done.
Qed.

Lemma EraseAfter_head_run m l o c nc :
  objs m !! l = Some o →
  next_node (head_ o) = HeapNode c →
  heap m !! c = Some nc →
  EraseAfter l (mkIterator (HeadOf l)) m =
    Ok (mkIterator (next_node nc)) (pop_mem m l o c nc).
Proof.
  intros Ho Hn Hc.
  unfold EraseAfter, pop_mem, bind, load_next, bind, load,
    delete_Node, store_next, load_size, store_size.
  crunch ltac:(rewrite ?Ho, ?Hn, ?Hc, ?lookup_insert_eq).
  by rewrite insert_insert_eq.
Qed.

Lemma EraseAfter_node_run m l o b nb c nc :
  objs m !! l = Some o →
  heap m !! b = Some nb →
  next_node nb = HeapNode c →
  heap m !! c = Some nc →
  b ≠ c →
  EraseAfter l (mkIterator (HeapNode b)) m =
    Ok (mkIterator (next_node nc)) (erase_mem m l o b nb c nc).
Proof.
  intros Ho Hb Hn Hc Hne.
  unfold EraseAfter, erase_mem, bind, load_next, bind, load,
    delete_Node, store_next, load_size, store_size.
  crunch ltac:(rewrite ?Ho, ?Hn, ?Hc, ?lookup_insert_eq,
               ?(lookup_delete_ne _ c b), ?Hb by done).
  done.
Qed.

Lemma swap_run m l1 o1 l2 o2 :
  objs m !! l1 = Some o1 →
  objs m !! l2 = Some o2 →
  swap l1 l2 m = Ok tt (swap_mem m l1 o1 l2 o2).
Proof.
  intros H1 H2.
  unfold swap, swap_mem, bind, load_next, bind, load, store_next, load_size, store_size.
  destruct (decide (l1 = l2)) as [->|Hne].
  - rewrite H1 in H2. injection H2 as ->.
    crunch ltac:(rewrite ?H1, ?lookup_insert_eq).
    rewrite !insert_insert_eq. by destruct o2 as [[??]?].
  - crunch ltac:(rewrite ?H1, ?H2, ?lookup_insert_eq,
                 ?(lookup_insert_ne _ l2 l1), ?(lookup_insert_ne _ l1 l2) by done).
    do 2 f_equal. apply map_eq. intros i.
    rewrite !lookup_insert. repeat case_decide; congruence.
Qed.

(** *** Clear *)

Lemma free_all_cons a X h : free_all (a :: X) h = free_all X (delete a h).
Proof. done. Qed.

Lemma lookup_free_all X h a :
  free_all X h !! a = if decide (a ∈ X) then None else h !! a.
Proof.
  revert h. induction X as [|x X IH]; intros h.
  - rewrite decide_False; [done|]. apply not_elem_of_nil.
  - rewrite free_all_cons, IH. destruct (decide (a = x)) as [->|Hne].
    + rewrite (decide_True (P := x ∈ x :: X)) by left.
      case_decide; [done|]. apply lookup_delete_eq.
    + rewrite lookup_delete_ne by done.
      repeat case_decide; try done.
      * exfalso. apply H0. by right.
      * exfalso. apply elem_of_cons in H0 as [?|?]; done.
Qed.

Lemma free_all_insert_fresh X h a (n : Node T) :
  h !! a = None → free_all (a :: X) (<[a := n]> h) = free_all X h.
Proof. intros Ha. rewrite free_all_cons. by rewrite delete_insert_id. Qed.

Lemma Clear_loop_run l cells : ∀ m o fuel,
  objs m !! l = Some o →
  chain (heap m) (next_node (head_ o)) cells →
  length cells ≤ fuel →
  Clear_loop fuel l m =
    Ok tt (mkMem (free_all cells.*1 (heap m))
             (<[l := mkList (mkNode (value (head_ o)) nullptr) (size_ o)]> (objs m))).
Proof.
  induction cells as [|[a v] rest IH]; intros m o fuel Ho Hch Hfuel.
  - unfold chain in Hch. simpl in Hch.
    assert (Clear_loop fuel l m = Ok tt m) as ->.
    { destruct fuel; simpl; unfold bind, load_next, bind, load;
        crunch ltac:(rewrite ?Ho, ?Hch); done. }
    simpl. destruct o as [[v n] s]. simpl in *. subst n.
    rewrite insert_id by done. by destruct m.
  - pose proof (chain_NoDup _ _ _ Hch) as Hnd. simpl in Hnd.
    apply NoDup_cons in Hnd as [Hnotin _].
    unfold chain in Hch. simpl in Hch. destruct Hch as [Hn (r & Ha & Hr)].
    destruct fuel as [|fuel]; [simpl in Hfuel; lia|].
    simpl. unfold bind at 1. unfold load_next at 1, bind, load.
    rewrite Ho, Hn. simpl.
    unfold load_next, bind, load, delete_Node, store_next.
    crunch ltac:(rewrite ?Ho, ?Hn, ?Ha).
    erewrite IH; simpl; cycle 1.
    + apply lookup_insert_eq.
    + simpl. eapply lseg_frame; [|exact Hr].
      intros b Hb. apply lookup_delete_ne. intros ->. done.
    + simpl in Hfuel. lia.
    + simpl. by rewrite insert_insert_eq.
Qed.

Lemma Clear_run l cells m o fuel :
  objs m !! l = Some o →
  chain (heap m) (next_node (head_ o)) cells →
  length cells ≤ fuel →
  Clear fuel l m = Ok tt (clear_mem m l o cells.*1).
Proof.
  intros Ho Hch Hfuel. unfold Clear, clear_mem.
  erewrite bind_Ok by by eapply Clear_loop_run.
  unfold store_size. simpl. rewrite lookup_insert_eq. simpl.
  by rewrite insert_insert_eq.
Qed.

(** *** List-level frame and effect lemmas *)

Lemma list_at_frame m m' l cells :
  objs m' !! l = objs m !! l →
  (∀ a, a ∈ cells.*1 → heap m' !! a = heap m !! a) →
  list_at m l cells → list_at m' l cells.
Proof.
  intros Hobj Hfr (o & Ho & Hch & Hsz). exists o. split; [by rewrite Hobj|].
  split; [|done]. by eapply lseg_frame.
Qed.

Lemma list_at_functional m l c1 c2 :
  list_at m l c1 → list_at m l c2 → c1 = c2.
Proof.
  intros (o & Ho & Hch & _) (o' & Ho' & Hch' & _).
  rewrite Ho in Ho'. injection Ho' as <-. by eapply chain_functional.
Qed.

Lemma list_at_size_bound m l cells :
  list_at m l cells → (Z.of_nat (length cells) ≤ Z.of_nat (size (heap m)))%Z.
Proof.
  intros (o & _ & Hch & _). apply chain_length_le in Hch. lia.
Qed.

Lemma list_at_intro m l o cells :
  objs m !! l = Some o →
  chain (heap m) (next_node (head_ o)) cells →
  size_ o = Z.of_nat (length cells) →
  (size_ o ≤ SIZE_MAX)%Z →
  list_at m l cells.
Proof. intros. by exists o. Qed.

Lemma fresh_not_in_chain h p cells q :
  lseg h p cells q → fresh (dom h) ∉ cells.*1.
Proof.
  intros Hl Hin. apply (is_fresh (dom h)). by eapply lseg_dom.
Qed.

Lemma push_mem_list_at m l o v cells :
  objs m !! l = Some o →
  chain (heap m) (next_node (head_ o)) cells →
  size_ o = Z.of_nat (length cells) →
  (Z.of_nat (size (heap m)) < SIZE_MAX)%Z →
  list_at (push_mem m l o v) l ((fresh (dom (heap m)), v) :: cells).
Proof.
  intros Ho Hch Hsz Hcap. pose proof (chain_length_le _ _ _ Hch) as Hle.
  eapply list_at_intro; unfold push_mem; simpl.
  - apply lookup_insert_eq.
  - unfold chain. simpl. split; [done|]. eexists. split; [apply lookup_insert_eq|].
    eapply lseg_frame; [|exact Hch]. intros a Ha.
    apply lookup_insert_ne. intros <-. by eapply fresh_not_in_chain.
  - simpl. rewrite size_incr_small; lia.
  - simpl. rewrite size_incr_small; lia.
Qed.

Lemma pop_mem_list_at m l o a v r rest :
  objs m !! l = Some o →
  chain (heap m) (next_node (head_ o)) ((a, v) :: rest) →
  size_ o = Z.of_nat (length ((a, v) :: rest)) →
  (size_ o ≤ SIZE_MAX)%Z →
  heap m !! a = Some (mkNode v r) →
  list_at (pop_mem m l o a (mkNode v r)) l rest.
Proof.
  intros Ho Hch Hsz Hmax Ha.
  pose proof (chain_NoDup _ _ _ Hch) as Hnd. simpl in Hnd.
  apply NoDup_cons in Hnd as [Hnotin _].
  unfold chain in Hch. simpl in Hch. destruct Hch as [Hn (r' & Ha' & Hr)].
  rewrite Ha in Ha'. injection Ha' as <-. simpl in Hsz.
  eapply list_at_intro; unfold pop_mem; simpl.
  - apply lookup_insert_eq.
  - eapply lseg_frame; [|exact Hr]. intros b Hb.
    apply lookup_delete_ne. by intros ->.
  - simpl. rewrite size_decr_pos; lia.
  - simpl. rewrite size_decr_pos; lia.
Qed.

Lemma chain_split h p pre b vb post :
  chain h p (pre ++ (b, vb) :: post) →
  ∃ r, lseg h p pre (HeapNode b) ∧ h !! b = Some (mkNode vb r) ∧
       chain h r post ∧ (b ∉ pre.*1) ∧ (b ∉ post.*1).
Proof.
  intros Hch. pose proof (chain_NoDup _ _ _ Hch) as Hnd.
  rewrite fmap_app in Hnd. apply NoDup_app in Hnd as (_ & Hpre & Hpost).
  simpl in Hpost. apply NoDup_cons in Hpost as [Hpost _].
  apply lseg_app in Hch as (r1 & H1 & H2). simpl in H2.
  destruct H2 as [-> (r & Hb & Hr)]. exists r. repeat split; try done.
  intros Hin. apply (Hpre _ Hin). simpl. left.
Qed.

Lemma insert_mem_list_at m l o v pre b vb r post :
  objs m !! l = Some o →
  chain (heap m) (next_node (head_ o)) (pre ++ (b, vb) :: post) →
  size_ o = Z.of_nat (length (pre ++ (b, vb) :: post)) →
  heap m !! b = Some (mkNode vb r) →
  (Z.of_nat (size (heap m)) < SIZE_MAX)%Z →
  list_at (insert_mem m l o b (mkNode vb r) v) l
    (pre ++ (b, vb) :: (fresh (dom (heap m)), v) :: post).
Proof.
  intros Ho Hch Hsz Hb Hcap.
  pose proof (chain_length_le _ _ _ Hch) as Hle.
  pose proof (fresh_not_in_chain _ _ _ _ Hch) as Hfresh.
  rewrite fmap_app in Hfresh. simpl in Hfresh.
  apply not_elem_of_app in Hfresh as [Hf1 Hf2].
  apply not_elem_of_cons in Hf2 as [Hf2 Hf3].
  apply chain_split in Hch as (r' & Hpre & Hb' & Hpost & Hn1 & Hn2).
  rewrite Hb in Hb'. injection Hb' as <-.
  rewrite length_app in Hsz, Hle. simpl in Hsz, Hle.
  eapply list_at_intro; unfold insert_mem; simpl.
  - apply lookup_insert_eq.
  - apply lseg_app. exists (HeapNode b). split.
    + eapply lseg_frame; [|exact Hpre]. intros a Ha.
      rewrite !lookup_insert_ne; [done|by intros <-|by intros <-].
    + simpl. split; [done|]. eexists. split; [apply lookup_insert_eq|].
      split; [done|]. eexists. split.
      { rewrite lookup_insert_ne by done. apply lookup_insert_eq. }
      eapply lseg_frame; [|exact Hpost]. intros a Ha.
      rewrite !lookup_insert_ne; [done|by intros <-|by intros <-].
  - rewrite length_app. simpl. rewrite size_incr_small; lia.
  - simpl. rewrite size_incr_small; lia.
Qed.

Lemma erase_mem_list_at m l o pre b vb c vc r post :
  objs m !! l = Some o →
  chain (heap m) (next_node (head_ o)) (pre ++ (b, vb) :: (c, vc) :: post) →
  size_ o = Z.of_nat (length (pre ++ (b, vb) :: (c, vc) :: post)) →
  (size_ o ≤ SIZE_MAX)%Z →
  heap m !! c = Some (mkNode vc r) →
  list_at (erase_mem m l o b (mkNode vb (HeapNode c)) c (mkNode vc r)) l
    (pre ++ (b, vb) :: post).
Proof.
  intros Ho Hch Hsz Hmax Hc.
  apply chain_split in Hch as (r' & Hpre & Hb & Hpost & Hn1 & Hn2).
  pose proof (chain_NoDup _ _ _ Hpost) as Hnd. simpl in Hnd.
  apply NoDup_cons in Hnd as [Hcpost _].
  simpl in Hn2. apply not_elem_of_cons in Hn2 as [Hbc Hn2].
  assert (Hcpre : c ∉ pre.*1).
  { intros Hin. apply list_elem_of_fmap in Hin as ([c' vc'] & Heq & Hin).
    simpl in Heq. subst c'. apply list_elem_of_split in Hin as (p1 & p2 & ->).
    apply lseg_app in Hpre as (r1 & _ & H2).
    simpl in H2. destruct H2 as [_ (r2 & Hc2 & H2)].
    rewrite Hc in Hc2. injection Hc2 as <- <-.
    assert (Hlong : chain (heap m) r (p2 ++ (b, vb) :: (c, vc) :: post)).
    { apply lseg_app. exists (HeapNode b). split; [done|]. simpl. split; [done|].
      eexists. split; [exact Hb|]. exact Hpost. }
    unfold chain in Hpost. simpl in Hpost.
    destruct Hpost as [_ (r3 & Hc3 & H3)].
    rewrite Hc in Hc3. injection Hc3 as <-.
    pose proof (chain_functional _ _ _ _ Hlong H3) as Heq.
    apply (f_equal length) in Heq. rewrite length_app in Heq. simpl in Heq. lia. }
  unfold chain in Hpost. simpl in Hpost. destruct Hpost as [-> (r3 & Hc3 & H3)].
  rewrite Hc in Hc3. injection Hc3 as <-.
  rewrite length_app in Hsz. simpl in Hsz.
  eapply list_at_intro; unfold erase_mem; simpl.
  - apply lookup_insert_eq.
  - apply lseg_app. exists (HeapNode b). split.
    + eapply lseg_frame; [|exact Hpre]. intros a Ha.
      rewrite lookup_insert_ne by by intros <-.
      rewrite lookup_delete_ne; [done|by intros <-].
    + simpl. split; [done|]. eexists. split; [apply lookup_insert_eq|].
      eapply lseg_frame; [|exact H3]. intros a Ha.
      rewrite lookup_insert_ne by by intros <-.
      rewrite lookup_delete_ne; [done|by intros <-].
  - rewrite length_app. simpl. rewrite size_decr_pos; lia.
  - simpl. rewrite size_decr_pos; lia.
Qed.

Lemma clear_mem_list_at m l o X :
  list_at (clear_mem m l o X) l [].
Proof.
  eapply list_at_intro; unfold clear_mem; simpl.
  - apply lookup_insert_eq.
  - done.
  - done.
  - simpl. unfold SIZE_MAX, size_t_bits. lia.
Qed.

Lemma swap_mem_list_at m l1 o1 l2 o2 c1 c2 :
  objs m !! l1 = Some o1 → objs m !! l2 = Some o2 →
  list_at m l1 c1 → list_at m l2 c2 →
  list_at (swap_mem m l1 o1 l2 o2) l1 c2 ∧
  list_at (swap_mem m l1 o1 l2 o2) l2 c1.
Proof.
  intros H1 H2 (o1' & H1' & Hc1 & Hs1 & Hm1) (o2' & H2' & Hc2 & Hs2 & Hm2).
  rewrite H1 in H1'. injection H1' as <-.
  rewrite H2 in H2'. injection H2' as <-.
  split.
  - eapply list_at_intro; unfold swap_mem; simpl; [apply lookup_insert_eq|..]; done.
  - destruct (decide (l1 = l2)) as [->|Hne].
    + rewrite H1 in H2. injection H2 as ->.
      eapply list_at_intro; unfold swap_mem; simpl; [apply lookup_insert_eq|..]; done.
    + eapply list_at_intro; unfold swap_mem; simpl.
      * rewrite lookup_insert_ne by done. apply lookup_insert_eq.
      * done.
      * done.
      * done.
Qed.

(** *** Iterator ranges *)

Lemma range_mono {It} `{ForwardIterator T It} (R R' : mem T → Prop)
    (first last : It) xs :
  (∀ m, R' m → R m) → range R first last xs → range R' first last xs.
Proof.
  intros HR. revert first. induction xs as [|x rest IH]; intros first; simpl; [done|].
  intros (Hne & Hd & first' & Hi & Hr). split; [done|]. split; [by auto|].
  exists first'. split; [by auto|]. by apply IH.
Qed.

Lemma array_range (S : list T) (i : nat) :
  i ≤ length S →
  range (λ _, True) (mkArrayIterator S i) (init_end S) (drop i S).
Proof.
  remember (length S - i) as k eqn:Hk. revert i Hk.
  induction k as [|k IH]; intros i Hk Hi.
  - assert (i = length S) as -> by lia. rewrite drop_all. simpl.
    by apply bool_decide_eq_true_2.
  - assert (Hlt : i < length S) by lia.
    destruct (lookup_lt_is_Some_2 S i Hlt) as [x Hx].
    rewrite (drop_S _ _ _ Hx). simpl. split.
    { apply bool_decide_eq_false_2. lia. }
    split.
    { intros m _. by rewrite Hx. }
    exists (mkArrayIterator S (Datatypes.S i)). split.
    { intros m _. by rewrite bool_decide_eq_true_2. }
    apply IH; lia.
Qed.

Lemma chain_nth_ptr h p cells : chain h p cells → p = nth_ptr cells 0.
Proof. destruct cells as [|c rest]; unfold chain; simpl; [done|]. by intros [-> _]. Qed.

Lemma chain_range cells :
  range (λ m, chain (heap m) (nth_ptr cells 0) cells)
    (mkIterator (nth_ptr cells 0)) (mkIterator nullptr) cells.*2.
Proof.
  induction cells as [|[a v] rest IH]; simpl.
  - by apply bool_decide_eq_true_2.
  - split.
    { by apply bool_decide_eq_false_2. }
    split.
    { intros m [_ (r & Ha & Hr)]. unfold iter_deref, load_value, bind, load. simpl.
      simpl in Ha. by rewrite Ha. }
    exists (mkIterator (nth_ptr rest 0)). split.
    { intros m [_ (r & Ha & Hr)].
      unfold iter_incr, bind, assert, load_next, bind, load. simpl.
      simpl in Ha. rewrite Ha. simpl. by rewrite (chain_nth_ptr _ _ _ Hr). }
    eapply range_mono; [|exact IH].
    intros m [_ (r & Ha & Hr)]. simpl.
    by rewrite <- (chain_nth_ptr _ _ _ Hr).
Qed.

Lemma traverse_run {It} `{ForwardIterator T It} (R : mem T → Prop)
    (first last : It) xs m fuel :
  range R first last xs → R m → length xs ≤ fuel →
  traverse fuel first last m = Ok xs m.
Proof.
  revert first fuel. induction xs as [|x rest IH]; intros first fuel; simpl.
  - intros Heq _ _. destruct fuel; simpl; by rewrite Heq.
  - intros (Hne & Hd & first' & Hi & Hr) Hm Hfuel.
    destruct fuel as [|fuel]; [lia|]. simpl. rewrite Hne. simpl.
    unfold bind. rewrite Hd by done. rewrite Hi by done.
    fold (@bind T). rewrite (IH first' fuel) by (done || lia). done.
Qed.

Lemma std_equal_run {It} `{ForwardIterator T It} (R : mem T → Prop)
    (f1 l1 f2 l2 : It) xs ys m fuel :
  range R f1 l1 xs → range R f2 l2 ys → R m →
  length xs ≤ fuel →
  std_equal fuel f1 l1 f2 l2 m = Ok (equal_loop xs ys) m.
Proof.
  revert f1 f2 ys fuel. induction xs as [|x xs' IH]; intros f1 f2 ys fuel; simpl.
  - intros Heq Hys _ _.
    assert (std_equal fuel f1 l1 f2 l2 m = Ok (it_eqb f2 l2) m) as ->.
    { destruct fuel; simpl; by rewrite Heq. }
    destruct ys as [|y ys']; simpl in Hys.
    + by rewrite Hys.
    + destruct Hys as [-> _]. done.
  - intros (Hne1 & Hd1 & f1' & Hi1 & Hr1) Hys Hm Hfuel.
    destruct fuel as [|fuel]; [lia|].
    destruct ys as [|y ys']; simpl in Hys.
    + simpl. rewrite Hne1, Hys. done.
    + destruct Hys as (Hne2 & Hd2 & f2' & Hi2 & Hr2).
      simpl. rewrite Hne1, Hne2. simpl.
      unfold bind. rewrite Hd1, Hd2 by done.
      destruct (eqT x y); simpl; [|done].
      rewrite Hi1, Hi2 by done.
      apply IH; (done || lia).
Qed.

Lemma std_lexicographical_compare_run {It} `{ForwardIterator T It}
    (R : mem T → Prop) (f1 l1 f2 l2 : It) xs ys m fuel :
  range R f1 l1 xs → range R f2 l2 ys → R m →
  length xs ≤ fuel →
  std_lexicographical_compare fuel f1 l1 f2 l2 m = Ok (lex_loop xs ys) m.
Proof.
  revert f1 f2 ys fuel. induction xs as [|x xs' IH]; intros f1 f2 ys fuel; simpl.
  - intros Heq Hys _ _.
    assert (std_lexicographical_compare fuel f1 l1 f2 l2 m
            = Ok (negb (it_eqb f2 l2)) m) as ->.
    { destruct fuel; simpl; by rewrite Heq. }
    destruct ys as [|y ys']; simpl in Hys.
    + by rewrite Hys.
    + destruct Hys as [-> _]. done.
  - intros (Hne1 & Hd1 & f1' & Hi1 & Hr1) Hys Hm Hfuel.
    destruct fuel as [|fuel]; [lia|].
    destruct ys as [|y ys']; simpl in Hys.
    + simpl. rewrite Hne1, Hys. done.
    + destruct Hys as (Hne2 & Hd2 & f2' & Hi2 & Hr2).
      simpl. rewrite Hne1, Hne2. simpl.
      unfold bind. rewrite Hd1, Hd2 by done.
      destruct (ltT x y); simpl; [done|].
      destruct (ltT y x); simpl; [done|].
      rewrite Hi1, Hi2 by done.
      apply IH; (done || lia).
Qed.

(** *** CopyList *)

Lemma chain_stable p cells m1 m2 :
  chain (heap m1) p cells →
  (∀ a n, heap m1 !! a = Some n → heap m2 !! a = Some n) →
  chain (heap m2) p cells.
Proof.
  intros Hch Hext. eapply lseg_frame; [|exact Hch].
  intros a Ha. pose proof (lseg_dom _ _ _ _ _ Hch Ha) as Hd.
  apply elem_of_dom in Hd as [n Hn]. rewrite Hn. by apply Hext.
Qed.

Lemma CopyList_loop_run {It} `{ForwardIterator T It} (R : mem T → Prop)
    dst (last : It) xs : ∀ (first : It) fuel m dcells,
  (∀ m1 m2, R m1 → (∀ a n, heap m1 !! a = Some n → heap m2 !! a = Some n) → R m2) →
  range R first last xs → R m →
  list_at m dst dcells →
  length xs ≤ fuel →
  (Z.of_nat (size (heap m)) + Z.of_nat (length xs) ≤ SIZE_MAX)%Z →
  ∃ new m',
    CopyList_loop fuel dst first last m = Ok tt m' ∧ R m' ∧
    list_at m' dst (new ++ dcells) ∧ new.*2 = reverse xs ∧
    (∀ a, a ∈ new.*1 → heap m !! a = None) ∧
    (∀ a, a ∉ new.*1 → heap m' !! a = heap m !! a) ∧
    (∀ l, l ≠ dst → objs m' !! l = objs m !! l) ∧
    size (heap m') = size (heap m) + length xs.
Proof.
  induction xs as [|x rest IH]; intros first fuel m dcells Hst Hr HR Hl Hfuel Hcap.
  - simpl in Hr. exists [], m. split.
    { destruct fuel; simpl; by rewrite Hr. }
    split_and!; [done|done|done| |done|done|simpl; lia].
    intros a Ha. by apply elem_of_nil in Ha.
  - simpl in Hr. destruct Hr as (Hne & Hd & first' & Hi & Hr).
    simpl in Hfuel, Hcap. destruct fuel as [|fuel]; [lia|].
    destruct Hl as (o & Ho & Hch & Hsz & Hmax).
    set (a := fresh (dom (heap m))).
    assert (Hfa : heap m !! a = None).
    { apply not_elem_of_dom. apply is_fresh. }
    assert (Hext : ∀ b n, heap m !! b = Some n → heap (push_mem m dst o x) !! b = Some n).
    { intros b n Hb. unfold push_mem. simpl. rewrite lookup_insert_ne; [done|].
      intros Heq. fold a in Heq. congruence. }
    assert (HR1 : R (push_mem m dst o x)) by by eapply Hst.
    destruct (IH first' fuel (push_mem m dst o x) ((a, x) :: dcells))
      as (new & m' & Hrun & HR' & Hl' & Hv & Hfr & Hsame & Hobj & Hsize);
      try done.
    { apply push_mem_list_at; try done. lia. }
    { lia. }
    { unfold push_mem. simpl. rewrite map_size_insert_None by done. lia. }
    exists (new ++ [(a, x)]), m'. split.
    { simpl. rewrite Hne. simpl. unfold bind.
      rewrite Hd by done. rewrite (PushFront_run _ _ o) by (done || lia).
      rewrite Hi by done. exact Hrun. }
    split; [done|]. split.
    { by rewrite <- app_assoc. }
    split.
    { rewrite fmap_app, Hv. simpl. by rewrite reverse_cons. }
    split.
    { intros b Hb. rewrite fmap_app in Hb. simpl in Hb.
      apply elem_of_app in Hb as [Hb|Hb].
      - specialize (Hfr b Hb). unfold push_mem in Hfr. simpl in Hfr.
        destruct (decide (b = a)) as [->|Hba]; [done|].
        fold a in Hfr. by rewrite lookup_insert_ne in Hfr.
      - apply list_elem_of_singleton in Hb. by subst b. }
    split.
    { intros b Hb. rewrite fmap_app in Hb. simpl in Hb.
      apply not_elem_of_app in Hb as [Hb1 Hb2].
      apply not_elem_of_cons in Hb2 as [Hb2 _].
      rewrite Hsame by done. unfold push_mem. simpl. fold a.
      by rewrite lookup_insert_ne. }
    split.
    { intros l Hne'. rewrite Hobj by done. unfold push_mem. simpl.
      by rewrite lookup_insert_ne. }
    rewrite Hsize. unfold push_mem. simpl.
    rewrite map_size_insert_None by done. lia.
Qed.

Lemma finally_Ok {A} (body : M T A) (cleanup : M T unit) m a m1 m2 :
  body m = Ok a m1 → cleanup m1 = Ok tt m2 →
  finally body cleanup m = Ok a m2.
Proof. unfold finally. by intros -> ->. Qed.

Lemma destroy_run l cells m fuel :
  list_at m l cells → length cells ≤ fuel →
  destroy fuel l m = Ok tt (mkMem (free_all cells.*1 (heap m)) (delete l (objs m))).
Proof.
  intros (o & Ho & Hch & _) Hfuel. unfold destroy.
  erewrite bind_Ok by by eapply Clear_run.
  unfold free_obj, clear_mem. simpl. by rewrite delete_insert_eq.
Qed.

Lemma list_at_empty m l o :
  objs m !! l = Some o → next_node (head_ o) = nullptr → size_ o = 0%Z →
  list_at m l [].
Proof.
  intros Ho Hn Hs. eapply list_at_intro; try done.
  rewrite Hs. unfold SIZE_MAX, size_t_bits. lia.
Qed.

Lemma fresh_obj_ne (os : gmap positive (SingleLinkedList T)) l o :
  os !! l = Some o → fresh (dom os) ≠ l.
Proof.
  intros Hl Heq. apply (is_fresh (dom os)). rewrite Heq.
  apply elem_of_dom. by eexists.
Qed.

Lemma fresh_obj_None (os : gmap positive (SingleLinkedList T)) :
  os !! fresh (dom os) = None.
Proof. apply not_elem_of_dom, is_fresh. Qed.

Lemma CopyList_run {It} `{ForwardIterator T It} (R : mem T → Prop)
    this (first last : It) xs fuel m o :
  (∀ m1 m2, R m1 → (∀ a n, heap m1 !! a = Some n → heap m2 !! a = Some n) → R m2) →
  range R first last xs → R m →
  objs m !! this = Some o → next_node (head_ o) = nullptr → size_ o = 0%Z →
  length xs ≤ fuel →
  (Z.of_nat (size (heap m)) + 2 * Z.of_nat (length xs) ≤ SIZE_MAX)%Z →
  ∃ cells m',
    CopyList fuel this first last m = Ok tt m' ∧
    cells.*2 = xs ∧ list_at m' this cells ∧
    (∀ a, a ∈ cells.*1 → heap m !! a = None) ∧
    (∀ a, a ∉ cells.*1 → heap m' !! a = heap m !! a) ∧
    objs m' = <[this := mkList (mkNode (value (head_ o)) (nth_ptr cells 0))
                         (Z.of_nat (length cells))]> (objs m).
Proof.
  intros Hst Hr HR Ho Hnull Hzero Hfuel Hcap.
  set (D := mkList (mkNode (@default_value T ET) nullptr) 0).
  set (l1 := fresh (dom (objs m))).
  set (os1 := <[l1 := D]> (objs m)).
  set (l2 := fresh (dom os1)).
  set (m2 := mkMem (heap m) (<[l2 := D]> os1)).
  assert (H1this : l1 ≠ this) by by eapply fresh_obj_ne.
  assert (H2this : l2 ≠ this).
  { eapply fresh_obj_ne. unfold os1. rewrite lookup_insert_ne by done. exact Ho. }
  assert (H21 : l2 ≠ l1).
  { eapply fresh_obj_ne. unfold os1. apply lookup_insert_eq. }
  assert (H1None : objs m !! l1 = None) by apply fresh_obj_None.
  assert (H2None : objs m !! l2 = None).
  { pose proof (fresh_obj_None os1) as Hn. fold l2 in Hn. unfold os1 in Hn.
    by rewrite lookup_insert_ne in Hn. }
  (* first loop: the input, reversed, into tmp1 *)
  destruct (CopyList_loop_run R l1 last xs first fuel m2 []) as
    (cA & m3 & HrunA & HR3 & HlA & HvA & HfrA & HsameA & HobjA & HsizeA); try done.
  { eapply Hst; [exact HR|]. done. }
  { eapply (list_at_empty _ _ D); [|done|done]. unfold m2. simpl.
    rewrite lookup_insert_ne by done. unfold os1. apply lookup_insert_eq. }
  { unfold m2. simpl. lia. }
  rewrite app_nil_r in HlA.
  destruct HlA as (oA & HoA & HchA & HszA & HmaxA).
  pose proof (chain_nth_ptr _ _ _ HchA) as HpA.
  (* second loop: tmp1, reversed, into tmp2 *)
  destruct (CopyList_loop_run (λ m, chain (heap m) (nth_ptr cA 0) cA) l2
              (mkIterator nullptr) (reverse xs) (mkIterator (nth_ptr cA 0)) fuel m3 []) as
    (cB & m4 & HrunB & HR4 & HlB & HvB & HfrB & HsameB & HobjB & HsizeB).
  { intros ma mb Hch Hext. by eapply chain_stable. }
  { rewrite <- HvA. apply chain_range. }
  { by rewrite <- HpA. }
  { eapply (list_at_empty _ _ D); [|done|done]. rewrite HobjA by done.
    unfold m2. simpl. apply lookup_insert_eq. }
  { by rewrite length_reverse. }
  { rewrite length_reverse, HsizeA. unfold m2. simpl. lia. }
  rewrite app_nil_r, reverse_involutive in *.
  destruct HlB as (oB & HoB & HchB & HszB & HmaxB).
  assert (HthisB : objs m4 !! this = Some o).
  { rewrite HobjB, HobjA by done. unfold m2, os1. simpl.
    by rewrite !lookup_insert_ne. }
  assert (HAB : ∀ a, a ∈ cB.*1 → a ∉ cA.*1).
  { intros a Ha HaA. specialize (HfrB a Ha).
    pose proof (lseg_dom _ _ _ _ _ HchA HaA) as Hd.
    apply elem_of_dom in Hd as [n Hn]. congruence. }
  set (X := mkList (mkNode (value (head_ o)) (next_node (head_ oB))) (size_ oB)).
  set (Y := mkList (mkNode (value (head_ oB)) (next_node (head_ o))) (size_ o)).
  assert (Hl1_4 : list_at m4 l1 cA).
  { eapply list_at_intro; try done.
    - by rewrite HobjB.
    - eapply chain_stable; [exact HchA|]. intros a n Hn.
      destruct (decide (a ∈ cB.*1)) as [Hin|Hnin].
      + rewrite HfrB in Hn by done. done.
      + by rewrite HsameB. }
  exists cB, (mkMem (free_all cA.*1 (heap m4))
               (delete l1 (delete l2 (<[this := X]> (<[l2 := Y]> (objs m4)))))).
  split.
  { unfold CopyList, with_local. unfold bind at 1. simpl.
    eapply finally_Ok.
    - unfold bind at 1. simpl. fold l1 os1 l2 D m2.
      eapply finally_Ok.
      + erewrite bind_Ok by exact HrunA.
        unfold begin, end_. erewrite bind_Ok; cycle 1.
        { unfold bind, load_next, bind, load. by rewrite HoA. }
        erewrite bind_Ok by reflexivity. rewrite <- HpA in HrunB.
        erewrite bind_Ok by exact HrunB.
        by apply swap_run.
      + apply (destroy_run l2 [] (swap_mem m4 this o l2 oB) fuel); [|simpl; lia].
        eapply (list_at_empty _ _ Y); unfold swap_mem; simpl.
        * rewrite lookup_insert_ne by done. apply lookup_insert_eq.
        * done.
        * done.
    - simpl. apply (destroy_run l1 cA); [|].
      + eapply list_at_frame; [| |exact Hl1_4]; simpl; [|done].
        rewrite lookup_delete_ne by done. by rewrite !lookup_insert_ne.
      + rewrite <- (length_fmap snd), HvA, length_reverse. done. }
  split; [done|]. split.
  { eapply list_at_intro; simpl.
    - rewrite !lookup_delete_ne by done. apply lookup_insert_eq.
    - simpl. eapply lseg_frame; [|exact HchB]. intros a Ha.
      rewrite lookup_free_all. rewrite decide_False; [done|]. by apply HAB.
    - done.
    - done. }
  split.
  { intros a Ha. pose proof (HfrB a Ha) as HN.
    rewrite HsameA in HN by by apply HAB. done. }
  split.
  { intros a Ha. simpl. rewrite lookup_free_all. case_decide as HaA.
    - symmetry. apply (HfrA a HaA).
    - rewrite HsameB by done. by rewrite HsameA. }
  simpl. apply map_eq. intros i.
  pose proof (chain_nth_ptr _ _ _ HchB) as HpB.
  destruct (decide (i = l1)) as [->|Hi1].
  { rewrite lookup_delete_eq. by rewrite lookup_insert_ne. }
  rewrite lookup_delete_ne by done.
  destruct (decide (i = l2)) as [->|Hi2].
  { rewrite lookup_delete_eq. by rewrite lookup_insert_ne. }
  rewrite lookup_delete_ne by done.
  destruct (decide (i = this)) as [->|Hit].
  { rewrite !lookup_insert_eq. unfold X. by rewrite HpB, HszB. }
  rewrite !lookup_insert_ne by done.
  rewrite HobjB, HobjA by done. unfold m2, os1. simpl.
  by rewrite !lookup_insert_ne.
Qed.

(** *** Constructors and assignment *)

Local Arguments CopyList : simpl never.

Lemma new_from_run (S : list T) fuel m :
  length S ≤ fuel →
  (Z.of_nat (size (heap m)) + 2 * Z.of_nat (length S) ≤ SIZE_MAX)%Z →
  ∃ cells m',
    new_from fuel S m = Ok (fresh (dom (objs m))) m' ∧
    cells.*2 = S ∧ list_at m' (fresh (dom (objs m))) cells ∧
    (∀ a, a ∈ cells.*1 → heap m !! a = None) ∧
    (∀ a, a ∉ cells.*1 → heap m' !! a = heap m !! a) ∧
    (∀ l, l ≠ fresh (dom (objs m)) → objs m' !! l = objs m !! l).
Proof.
  intros Hfuel Hcap.
  set (l := fresh (dom (objs m))).
  set (D := mkList (mkNode (@default_value T ET) nullptr) 0).
  set (m0 := mkMem (heap m) (<[l := D]> (objs m))).
  destruct (CopyList_run (λ _, True) l (init_begin S) (init_end S) S fuel m0 D)
    as (cells & m' & Hrun & Hv & Hl & Hfr & Hsame & Hobj); try done.
  { pose proof (array_range S 0) as Hr. rewrite drop_0 in Hr. apply Hr. lia. }
  { unfold m0. simpl. apply lookup_insert_eq. }
  exists cells, m'. split.
  { unfold new_from, construct, ctor_init. simpl. fold l D m0. by rewrite Hrun. }
  split; [done|]. split; [done|]. split; [done|]. split; [done|].
  intros l' Hne. rewrite Hobj. unfold m0. simpl. by rewrite !lookup_insert_ne.
Qed.

Lemma new_copy_run other ocells fuel m :
  list_at m other ocells →
  length ocells ≤ fuel →
  (Z.of_nat (size (heap m)) + 2 * Z.of_nat (length ocells) ≤ SIZE_MAX)%Z →
  ∃ cells m',
    new_copy fuel other m = Ok (fresh (dom (objs m))) m' ∧
    cells.*2 = ocells.*2 ∧ list_at m' (fresh (dom (objs m))) cells ∧
    (∀ a, a ∈ cells.*1 → heap m !! a = None) ∧
    (∀ a, a ∉ cells.*1 → heap m' !! a = heap m !! a) ∧
    (∀ l, l ≠ fresh (dom (objs m)) → objs m' !! l = objs m !! l).
Proof.
  intros (oo & Hoo & Hcho & Hszo & Hmaxo) Hfuel Hcap.
  set (l := fresh (dom (objs m))).
  set (D := mkList (mkNode (@default_value T ET) nullptr) 0).
  set (m0 := mkMem (heap m) (<[l := D]> (objs m))).
  assert (Hlo : l ≠ other) by by eapply fresh_obj_ne.
  pose proof (chain_nth_ptr _ _ _ Hcho) as Hp.
  destruct (CopyList_run (λ m, chain (heap m) (nth_ptr ocells 0) ocells) l
              (mkIterator (nth_ptr ocells 0)) (mkIterator nullptr) ocells.*2 fuel m0 D)
    as (cells & m' & Hrun & Hv & Hl & Hfr & Hsame & Hobj); try done.
  { intros ma mb Hch Hext. by eapply chain_stable. }
  { apply chain_range. }
  { unfold m0. simpl. by rewrite <- Hp. }
  { unfold m0. simpl. apply lookup_insert_eq. }
  { by rewrite length_fmap. }
  { rewrite length_fmap. unfold m0. simpl. lia. }
  exists cells, m'. split.
  { unfold new_copy, construct, ctor_copy. simpl. fold l D m0.
    unfold bind, load_size, load_next, bind, load, begin, end_, load_next, bind, load.
    unfold m0. simpl.
    crunch ltac:(rewrite ?lookup_insert_eq, ?(lookup_insert_ne _ l other), ?Hoo by done).
    fold D m0. rewrite Hp, Hrun. done. }
  split; [done|]. split; [done|]. split; [done|]. split; [done|].
  intros l' Hne. rewrite Hobj. unfold m0. simpl. by rewrite !lookup_insert_ne.
Qed.

Lemma assign_self fuel l m : assign fuel l l m = Ok l m.
Proof.
  unfold assign, bind. rewrite bool_decide_eq_false_2; [done|]. by intros [].
Qed.

Lemma assign_run this rhs tcells rcells fuel m :
  this ≠ rhs →
  list_at m this tcells → list_at m rhs rcells →
  length tcells ≤ fuel → length rcells ≤ fuel →
  (Z.of_nat (size (heap m)) + 2 * Z.of_nat (length rcells) ≤ SIZE_MAX)%Z →
  ∃ cells m',
    assign fuel this rhs m = Ok this m' ∧
    cells.*2 = rcells.*2 ∧ list_at m' this cells ∧
    (∀ a, a ∈ cells.*1 → heap m !! a = None) ∧
    (∀ a, a ∉ cells.*1 → a ∉ tcells.*1 → heap m' !! a = heap m !! a) ∧
    (∀ a, a ∈ tcells.*1 → heap m' !! a = None) ∧
    (∀ l, l ≠ this → objs m' !! l = objs m !! l).
Proof.
  intros Hne Ht Hr Hft Hfr Hcap.
  destruct (new_copy_run rhs rcells fuel m Hr Hfr Hcap)
    as (cells & m1 & Hrun & Hv & Hl & Hfresh & Hsame & Hobj).
  set (tmp := fresh (dom (objs m))) in *.
  destruct Ht as (ot & Hot & Hcht & Hszt & Hmaxt).
  assert (Htmp : tmp ≠ this) by by eapply fresh_obj_ne.
  assert (Hdisj : ∀ a, a ∈ cells.*1 → a ∉ tcells.*1).
  { intros a Ha Hat. pose proof (lseg_dom _ _ _ _ _ Hcht Hat) as Hd.
    apply elem_of_dom in Hd as [n Hn]. rewrite Hfresh in Hn; done. }
  assert (Ht1 : list_at m1 this tcells).
  { eapply list_at_intro; try done.
    - by rewrite Hobj.
    - eapply lseg_frame; [|exact Hcht]. intros a Ha. apply Hsame.
      intros Hin. by apply (Hdisj a). }
  destruct Hl as (oc & Hoc & Hchc & Hszc & Hmaxc).
  assert (Hot1 : objs m1 !! this = Some ot) by by rewrite Hobj.
  pose proof (swap_mem_list_at m1 this ot tmp oc tcells cells Hot1 Hoc Ht1
                (list_at_intro _ _ _ _ Hoc Hchc Hszc Hmaxc)) as [Hs1 Hs2].
  exists cells,
    (mkMem (free_all tcells.*1 (heap m1)) (delete tmp (objs (swap_mem m1 this ot tmp oc)))).
  split.
  { unfold assign. rewrite bool_decide_eq_true_2 by done.
    erewrite bind_Ok; [reflexivity|].
    unfold with_local. unfold bind at 1.
    change (construct (ctor_copy fuel rhs)) with (new_copy fuel rhs).
    rewrite Hrun. eapply finally_Ok; [by apply swap_run|].
    by apply (destroy_run tmp tcells (swap_mem m1 this ot tmp oc) fuel). }
  split; [done|]. split.
  { eapply list_at_frame; [| |exact Hs1]; simpl.
    - by rewrite lookup_delete_ne.
    - intros a Ha. rewrite lookup_free_all. rewrite decide_False; [done|].
      by apply Hdisj. }
  split; [done|]. split.
  { intros a Ha Hat. simpl. rewrite lookup_free_all.
    rewrite decide_False by done. by apply Hsame. }
  split.
  { intros a Ha. simpl. rewrite lookup_free_all. by rewrite decide_True. }
  intros l Hl. simpl. destruct (decide (l = tmp)) as [->|Hlt].
  - rewrite lookup_delete_eq. symmetry. apply fresh_obj_None.
  - rewrite lookup_delete_ne by done. rewrite !lookup_insert_ne by done.
    by apply Hobj.
Qed.

(** *** Specifications of the mutations on a well-formed list *)

Lemma take_S_middle {A} (pre post : list A) (x : A) :
  take (S (length pre)) (pre ++ x :: post) = pre ++ [x].
Proof. induction pre as [|y pre IH]; simpl; [by rewrite take_0|by f_equal]. Qed.

Lemma drop_S_middle {A} (pre post : list A) (x : A) :
  drop (S (length pre)) (pre ++ x :: post) = post.
Proof. induction pre as [|y pre IH]; simpl; [by rewrite drop_0|done]. Qed.

Lemma delete_middle {A} (pre post : list A) (x : A) :
  delete (length pre) (pre ++ x :: post) = pre ++ post.
Proof. induction pre as [|y pre IH]; simpl; [done|by f_equal]. Qed.

Lemma pos_ptr_cases l cells i :
  i ≤ length cells →
  (i = 0 ∧ pos_ptr l cells i = HeadOf l) ∨
  (∃ pre b vb post, cells = pre ++ (b, vb) :: post ∧ i = S (length pre) ∧
                    pos_ptr l cells i = HeapNode b).
Proof.
  intros Hi. destruct i as [|j]; [by left|]. right.
  destruct (lookup_lt_is_Some_2 cells j) as [[b vb] Hj]; [lia|].
  exists (take j cells), b, vb, (drop (S j) cells). split.
  { by rewrite take_drop_middle. }
  split.
  { rewrite length_take. apply lookup_lt_Some in Hj. lia. }
  simpl. by rewrite Hj.
Qed.

Lemma PushFront_spec m l cells v :
  list_at m l cells →
  (Z.of_nat (size (heap m)) < SIZE_MAX)%Z →
  ∃ a m', heap m !! a = None ∧
    PushFront l v m = Ok tt m' ∧
    list_at m' l ((a, v) :: cells) ∧
    footprint m m' l cells ((a, v) :: cells).
Proof.
  intros (o & Ho & Hch & Hsz & Hmax) Hcap.
  assert (Hfa : heap m !! fresh (dom (heap m)) = None).
  { apply not_elem_of_dom, is_fresh. }
  exists (fresh (dom (heap m))), (push_mem m l o v).
  split; [done|]. split; [by apply PushFront_run|].
  split; [by apply push_mem_list_at|].
  unfold footprint, push_mem. simpl. split_and!.
  - intros l' Hne. by rewrite lookup_insert_ne.
  - intros a _ [n Hn]. rewrite lookup_insert_ne; [done|]. intros <-. congruence.
  - intros a [->|Ha]%elem_of_cons; [by right|by left].
Qed.

Lemma PopFront_spec m l c rest :
  list_at m l (c :: rest) →
  ∃ m', PopFront l m = Ok tt m' ∧
    list_at m' l rest ∧
    heap m' = delete c.1 (heap m) ∧
    footprint m m' l (c :: rest) rest.
Proof.
  destruct c as [a v]. intros (o & Ho & Hch & Hsz & Hmax).
  pose proof Hch as Hch'. unfold chain in Hch'. simpl in Hch'.
  destruct Hch' as [Hn (r & Ha & Hr)].
  exists (pop_mem m l o a (mkNode v r)). split.
  { apply PopFront_run; try done. simpl in Hsz. lia. }
  split; [by apply pop_mem_list_at|]. split; [done|].
  unfold footprint, pop_mem. simpl. split_and!.
  - intros l' Hne. by rewrite lookup_insert_ne.
  - intros b Hb _. apply lookup_delete_ne. intros <-. apply Hb. left.
  - intros b Hb. left. by right.
Qed.

Lemma PopFront_empty m l :
  list_at m l [] → PopFront l m = Fault AssertionFailed.
Proof.
  intros (o & Ho & Hch & Hsz & Hmax). simpl in Hsz.
  unfold PopFront, bind, load_size, assert. rewrite Ho, Hsz. done.
Qed.

Lemma Clear_spec m l cells fuel :
  list_at m l cells → length cells ≤ fuel →
  ∃ m', Clear fuel l m = Ok tt m' ∧
    list_at m' l [] ∧
    heap m' = free_all cells.*1 (heap m) ∧
    footprint m m' l cells [].
Proof.
  intros (o & Ho & Hch & Hsz & Hmax) Hfuel.
  exists (clear_mem m l o cells.*1). split; [by eapply Clear_run|].
  split; [apply clear_mem_list_at|]. split; [done|].
  unfold footprint, clear_mem. simpl. split_and!.
  - intros l' Hne. by rewrite lookup_insert_ne.
  - intros a Ha _. rewrite lookup_free_all. by rewrite decide_False.
  - intros a Ha. by apply elem_of_nil in Ha.
Qed.

Lemma InsertAfter_full m l pos v :
  ¬ (Z.of_nat (size (heap m)) < SIZE_MAX)%Z →
  InsertAfter l pos v m = Throw m.
Proof.
  intros Hcap. unfold InsertAfter, bind, new_Node.
  by rewrite bool_decide_eq_false_2.
Qed.

Lemma InsertAfter_spec m l cells i v :
  list_at m l cells → i ≤ length cells →
  (Z.of_nat (size (heap m)) < SIZE_MAX)%Z →
  ∃ a m', heap m !! a = None ∧
    InsertAfter l (mkIterator (pos_ptr l cells i)) v m = Ok (mkIterator (HeapNode a)) m' ∧
    list_at m' l (take i cells ++ (a, v) :: drop i cells) ∧
    footprint m m' l cells (take i cells ++ (a, v) :: drop i cells).
Proof.
  intros Hl Hi Hcap. pose proof Hl as (o & Ho & Hch & Hsz & Hmax).
  assert (Hfa : heap m !! fresh (dom (heap m)) = None).
  { apply not_elem_of_dom, is_fresh. }
  exists (fresh (dom (heap m))).
  destruct (pos_ptr_cases l cells i Hi) as [[-> Hp]|(pre & b & vb & post & -> & -> & Hp)].
  - rewrite Hp, take_0, drop_0. simpl.
    exists (push_mem m l o v). split; [done|]. split; [by apply InsertAfter_head_run|].
    split; [by apply push_mem_list_at|].
    unfold footprint, push_mem. simpl. split_and!.
    + intros l' Hne. by rewrite lookup_insert_ne.
    + intros a _ [n Hn]. rewrite lookup_insert_ne; [done|]. intros <-. congruence.
    + intros a [->|Ha]%elem_of_cons; [by right|by left].
  - rewrite Hp. destruct (chain_split _ _ _ _ _ _ Hch) as (r & Hpre & Hb & Hpost & Hn1 & Hn2).
    rewrite take_S_middle, drop_S_middle.
    rewrite <- app_assoc. simpl.
    exists (insert_mem m l o b (mkNode vb r) v). split; [done|].
    split; [by apply InsertAfter_node_run|].
    split; [by apply insert_mem_list_at|].
    unfold footprint, insert_mem. simpl. split_and!.
    + intros l' Hne. by rewrite lookup_insert_ne.
    + intros a Ha [n Hn]. rewrite fmap_app in Ha. simpl in Ha.
      apply not_elem_of_app in Ha as [_ Ha]. apply not_elem_of_cons in Ha as [Ha _].
      rewrite !lookup_insert_ne; [done| |done]. intros <-. congruence.
    + intros a Ha. rewrite fmap_app in Ha. simpl in Ha.
      rewrite fmap_app. simpl.
      apply elem_of_app in Ha as [Ha|Ha]; [left; apply elem_of_app; by left|].
      apply elem_of_cons in Ha as [->|Ha]; [left; apply elem_of_app; right; left|].
      apply elem_of_cons in Ha as [->|Ha]; [by right|].
      left. apply elem_of_app. right. by right.
Qed.

Lemma nth_ptr_app_r (pre post : list (positive * T)) k :
  nth_ptr (pre ++ post) (length pre + k) = nth_ptr post k.
Proof.
  unfold nth_ptr. rewrite lookup_app_r by lia.
  by replace (length pre + k - length pre) with k by lia.
Qed.

Lemma EraseAfter_spec m l cells i :
  list_at m l cells → i < length cells →
  ∃ c m', cells !! i = Some c ∧
    EraseAfter l (mkIterator (pos_ptr l cells i)) m
      = Ok (mkIterator (nth_ptr cells (S i))) m' ∧
    list_at m' l (delete i cells) ∧
    heap m' !! c.1 = None ∧
    (∀ a, a ≠ c.1 → value <$> heap m' !! a = value <$> heap m !! a) ∧
    load_next (pos_ptr l cells i) m' = Ok (nth_ptr cells (S i)) m' ∧
    footprint m m' l cells (delete i cells).
Proof.
  intros Hl Hi. pose proof Hl as (o & Ho & Hch & Hsz & Hmax).
  destruct (pos_ptr_cases l cells i) as [[-> Hp]|(pre & b & vb & post & -> & -> & Hp)];
    [lia|..].
  - destruct cells as [|[c vc] rest]; [simpl in Hi; lia|].
    pose proof Hch as Hch'. unfold chain in Hch'. simpl in Hch'.
    destruct Hch' as [Hn (r & Hc & Hr)].
    exists (c, vc), (pop_mem m l o c (mkNode vc r)). split; [done|].
    rewrite Hp. split.
    { rewrite (EraseAfter_head_run _ _ o c (mkNode vc r)) by done. simpl.
      by rewrite (chain_nth_ptr _ _ _ Hr). }
    split; [by apply pop_mem_list_at|].
    unfold pop_mem. simpl. split; [apply lookup_delete_eq|]. split.
    { intros a Ha. by rewrite lookup_delete_ne. }
    split.
    { unfold load_next, bind, load. simpl. rewrite lookup_insert_eq. simpl.
      by rewrite (chain_nth_ptr _ _ _ Hr). }
    unfold footprint. simpl. split_and!.
    + intros l' Hne. by rewrite lookup_insert_ne.
    + intros a Ha _. apply lookup_delete_ne. intros <-. apply Ha. left.
    + intros a Ha. left. by right.
  - destruct post as [|[c vc] post].
    { rewrite length_app in Hi. simpl in Hi. lia. }
    destruct (chain_split _ _ _ _ _ _ Hch) as (r & Hpre & Hb & Hpost & Hn1 & Hn2).
    pose proof Hpost as Hpost'. unfold chain in Hpost'. simpl in Hpost'.
    destruct Hpost' as [-> (r' & Hc & Hr')].
    simpl in Hn2. apply not_elem_of_cons in Hn2 as [Hbc Hn2].
    assert (Hdel : delete (S (length pre)) (pre ++ (b, vb) :: (c, vc) :: post)
                   = pre ++ (b, vb) :: post).
    { rewrite (cons_middle (b, vb)), app_assoc.
      replace (S (length pre)) with (length (pre ++ [(b, vb)]))
        by (rewrite length_app; simpl; lia).
      rewrite delete_middle. by rewrite <- app_assoc. }
    assert (Hnth : nth_ptr (pre ++ (b, vb) :: (c, vc) :: post) (S (S (length pre)))
                   = r').
    { rewrite (chain_nth_ptr _ _ _ Hr').
      replace (S (S (length pre))) with (length pre + 2) by lia.
      by rewrite nth_ptr_app_r. }
    exists (c, vc), (erase_mem m l o b (mkNode vb (HeapNode c)) c (mkNode vc r')).
    split.
    { replace (S (length pre)) with (length pre + 1) by lia.
      rewrite lookup_app_r by lia.
      by replace (length pre + 1 - length pre) with 1 by lia. }
    rewrite Hp, Hdel, Hnth. split.
    { by rewrite (EraseAfter_node_run _ _ o b (mkNode vb (HeapNode c)) c (mkNode vc r')). }
    split; [by apply erase_mem_list_at|].
    unfold erase_mem. simpl. split.
    { rewrite lookup_insert_ne by done. apply lookup_delete_eq. }
    split.
    { intros a Ha. destruct (decide (a = b)) as [->|Hab].
      - rewrite lookup_insert_eq, Hb. done.
      - rewrite lookup_insert_ne by done. by rewrite lookup_delete_ne. }
    split.
    { unfold load_next, bind, load. simpl. by rewrite lookup_insert_eq. }
    unfold footprint. simpl. split_and!.
    + intros l' Hne. by rewrite lookup_insert_ne.
    + intros a Ha _. rewrite fmap_app in Ha. simpl in Ha.
      apply not_elem_of_app in Ha as [_ Ha].
      apply not_elem_of_cons in Ha as [Hab Ha].
      apply not_elem_of_cons in Ha as [Hac _].
      rewrite lookup_insert_ne by done. by rewrite lookup_delete_ne.
    + intros a Ha. left. rewrite fmap_app in *. simpl in *.
      apply elem_of_app in Ha as [Ha|Ha]; [apply elem_of_app; by left|].
      apply elem_of_app. right.
      apply elem_of_cons in Ha as [->|Ha]; [left|]. right. by right.
Qed.

Lemma EraseAfter_last m l cells :
  list_at m l cells →
  EraseAfter l (mkIterator (pos_ptr l cells (length cells))) m
    = Fault UndefinedBehaviour.
Proof.
  intros (o & Ho & Hch & Hsz & Hmax).
  destruct (pos_ptr_cases l cells (length cells)) as
    [[Hz Hp]|(pre & b & vb & post & Heq & Hlen & Hp)]; [lia|..].
  - destruct cells; [|done]. unfold chain in Hch. simpl in Hch. rewrite Hp.
    unfold EraseAfter, bind, load_next, bind, load. simpl. by rewrite Ho, Hch.
  - rewrite Hp. rewrite Heq in Hlen. rewrite length_app in Hlen. simpl in Hlen.
    destruct post; [|simpl in Hlen; lia]. subst cells.
    destruct (chain_split _ _ _ _ _ _ Hch) as (r & Hpre & Hb & Hpost & _).
    unfold chain in Hpost. simpl in Hpost. subst r.
    unfold EraseAfter, bind, load_next, bind, load. simpl. by rewrite Hb.
Qed.

Lemma footprint_frame m m' l cells cells' l' c' :
  footprint m m' l cells cells' →
  l' ≠ l → list_at m l' c' →
  (∀ a, a ∈ cells.*1 → a ∉ c'.*1) →
  list_at m' l' c' ∧ (∀ a, a ∈ cells'.*1 → a ∉ c'.*1).
Proof.
  intros (Hobj & Hheap & Hnew) Hne Hl Hdisj.
  pose proof Hl as (o' & _ & Hch' & _).
  assert (Hdom : ∀ a, a ∈ c'.*1 → is_Some (heap m !! a)).
  { intros a Ha. apply elem_of_dom. by eapply lseg_dom. }
  split.
  - eapply list_at_frame; [by apply Hobj| |exact Hl].
    intros a Ha. apply Hheap; [|by apply Hdom].
    intros Hin. by apply (Hdisj a).
  - intros a Ha Hin. destruct (Hnew a Ha) as [Hold|Hnone].
    + by apply (Hdisj a).
    + destruct (Hdom a Hin) as [n Hn]. congruence.
Qed.

Lemma mutate_cases m l cells mu fuel :
  list_at m l cells → valid_mutation l cells mu → length cells ≤ fuel →
  (∃ m' cells', mutate fuel l mu m = Ok tt m' ∧ list_at m' l cells' ∧
                footprint m m' l cells cells') ∨
  mutate fuel l mu m = Throw m ∨
  (∃ f, mutate fuel l mu m = Fault f).
Proof.
  intros Hl Hvalid Hfuel. destruct mu as [v| | |pos v|pos]; simpl in *.
  - destruct (decide (Z.of_nat (size (heap m)) < SIZE_MAX)%Z) as [Hcap|Hcap].
    + left. destruct (PushFront_spec m l cells v Hl Hcap) as (a & m' & _ & Hrun & Hl' & Hfp).
      by exists m', ((a, v) :: cells).
    + right. left. by apply PushFront_full.
  - destruct cells as [|c rest].
    + right. right. exists AssertionFailed. by apply PopFront_empty.
    + left. destruct (PopFront_spec m l c rest Hl) as (m' & Hrun & Hl' & _ & Hfp).
      by exists m', rest.
  - left. destruct (Clear_spec m l cells fuel Hl Hfuel) as (m' & Hrun & Hl' & _ & Hfp).
    by exists m', [].
  - destruct Hvalid as (i & Hi & Hp). destruct pos as [p]. simpl in Hp. subst p.
    destruct (decide (Z.of_nat (size (heap m)) < SIZE_MAX)%Z) as [Hcap|Hcap].
    + left. destruct (InsertAfter_spec m l cells i v Hl Hi Hcap)
        as (a & m' & _ & Hrun & Hl' & Hfp).
      exists m', (take i cells ++ (a, v) :: drop i cells).
      split; [|done]. unfold bind. by rewrite Hrun.
    + right. left. unfold bind. by rewrite InsertAfter_full.
  - destruct Hvalid as (i & Hi & Hp). destruct pos as [p]. simpl in Hp. subst p.
    destruct (decide (i = length cells)) as [->|Hlt].
    + right. right. exists UndefinedBehaviour. unfold bind.
      by rewrite (EraseAfter_last _ _ _ Hl).
    + left. destruct (EraseAfter_spec m l cells i Hl) as
        (c & m' & _ & Hrun & Hl' & _ & _ & _ & Hfp); [lia|].
      exists m', (delete i cells). split; [|done]. unfold bind. by rewrite Hrun.
Qed.

(** *** Allocation failure: the strong exception guarantee *)

Lemma finally_Throw {A} (body : M T A) (cleanup : M T unit) m m1 m2 :
  body m = Throw m1 → cleanup m1 = Ok tt m2 →
  finally body cleanup m = Throw m2.
Proof. unfold finally. by intros -> ->. Qed.

(** A loop that runs out of room stops at the first allocation that fails,
    leaving the nodes pushed so far in the destination list. *)
Lemma CopyList_loop_no_room {It} `{ForwardIterator T It} (R : mem T → Prop)
    dst (last : It) xs : ∀ (first : It) fuel m dcells,
  (∀ m1 m2, R m1 → (∀ a n, heap m1 !! a = Some n → heap m2 !! a = Some n) → R m2) →
  range R first last xs → R m →
  list_at m dst dcells →
  length xs ≤ fuel →
  (Z.of_nat (size (heap m)) ≤ SIZE_MAX)%Z →
  ¬ (Z.of_nat (size (heap m)) + Z.of_nat (length xs) ≤ SIZE_MAX)%Z →
  ∃ new m',
    CopyList_loop fuel dst first last m = Throw m' ∧
    list_at m' dst (new ++ dcells) ∧
    (∀ a, a ∈ new.*1 → heap m !! a = None) ∧
    (∀ a, a ∉ new.*1 → heap m' !! a = heap m !! a) ∧
    (∀ l, l ≠ dst → objs m' !! l = objs m !! l) ∧
    length new ≤ length xs.
Proof.
  induction xs as [|x rest IH]; intros first fuel m dcells Hst Hr HR Hl Hfuel Hok Hcap.
  - simpl in Hcap. lia.
  - simpl in Hr. destruct Hr as (Hne & Hd & first' & Hi & Hr).
    simpl in Hfuel, Hcap. destruct fuel as [|fuel]; [lia|].
    destruct (decide (Z.of_nat (size (heap m)) < SIZE_MAX)%Z) as [Hroom|Hfull].
    + destruct Hl as (o & Ho & Hch & Hsz & Hmax).
      set (a := fresh (dom (heap m))).
      assert (Hfa : heap m !! a = None) by apply not_elem_of_dom, is_fresh.
      assert (Hext : ∀ b n, heap m !! b = Some n →
                            heap (push_mem m dst o x) !! b = Some n).
      { intros b n Hb. unfold push_mem. simpl. rewrite lookup_insert_ne; [done|].
        intros Heq. fold a in Heq. congruence. }
      assert (HR1 : R (push_mem m dst o x)) by by eapply Hst.
      assert (Hsz1 : size (heap (push_mem m dst o x)) = S (size (heap m))).
      { unfold push_mem. simpl. by rewrite map_size_insert_None. }
      destruct (IH first' fuel (push_mem m dst o x) ((a, x) :: dcells))
        as (new & m' & Hrun & Hl' & Hfr & Hsame & Hobj & Hlen); try done.
      { by apply push_mem_list_at. }
      { lia. }
      { rewrite Hsz1. lia. }
      { rewrite Hsz1. lia. }
      exists (new ++ [(a, x)]), m'. split.
      { simpl. rewrite Hne. simpl. unfold bind.
        rewrite Hd by done. rewrite (PushFront_run _ _ o) by done.
        rewrite Hi by done. exact Hrun. }
      split; [by rewrite <- app_assoc|]. split.
      { intros b Hb. rewrite fmap_app in Hb. simpl in Hb.
        apply elem_of_app in Hb as [Hb|Hb].
        - specialize (Hfr b Hb). unfold push_mem in Hfr. simpl in Hfr.
          destruct (decide (b = a)) as [->|Hba]; [done|].
          fold a in Hfr. by rewrite lookup_insert_ne in Hfr.
        - apply list_elem_of_singleton in Hb. by subst b. }
      split.
      { intros b Hb. rewrite fmap_app in Hb. simpl in Hb.
        apply not_elem_of_app in Hb as [Hb1 Hb2].
        apply not_elem_of_cons in Hb2 as [Hb2 _].
        rewrite Hsame by done. unfold push_mem. simpl. fold a.
        by rewrite lookup_insert_ne. }
      split.
      { intros l Hne'. rewrite Hobj by done. unfold push_mem. simpl.
        by rewrite lookup_insert_ne. }
      rewrite length_app. simpl. lia.
    + exists [], m. split.
      { simpl. rewrite Hne. simpl. unfold bind.
        rewrite Hd by done. by rewrite PushFront_full. }
      split; [done|]. split.
      { intros b Hb. by apply elem_of_nil in Hb. }
      split; [done|]. split; [done|]. simpl. lia.
Qed.

Lemma free_all_restore (h h' : gmap positive (Node T)) (new : list (positive * T)) :
  (∀ a, a ∈ new.*1 → h !! a = None) →
  (∀ a, a ∉ new.*1 → h' !! a = h !! a) →
  free_all new.*1 h' = h.
Proof.
  intros Hfresh Hsame. apply map_eq. intros a. rewrite lookup_free_all.
  case_decide as Ha; [by rewrite Hfresh|by apply Hsame].
Qed.

(** [CopyList] without room for its two temporaries throws, and unwinding
    gives back the memory it started from. *)
Lemma CopyList_no_room {It} `{ForwardIterator T It} (R : mem T → Prop)
    this (first last : It) xs fuel m o :
  (∀ m1 m2, R m1 → (∀ a n, heap m1 !! a = Some n → heap m2 !! a = Some n) → R m2) →
  range R first last xs → R m →
  objs m !! this = Some o →
  length xs ≤ fuel →
  (Z.of_nat (size (heap m)) ≤ SIZE_MAX)%Z →
  ¬ (Z.of_nat (size (heap m)) + 2 * Z.of_nat (length xs) ≤ SIZE_MAX)%Z →
  CopyList fuel this first last m = Throw m.
Proof.
  intros Hst Hr HR Ho Hfuel Hok Hcap.
  set (D := mkList (mkNode (@default_value T ET) nullptr) 0).
  set (l1 := fresh (dom (objs m))).
  set (os1 := <[l1 := D]> (objs m)).
  set (l2 := fresh (dom os1)).
  set (m2 := mkMem (heap m) (<[l2 := D]> os1)).
  assert (H1this : l1 ≠ this) by by eapply fresh_obj_ne.
  assert (H21 : l2 ≠ l1).
  { eapply fresh_obj_ne. unfold os1. apply lookup_insert_eq. }
  assert (H1None : objs m !! l1 = None) by apply fresh_obj_None.
  assert (H2None : objs m !! l2 = None).
  { pose proof (fresh_obj_None os1) as Hn. fold l2 in Hn. unfold os1 in Hn.
    by rewrite lookup_insert_ne in Hn. }
  assert (HR2 : R m2) by (eapply Hst; [exact HR|done]).
  assert (Hl1 : list_at m2 l1 []).
  { eapply (list_at_empty _ _ D); [|done|done]. unfold m2. simpl.
    rewrite lookup_insert_ne by done. unfold os1. apply lookup_insert_eq. }
  assert (Hobjs : ∀ os : gmap positive (SingleLinkedList T),
            (∀ l, l ≠ l1 → l ≠ l2 → os !! l = objs m !! l) →
            delete l1 (delete l2 os) = objs m).
  { intros os Hos. apply map_eq. intros i.
    destruct (decide (i = l1)) as [->|Hi1]; [by rewrite lookup_delete_eq|].
    rewrite lookup_delete_ne by done.
    destruct (decide (i = l2)) as [->|Hi2]; [by rewrite lookup_delete_eq|].
    rewrite lookup_delete_ne by done. by apply Hos. }
  assert (Hm2 : ∀ l, l ≠ l1 → l ≠ l2 → objs m2 !! l = objs m !! l).
  { intros l Hn1 Hn2. unfold m2, os1. simpl. by rewrite !lookup_insert_ne. }
  unfold CopyList, with_local. unfold bind at 1. simpl.
  unfold bind at 1. simpl. fold l1 os1 l2 D m2.
  destruct (decide (Z.of_nat (size (heap m)) + Z.of_nat (length xs) ≤ SIZE_MAX)%Z)
    as [Hroom1|Hfull1].
  - (* the first loop completes, the second one fails *)
    destruct (CopyList_loop_run R l1 last xs first fuel m2 []) as
      (cA & m3 & HrunA & HR3 & HlA & HvA & HfrA & HsameA & HobjA & HsizeA); try done.
    rewrite app_nil_r in HlA.
    pose proof HlA as (oA & HoA & HchA & HszA & HmaxA).
    pose proof (chain_nth_ptr _ _ _ HchA) as HpA.
    destruct (CopyList_loop_no_room (λ m, chain (heap m) (nth_ptr cA 0) cA) l2
                (mkIterator nullptr) (reverse xs) (mkIterator (nth_ptr cA 0)) fuel m3 []) as
      (cB & m4 & HrunB & HlB & HfrB & HsameB & HobjB & HlenB).
    { intros ma mb Hch Hext. by eapply chain_stable. }
    { rewrite <- HvA. apply chain_range. }
    { by rewrite <- HpA. }
    { eapply (list_at_empty _ _ D); [|done|done]. rewrite HobjA by done.
      unfold m2. simpl. apply lookup_insert_eq. }
    { by rewrite length_reverse. }
    { rewrite HsizeA. unfold m2. simpl. lia. }
    { rewrite length_reverse, HsizeA. unfold m2. simpl. lia. }
    rewrite app_nil_r in HlB. rewrite length_reverse in HlenB.
    assert (HAB : ∀ a, a ∈ cB.*1 → a ∉ cA.*1).
    { intros a Ha HaA. specialize (HfrB a Ha).
      pose proof (lseg_dom _ _ _ _ _ HchA HaA) as Hd.
      apply elem_of_dom in Hd as [n Hn]. congruence. }
    assert (Hfinal : free_all cA.*1 (free_all cB.*1 (heap m4)) = heap m).
    { rewrite (free_all_restore (heap m3) (heap m4) cB HfrB HsameB).
      by apply free_all_restore. }
    erewrite finally_Throw; [reflexivity| |].
    + eapply finally_Throw.
      * erewrite bind_Ok by exact HrunA.
        unfold begin, end_. erewrite bind_Ok; cycle 1.
        { unfold bind, load_next, bind, load. by rewrite HoA. }
        erewrite bind_Ok by reflexivity. rewrite <- HpA in HrunB.
        by erewrite bind_Throw by exact HrunB.
      * apply (destroy_run l2 cB m4 fuel); [done|lia].
    + simpl. rewrite (destroy_run l1 cA _ fuel); cycle 1.
      * eapply list_at_frame; [| |exact HlA]; simpl.
        -- rewrite lookup_delete_ne by done. by apply HobjB.
        -- intros a Ha. rewrite lookup_free_all. rewrite decide_False.
           ++ apply HsameB. intros Hin. by apply (HAB a).
           ++ intros Hin. by apply (HAB a).
      * rewrite <- (length_fmap snd), HvA, length_reverse. done.
      * simpl. rewrite Hfinal. rewrite Hobjs; [by destruct m|].
        intros l Hn1 Hn2. rewrite HobjB, HobjA by done. by apply Hm2.
  - (* the first loop fails *)
    destruct (CopyList_loop_no_room R l1 last xs first fuel m2 []) as
      (cA & m3 & HrunA & HlA & HfrA & HsameA & HobjA & HlenA); try done.
    rewrite app_nil_r in HlA.
    erewrite finally_Throw; [reflexivity| |].
    + eapply finally_Throw.
      * by erewrite bind_Throw by exact HrunA.
      * apply (destroy_run l2 [] m3 fuel); [|simpl; lia].
        eapply (list_at_empty _ _ D); [|done|done]. rewrite HobjA by done.
        unfold m2. simpl. apply lookup_insert_eq.
    + simpl. rewrite (destroy_run l1 cA _ fuel); cycle 1.
      * eapply list_at_frame; [| |exact HlA]; simpl; [|done].
        by rewrite lookup_delete_ne.
      * lia.
      * simpl. rewrite (free_all_restore (heap m) (heap m3) cA HfrA HsameA).
        rewrite Hobjs; [by destruct m|].
        intros l Hn1 Hn2. rewrite HobjA by done. by apply Hm2.
Qed.

Lemma construct_Throw (body : positive → M T unit) m :
  body (fresh (dom (objs m)))
       (mkMem (heap m)
          (<[fresh (dom (objs m)) := mkList (mkNode default_value nullptr) 0]> (objs m)))
  = Throw (mkMem (heap m)
          (<[fresh (dom (objs m)) := mkList (mkNode default_value nullptr) 0]> (objs m))) →
  construct body m = Throw m.
Proof.
  intros Hb. unfold construct, alloc_obj. simpl. rewrite Hb. simpl.
  rewrite delete_insert_id by apply fresh_obj_None. by destruct m.
Qed.

(** The constructors and the assignment without room: [std::bad_alloc]
    propagates and memory is as before. *)
Lemma new_from_no_room (S : list T) fuel m :
  length S ≤ fuel →
  (Z.of_nat (size (heap m)) ≤ SIZE_MAX)%Z →
  ¬ (Z.of_nat (size (heap m)) + 2 * Z.of_nat (length S) ≤ SIZE_MAX)%Z →
  new_from fuel S m = Throw m.
Proof.
  intros Hfuel Hok Hcap. unfold new_from. apply construct_Throw.
  unfold ctor_init.
  eapply (CopyList_no_room (λ _, True) _ _ _ S); try done.
  - pose proof (array_range S 0) as Hr. rewrite drop_0 in Hr. apply Hr. lia.
  - simpl. apply lookup_insert_eq.
Qed.

Lemma new_copy_no_room other ocells fuel m :
  list_at m other ocells →
  length ocells ≤ fuel →
  (Z.of_nat (size (heap m)) ≤ SIZE_MAX)%Z →
  ¬ (Z.of_nat (size (heap m)) + 2 * Z.of_nat (length ocells) ≤ SIZE_MAX)%Z →
  new_copy fuel other m = Throw m.
Proof.
  intros (oo & Hoo & Hcho & Hszo & Hmaxo) Hfuel Hok Hcap.
  assert (Hlo : fresh (dom (objs m)) ≠ other) by by eapply fresh_obj_ne.
  pose proof (chain_nth_ptr _ _ _ Hcho) as Hp.
  unfold new_copy. apply construct_Throw. unfold ctor_copy.
  unfold bind, load_size, load_next, bind, load, begin, end_, load_next, bind, load.
  crunch ltac:(rewrite ?lookup_insert_eq,
               ?(lookup_insert_ne _ (fresh (dom (objs m))) other), ?Hoo by done).
  rewrite Hp.
  eapply (CopyList_no_room (λ m, chain (heap m) (nth_ptr ocells 0) ocells)
            _ _ _ ocells.*2); try done.
  - intros ma mb Hch Hext. by eapply chain_stable.
  - apply chain_range.
  - simpl. by rewrite <- Hp.
  - simpl. apply lookup_insert_eq.
  - by rewrite length_fmap.
  - by rewrite length_fmap.
Qed.

Lemma assign_no_room this rhs rcells fuel m :
  list_at m rhs rcells →
  length rcells ≤ fuel →
  (Z.of_nat (size (heap m)) ≤ SIZE_MAX)%Z →
  ¬ (Z.of_nat (size (heap m)) + 2 * Z.of_nat (length rcells) ≤ SIZE_MAX)%Z →
  this ≠ rhs →
  assign fuel this rhs m = Throw m.
Proof.
  intros Hr Hfuel Hok Hcap Hne. unfold assign.
  rewrite bool_decide_eq_true_2 by done.
  apply bind_Throw. unfold with_local. apply bind_Throw.
  by apply (new_copy_no_room rhs rcells).
Qed.

(** *** Observers *)

Lemma GetSize_run m l cells :
  list_at m l cells → GetSize l m = Ok (Z.of_nat (length cells)) m.
Proof.
  intros (o & Ho & _ & Hsz & _). unfold GetSize, load_size. by rewrite Ho, Hsz.
Qed.

Lemma IsEmpty_run m l cells :
  list_at m l cells → IsEmpty l m = Ok (bool_decide (cells = [])) m.
Proof.
  intros (o & Ho & _ & Hsz & _). unfold IsEmpty, bind, load_size.
  rewrite Ho, Hsz. unfold ret. do 2 f_equal.
  destruct cells; simpl; done.
Qed.

Lemma begin_run m l cells :
  list_at m l cells → begin l m = Ok (mkIterator (nth_ptr cells 0)) m.
Proof.
  intros (o & Ho & Hch & _). unfold begin, bind, load_next, bind, load.
  rewrite Ho. simpl. by rewrite (chain_nth_ptr _ _ _ Hch).
Qed.

Lemma list_at_range m l cells :
  list_at m l cells →
  range (λ m', m' = m) (mkIterator (nth_ptr cells 0)) (mkIterator nullptr) cells.*2.
Proof.
  intros (o & Ho & Hch & _). eapply range_mono; [|apply chain_range].
  intros m' ->. simpl. by rewrite <- (chain_nth_ptr _ _ _ Hch).
Qed.

Lemma to_list_run m l cells fuel :
  list_at m l cells → length cells ≤ fuel →
  to_list fuel l m = Ok cells.*2 m.
Proof.
  intros Hl Hfuel. unfold to_list.
  rewrite (bind_Ok _ _ _ _ _ (begin_run _ _ _ Hl)).
  unfold end_. erewrite bind_Ok by reflexivity.
  eapply traverse_run; [by apply (list_at_range m l)|done|by rewrite length_fmap].
Qed.

Lemma iter_advance_run m l cells i :
  list_at m l cells → i ≤ length cells →
  iter_advance i (mkIterator (HeadOf l)) m = Ok (mkIterator (pos_ptr l cells i)) m.
Proof.
  intros Hl. pose proof Hl as (o & Ho & Hch & _).
  assert (Hgen : ∀ k j, j + k ≤ length cells →
            iter_advance k (mkIterator (pos_ptr l cells j)) m
            = Ok (mkIterator (pos_ptr l cells (j + k))) m).
  { induction k as [|k IH]; intros j Hj.
    - simpl. by rewrite Nat.add_0_r.
    - simpl. unfold bind at 1.
      assert (iter_incr (mkIterator (pos_ptr l cells j)) m
              = Ok (mkIterator (pos_ptr l cells (S j))) m) as ->.
      { destruct (pos_ptr_cases l cells j) as
          [[-> Hp]|(pre & b & vb & post & Heq & -> & Hp)]; [lia|..].
        - rewrite Hp. unfold iter_incr, bind, assert, load_next, bind, load. simpl.
          rewrite Ho. simpl. by rewrite (chain_nth_ptr _ _ _ Hch).
        - rewrite Hp. subst cells.
          destruct (chain_split _ _ _ _ _ _ Hch) as (r & _ & Hb & Hpost & _).
          unfold iter_incr, bind, assert, load_next, bind, load. simpl.
          rewrite Hb. simpl. rewrite (chain_nth_ptr _ _ _ Hpost).
          change (pos_ptr l (pre ++ (b, vb) :: post) (S (S (length pre))))
            with (nth_ptr (pre ++ (b, vb) :: post) (S (length pre))).
          rewrite (cons_middle (b, vb)), app_assoc.
          replace (S (length pre)) with (length (pre ++ [(b, vb)]) + 0)
            by (rewrite length_app; simpl; lia).
          rewrite lookup_app_r by lia.
          by rewrite Nat.add_0_r, Nat.sub_diag. }
      rewrite IH by lia. by replace (S j + k) with (j + S k) by lia. }
  intros Hi. by apply (Hgen i 0).
Qed.

(** *** The comparison loops on sequences *)

Lemma equal_loop_spec (xs ys : list T) :
  equal_loop xs ys = true ↔ seq_equal xs ys.
Proof.
  unfold seq_equal. revert ys. induction xs as [|x xs IH]; intros [|y ys]; simpl.
  - split; [|done]. intros _. split; [done|]. intros i ? ? Hx. done.
  - split; [done|]. intros [? _]. done.
  - split; [done|]. intros [? _]. done.
  - destruct (eqT x y) eqn:Hxy; simpl.
    + rewrite IH. split.
      * intros [Hlen Hall]. split; [by f_equal|].
        intros [|i] x' y'; simpl; [by intros [= <-] [= <-]|]. apply Hall.
      * intros [Hlen Hall]. split; [by injection Hlen|].
        intros i x' y' Hx Hy. by apply (Hall (S i)).
    + split; [done|]. intros [_ Hall].
      specialize (Hall 0 x y eq_refl eq_refl). congruence.
Qed.

Lemma lex_loop_spec (xs ys : list T) :
  lex_loop xs ys = true ↔ seq_less xs ys.
Proof.
  unfold seq_less. revert ys. induction xs as [|x xs IH]; intros [|y ys]; simpl.
  - split; [done|]. intros (k & _ & _ & _ & [[_ ?]|(? & ? & Hx & _)]); [lia|done].
  - split; [|done]. intros _. exists 0.
    split_and!; [intros; lia|lia|lia|left; lia].
  - split; [done|].
    intros (k & _ & _ & Hk & [[_ ?]|(? & ? & _ & Hy & _)]); [lia|done].
  - destruct (ltT x y) eqn:Hxy.
    { split; [|done]. intros _. exists 0.
      split_and!; [intros; lia|lia|lia|right; by exists x, y]. }
    destruct (ltT y x) eqn:Hyx.
    { split; [done|]. intros (k & Hpre & _ & _ & Hk).
      destruct k as [|k].
      - destruct Hk as [[? _]|(x' & y' & [= <-] & [= <-] & ?)]; [done|congruence].
      - destruct (Hpre 0 x y) as [_ ?]; [lia|done|done|congruence]. }
    rewrite IH. split.
    + intros (k & Hpre & Hk1 & Hk2 & Hk). exists (S k).
      split_and!; [|lia|lia|].
      * intros [|i] x' y' Hi; simpl; [by intros [= <-] [= <-]|].
        apply Hpre. lia.
      * destruct Hk as [[-> ?]|Hk]; [left; lia|by right].
    + intros (k & Hpre & Hk1 & Hk2 & Hk). destruct k as [|k].
      * destruct Hk as [[? _]|(x' & y' & [= <-] & [= <-] & ?)]; [done|congruence].
      * exists k. split_and!; [|lia|lia|].
        -- intros i x' y' Hi Hx Hy. apply (Hpre (S i)); [lia|done|done].
        -- destruct Hk as [[? ?]|Hk]; [left; lia|by right].
Qed.

Lemma lex_loop_prefix (xs zs : list T) (y : T) :
  lex_loop xs (xs ++ y :: zs) = true.
Proof.
  induction xs as [|x xs IH]; simpl; [done|].
  destruct (ltT x x); [done|]. exact IH.
Qed.

Lemma lex_loop_prefix_irrefl (xs zs : list T) (y : T) :
  (∀ x, x ∈ xs → ltT x x = false) →
  lex_loop (xs ++ y :: zs) xs = false.
Proof.
  induction xs as [|x xs IH]; intros Hirr; simpl; [done|].
  rewrite Hirr by left. apply IH. intros x' Hx'. apply Hirr. by right.
Qed.

(** *** The executable reading of a chain is sound *)

Lemma walk_sound fuel : ∀ h p cells,
  walk fuel h p = Some cells → chain h p cells.
Proof.
  induction fuel as [|fuel IH]; intros h p cells; destruct p as [| |a]; simpl;
    try done; try (by intros [= <-]).
  destruct (h !! a) as [[v q]|] eqn:Ha; [|done]. simpl.
  destruct (walk fuel h q) as [rest|] eqn:Hw; [|done].
  intros [= <-]. unfold chain. simpl. split; [done|].
  exists q. split; [done|]. by apply IH.
Qed.

Lemma walk_complete h p cells :
  chain h p cells → walk (length cells) h p = Some cells.
Proof.
  unfold chain. revert p. induction cells as [|[a v] rest IH]; intros p; simpl.
  - by intros ->.
  - intros [-> (r & Ha & Hr)]. simpl in Ha. rewrite Ha. simpl.
    by rewrite (IH r Hr).
Qed.

Lemma cells_of_complete m l cells :
  list_at m l cells → cells_of (length cells) m l = Some cells.
Proof.
  intros (o & Ho & Hch & Hsz & Hmax). unfold cells_of.
  rewrite Ho, (walk_complete _ _ _ Hch).
  by rewrite !bool_decide_eq_true_2.
Qed.

Lemma cells_of_sound fuel m l cells :
  cells_of fuel m l = Some cells → list_at m l cells.
Proof.
  unfold cells_of. destruct (objs m !! l) as [o|] eqn:Ho; [|done].
  destruct (walk fuel (heap m) (next_node (head_ o))) as [c|] eqn:Hw; [|done].
  destruct (bool_decide (size_ o = Z.of_nat (length c))) eqn:Hs; [|done].
  destruct (bool_decide (size_ o ≤ SIZE_MAX)%Z) eqn:Hm; [|done].
  simpl. intros [= <-].
  apply bool_decide_eq_true_1 in Hs. apply bool_decide_eq_true_1 in Hm.
  eapply list_at_intro; try done. by eapply walk_sound.
Qed.

(** ** The properties of the specification *)

(** C1.  Constructing a list from a finite sequence [S] with the
    initializer-list constructor (two reversing passes through temporaries,
    then [swap]) returns a list whose front-to-back traversal reads exactly
    [S] and whose size is the length of [S], whenever the free store has
    room for the two temporaries. *)
Theorem construct_from_sequence (S : list T) (fuel : nat) (m : mem T) :
  length S ≤ fuel →
  room m (2 * length S) →
  ∃ l m',
    new_from fuel S m = Ok l m' ∧
    to_list fuel l m' = Ok S m' ∧
    GetSize l m' = Ok (Z.of_nat (length S)) m' ∧
    repr m' l S.
Proof.
  intros Hfuel Hcap.
  destruct (new_from_run S fuel m Hfuel)
    as (cells & m' & Hrun & Hv & Hl & _); [unfold room in Hcap; lia|].
  assert (Hlen : length cells = length S).
  { rewrite <- Hv. by rewrite length_fmap. }
  exists (fresh (dom (objs m))), m'. split; [done|]. split.
  { rewrite <- Hv. apply to_list_run; [done|lia]. }
  split.
  { rewrite <- Hlen. by apply GetSize_run. }
  by exists cells.
Qed.

(** C9.  On a well-formed list with room for one more node, [PushFront(v)]
    followed by [PopFront()] gives back the memory it started from, hence
    the original size and element sequence; in between, the first element
    is [v]. *)
Theorem push_front_pop_front (m : mem T) (l : positive) (xs : list T) (v : T) :
  repr m l xs →
  room m 1 →
  ∃ m1,
    PushFront l v m = Ok tt m1 ∧
    (it <- begin l ;; iter_deref it) m1 = Ok v m1 ∧
    repr m1 l (v :: xs) ∧
    PopFront l m1 = Ok tt m ∧
    (s <- (PushFront l v ;; PopFront l ;; GetSize l) ;; ret s) m
      = Ok (Z.of_nat (length xs)) m.
Proof.
  intros (cells & Hl & Hxs) Hroom. pose proof Hl as (o & Ho & Hch & Hsz & Hmax).
  assert (Hcap : (Z.of_nat (size (heap m)) < SIZE_MAX)%Z) by (unfold room in Hroom; lia).
  pose proof (chain_length_le _ _ _ Hch) as Hle.
  set (a := fresh (dom (heap m))).
  assert (Hfa : heap m !! a = None) by apply not_elem_of_dom, is_fresh.
  assert (Hpop : PopFront l (push_mem m l o v) = Ok tt m).
  { erewrite PopFront_run; cycle 1.
    - unfold push_mem. simpl. apply lookup_insert_eq.
    - simpl. rewrite size_incr_small; lia.
    - simpl. reflexivity.
    - unfold push_mem. simpl. apply lookup_insert_eq.
    - unfold pop_mem, push_mem. simpl. fold a.
      rewrite delete_insert_id by done. rewrite insert_insert_eq.
      rewrite size_incr_small by lia.
      rewrite size_decr_pos by lia.
      replace (size_ o + 1 - 1)%Z with (size_ o) by lia.
      destruct o as [[vo no] so]. simpl. rewrite insert_id by done.
      by destruct m. }
  exists (push_mem m l o v). split; [by apply PushFront_run|]. split.
  { unfold bind, begin, bind, load_next, bind, load, iter_deref, load_value, bind, load.
    unfold push_mem. simpl. rewrite lookup_insert_eq. simpl.
    by rewrite lookup_insert_eq. }
  split.
  { exists ((a, v) :: cells). split; [by apply push_mem_list_at|].
    by rewrite <- Hxs. }
  split; [done|].
  unfold bind. rewrite (PushFront_run _ _ o) by done. rewrite Hpop.
  rewrite (GetSize_run _ _ cells) by done.
  rewrite <- Hxs. by rewrite length_fmap.
Qed.

(** C10.  Copy-assigning a list to itself is a no-op: the guard
    [this != &rhs] skips the copy, memory is untouched (so are the element
    sequence and the size) and [*this] is returned. *)
Theorem self_assignment_noop (fuel : nat) (l : positive) (m : mem T) :
  assign fuel l l m = Ok l m.
Proof. apply assign_self. Qed.

(** C4.  [InsertAfter(before_begin(), v)] and [PushFront(v)] have the same
    effect on every memory (same resulting memory, hence element sequence
    and size, and the same failure if any); on a well-formed list with room
    the returned iterator refers to the new node, which is the new first
    element and holds [v]. *)
Theorem insert_after_before_begin_is_push_front (m : mem T) (l : positive) (v : T) :
  (pos <- before_begin l ;; InsertAfter l pos v ;; ret tt) m = PushFront l v m ∧
  ∀ xs, repr m l xs →
    room m 1 →
    ∃ it m',
      (pos <- before_begin l ;; InsertAfter l pos v) m = Ok it m' ∧
      PushFront l v m = Ok tt m' ∧
      repr m' l (v :: xs) ∧
      GetSize l m' = Ok (Z.of_nat (length xs) + 1)%Z m' ∧
      begin l m' = Ok it m' ∧
      iter_deref it m' = Ok v m'.
Proof.
  split.
  - unfold before_begin. unfold bind at 1. simpl.
    destruct (decide (Z.of_nat (size (heap m)) < SIZE_MAX)%Z) as [Hcap|Hcap].
    + destruct (objs m !! l) as [o|] eqn:Ho.
      * unfold bind. rewrite (InsertAfter_head_run _ _ o) by done.
        by rewrite (PushFront_run _ _ o).
      * unfold InsertAfter, PushFront, bind, new_Node, load_next, bind, load. simpl.
        rewrite bool_decide_eq_true_2 by done. by rewrite Ho.
    + unfold bind. by rewrite InsertAfter_full, PushFront_full.
  - intros xs (cells & Hl & Hxs) Hroom.
    assert (Hcap : (Z.of_nat (size (heap m)) < SIZE_MAX)%Z)
      by (unfold room in Hroom; lia).
    pose proof Hl as (o & Ho & Hch & Hsz & Hmax).
    exists (mkIterator (HeapNode (fresh (dom (heap m))))), (push_mem m l o v).
    assert (Hl' : list_at (push_mem m l o v) l ((fresh (dom (heap m)), v) :: cells))
      by by apply push_mem_list_at.
    split.
    { unfold before_begin. unfold bind at 1. simpl. by apply InsertAfter_head_run. }
    split; [by apply PushFront_run|]. split.
    { eexists. split; [exact Hl'|]. by rewrite <- Hxs. }
    split.
    { rewrite (GetSize_run _ _ _ Hl'). rewrite <- Hxs. rewrite length_fmap. simpl.
      f_equal. lia. }
    split.
    { by rewrite (begin_run _ _ _ Hl'). }
    unfold iter_deref, load_value, bind, load, push_mem. simpl.
    by rewrite lookup_insert_eq.
Qed.

(** C8.  [swap] exchanges the two lists' head links and size counts and
    touches nothing else: no node of the free store is read or written and
    no other list object changes.  Afterwards each list owns the other's
    former nodes (so sequences and sizes are exchanged), and two lists that
    shared no node still share none.  The free function [swap] has the same
    effect. *)
Theorem swap_exchanges (m : mem T) (l1 l2 : positive)
    (c1 c2 : list (positive * T)) :
  list_at m l1 c1 → list_at m l2 c2 →
  ∃ m',
    swap l1 l2 m = Ok tt m' ∧
    free_swap l1 l2 m = Ok tt m' ∧
    heap m' = heap m ∧
    (∀ l, l ≠ l1 → l ≠ l2 → objs m' !! l = objs m !! l) ∧
    (next_node ∘ head_ <$> objs m' !! l1 = next_node ∘ head_ <$> objs m !! l2) ∧
    (next_node ∘ head_ <$> objs m' !! l2 = next_node ∘ head_ <$> objs m !! l1) ∧
    (size_ <$> objs m' !! l1 = size_ <$> objs m !! l2) ∧
    (size_ <$> objs m' !! l2 = size_ <$> objs m !! l1) ∧
    (value ∘ head_ <$> objs m' !! l1 = value ∘ head_ <$> objs m !! l1) ∧
    (value ∘ head_ <$> objs m' !! l2 = value ∘ head_ <$> objs m !! l2) ∧
    list_at m' l1 c2 ∧ list_at m' l2 c1 ∧
    GetSize l1 m' = Ok (Z.of_nat (length c2)) m' ∧
    GetSize l2 m' = Ok (Z.of_nat (length c1)) m' ∧
    (separate m l1 l2 → separate m' l1 l2).
Proof.
  intros H1 H2. pose proof H1 as (o1 & Ho1 & _). pose proof H2 as (o2 & Ho2 & _).
  destruct (swap_mem_list_at m l1 o1 l2 o2 c1 c2 Ho1 Ho2 H1 H2) as [Hs1 Hs2].
  exists (swap_mem m l1 o1 l2 o2). split; [by apply swap_run|]. split.
  { unfold free_swap. rewrite (swap_run _ _ o2 _ o1) by done.
    f_equal. unfold swap_mem.
    destruct (decide (l1 = l2)) as [->|Hne].
    - rewrite Ho1 in Ho2. by injection Ho2 as ->.
    - by rewrite insert_insert_ne. }
  split; [done|]. split.
  { intros l Hn1 Hn2. unfold swap_mem. simpl. by rewrite !lookup_insert_ne. }
  assert (Hobj1 : objs (swap_mem m l1 o1 l2 o2) !! l1
            = Some (mkList (mkNode (value (head_ o1)) (next_node (head_ o2))) (size_ o2))).
  { unfold swap_mem. simpl. apply lookup_insert_eq. }
  assert (Hobj2 : objs (swap_mem m l1 o1 l2 o2) !! l2
            = Some (mkList (mkNode (value (head_ o2)) (next_node (head_ o1))) (size_ o1))).
  { unfold swap_mem. simpl. destruct (decide (l1 = l2)) as [->|Hne].
    - rewrite lookup_insert_eq. rewrite Ho1 in Ho2. by injection Ho2 as ->.
    - rewrite lookup_insert_ne by done. apply lookup_insert_eq. }
  rewrite Hobj1, Hobj2, Ho1, Ho2. simpl.
  split; [done|]. split; [done|]. split; [done|]. split; [done|].
  split; [done|]. split; [done|]. split; [done|]. split; [done|].
  split; [by apply GetSize_run|]. split; [by apply GetSize_run|].
  intros (Hne & d1 & d2 & Hd1 & Hd2 & Hdisj). split; [done|].
  rewrite (list_at_functional _ _ _ _ Hd1 H1) in *.
  rewrite (list_at_functional _ _ _ _ Hd2 H2) in *.
  exists c2, c1. split; [done|]. split; [done|].
  intros a Ha Ha'. by apply (Hdisj a).
Qed.

Lemma nth_ptr_end cells : nth_ptr cells (length cells) = nullptr.
Proof. unfold nth_ptr. by rewrite lookup_ge_None_2. Qed.

Lemma delete_last_take {A} (xs : list A) i :
  S i = length xs → delete i xs = take i xs.
Proof.
  revert i. induction xs as [|x xs IH]; intros i Hi; [done|].
  destruct i as [|i]; simpl in *.
  - destruct xs; [done|simpl in Hi; lia].
  - f_equal. apply IH. lia.
Qed.

Lemma fmap_delete_list {A B} (f : A → B) (xs : list A) i :
  f <$> delete i xs = delete i (f <$> xs).
Proof.
  revert i. induction xs as [|x xs IH]; intros [|i]; simpl; try done.
  f_equal. apply IH.
Qed.

(** C5.  For a position of the list (reached from [before_begin()] by [i]
    increments) whose node has a successor, [EraseAfter] releases exactly
    that successor node (every other node stays, with its value), relinks
    the position's node to what followed, decrements the size, and returns
    an iterator to the node now immediately after the position.  When the
    position precedes the last element, exactly the last element goes and
    the returned iterator equals [end()]. *)
Theorem erase_after_removes_successor (m : mem T) (l : positive)
    (cells : list (positive * T)) (i : nat) :
  list_at m l cells → i < length cells →
  ∃ c m',
    cells !! i = Some c ∧
    (pos0 <- before_begin l ;; iter_advance i pos0) m
      = Ok (mkIterator (pos_ptr l cells i)) m ∧
    EraseAfter l (mkIterator (pos_ptr l cells i)) m
      = Ok (mkIterator (nth_ptr cells (S i))) m' ∧
    heap m' !! c.1 = None ∧
    (∀ a, a ≠ c.1 → value <$> heap m' !! a = value <$> heap m !! a) ∧
    list_at m' l (delete i cells) ∧
    repr m' l (delete i cells.*2) ∧
    GetSize l m' = Ok (Z.of_nat (length cells) - 1)%Z m' ∧
    load_next (pos_ptr l cells i) m' = Ok (nth_ptr cells (S i)) m' ∧
    (S i = length cells →
       delete i cells.*2 = take i cells.*2 ∧
       (r <- EraseAfter l (mkIterator (pos_ptr l cells i)) ;;
        e <- end_ l ;; ret (iter_eqb r e)) m = Ok true m').
Proof.
  intros Hl Hi.
  destruct (EraseAfter_spec m l cells i Hl Hi)
    as (c & m' & Hc & Hrun & Hl' & Hgone & Hkeep & Hnext & _).
  exists c, m'. split; [done|]. split.
  { unfold before_begin. unfold bind at 1. simpl.
    apply iter_advance_run; [done|lia]. }
  split; [done|]. split; [done|]. split; [done|]. split; [done|]. split.
  { exists (delete i cells). split; [done|]. apply fmap_delete_list. }
  split.
  { rewrite (GetSize_run _ _ _ Hl'). f_equal.
    rewrite length_delete by by eexists. lia. }
  split; [done|]. intros Hlast. split.
  { apply delete_last_take. by rewrite length_fmap. }
  unfold bind. rewrite Hrun. simpl. unfold ret. f_equal.
  rewrite Hlast, nth_ptr_end. done.
Qed.

Lemma op_eq_run m lhs rhs c1 c2 fuel :
  list_at m lhs c1 → list_at m rhs c2 → length c1 ≤ fuel →
  op_eq fuel lhs rhs m = Ok (equal_loop c1.*2 c2.*2) m.
Proof.
  intros Hl1 Hl2 Hfuel. unfold op_eq, end_.
  rewrite (bind_Ok _ _ _ _ _ (begin_run _ _ _ Hl1)).
  erewrite bind_Ok by reflexivity.
  rewrite (bind_Ok _ _ _ _ _ (begin_run _ _ _ Hl2)).
  erewrite bind_Ok by reflexivity.
  eapply (std_equal_run (λ m', m' = m));
    [by apply (list_at_range m lhs)|by apply (list_at_range m rhs)|done|].
  by rewrite length_fmap.
Qed.

(** C6.  On two well-formed lists [operator==] returns true exactly when
    the element sequences have the same length and are elementwise equal
    (by the element type's [==]) in order; [operator!=] returns the
    negation. *)
Theorem equality_operators (m : mem T) (lhs rhs : positive) (xs ys : list T)
    (fuel : nat) :
  repr m lhs xs → repr m rhs ys → length xs ≤ fuel →
  ∃ b,
    op_eq fuel lhs rhs m = Ok b m ∧
    (b = true ↔ seq_equal xs ys) ∧
    op_ne fuel lhs rhs m = Ok (negb b) m.
Proof.
  intros (c1 & Hl1 & <-) (c2 & Hl2 & <-) Hfuel.
  rewrite length_fmap in Hfuel.
  pose proof (op_eq_run m lhs rhs c1 c2 fuel Hl1 Hl2 Hfuel) as Hrun.
  exists (equal_loop c1.*2 c2.*2). split; [done|]. split.
  { apply equal_loop_spec. }
  unfold op_ne, bind. by rewrite Hrun.
Qed.

Lemma op_lt_run m lhs rhs c1 c2 fuel :
  list_at m lhs c1 → list_at m rhs c2 → length c1 ≤ fuel →
  op_lt fuel lhs rhs m = Ok (lex_loop c1.*2 c2.*2) m.
Proof.
  intros Hl1 Hl2 Hfuel. unfold op_lt, end_.
  rewrite (bind_Ok _ _ _ _ _ (begin_run _ _ _ Hl1)).
  erewrite bind_Ok by reflexivity.
  rewrite (bind_Ok _ _ _ _ _ (begin_run _ _ _ Hl2)).
  erewrite bind_Ok by reflexivity.
  eapply (std_lexicographical_compare_run (λ m', m' = m));
    [by apply (list_at_range m lhs)|by apply (list_at_range m rhs)|done|].
  by rewrite length_fmap.
Qed.

(** C7.  On two well-formed lists [operator<] is the lexicographic
    comparison of the element sequences (elementwise by the element type's
    [<], a strict prefix being less than the longer sequence); [>], [<=]
    and [>=] are [rhs < lhs], [!(rhs < lhs)] and [!(lhs < rhs)].  A list
    holding a proper prefix of another list's sequence is less than it. *)
Theorem ordering_operators (m : mem T) (lhs rhs : positive) (xs ys : list T)
    (fuel : nat) :
  repr m lhs xs → repr m rhs ys → length xs ≤ fuel → length ys ≤ fuel →
  ∃ lt gt : bool,
    op_lt fuel lhs rhs m = Ok lt m ∧ (lt = true ↔ seq_less xs ys) ∧
    op_lt fuel rhs lhs m = Ok gt m ∧ (gt = true ↔ seq_less ys xs) ∧
    op_gt fuel lhs rhs m = Ok gt m ∧
    op_le fuel lhs rhs m = Ok (negb gt) m ∧
    op_ge fuel lhs rhs m = Ok (negb lt) m ∧
    (∀ y zs, ys = xs ++ y :: zs →
       lt = true ∧ ((∀ x, x ∈ xs → ltT x x = false) → gt = false)).
Proof.
  intros (c1 & Hl1 & <-) (c2 & Hl2 & <-) Hf1 Hf2.
  pose proof (op_lt_run m lhs rhs c1 c2 fuel Hl1 Hl2) as Hlt.
  pose proof (op_lt_run m rhs lhs c2 c1 fuel Hl2 Hl1) as Hgt.
  rewrite length_fmap in Hf1, Hf2.
  exists (lex_loop c1.*2 c2.*2), (lex_loop c2.*2 c1.*2).
  split; [by apply Hlt|]. split; [apply lex_loop_spec|].
  split; [by apply Hgt|]. split; [apply lex_loop_spec|].
  split; [by apply Hgt|]. split.
  { unfold op_le, bind. by rewrite Hgt. }
  split.
  { unfold op_ge, bind. by rewrite Hlt. }
  intros y zs ->. split; [apply lex_loop_prefix|].
  apply lex_loop_prefix_irrefl.
Qed.

Lemma separate_sym m l1 l2 : separate m l1 l2 → separate m l2 l1.
Proof.
  intros (Hne & c1 & c2 & H1 & H2 & Hdisj). split; [done|].
  exists c2, c1. split; [done|]. split; [done|].
  intros a Ha Ha'. by apply (Hdisj a).
Qed.

Lemma new_default_run m :
  new_default m =
    Ok (fresh (dom (objs m)))
       (mkMem (heap m)
          (<[fresh (dom (objs m)) := mkList (mkNode default_value nullptr) 0]> (objs m))).
Proof. done. Qed.

Lemma list_at_keep m m' l cells (new : list (positive * T)) :
  list_at m l cells →
  objs m' !! l = objs m !! l →
  (∀ a, a ∈ new.*1 → heap m !! a = None) →
  (∀ a, a ∉ new.*1 → heap m' !! a = heap m !! a) →
  list_at m' l cells ∧ ∀ a, a ∈ cells.*1 → a ∉ new.*1.
Proof.
  intros Hl Hobj Hfresh Hsame. pose proof Hl as (o & _ & Hch & _).
  assert (Hdisj : ∀ a, a ∈ cells.*1 → a ∉ new.*1).
  { intros a Ha Hin. pose proof (lseg_dom _ _ _ _ _ Hch Ha) as Hd.
    apply elem_of_dom in Hd as [n Hn]. rewrite Hfresh in Hn; done. }
  split; [|done]. eapply list_at_frame; [done| |exact Hl].
  intros a Ha. apply Hsame. by apply Hdisj.
Qed.

(** C2.  Starting from a list object that satisfies the structural
    invariant ([size_] equals the number of nodes reachable from the
    sentinel and the last node's link is null), every public operation
    leaves the lists it involves in the invariant: the constructors (for the
    new list and the existing one), copy assignment, [PushFront],
    [InsertAfter] at a position of the list, [PopFront] on a non-empty list,
    [EraseAfter] at a position with a successor, [Clear] and [swap].  An
    operation that allocates and finds no room throws and leaves memory, so
    every list, as it was. *)
Theorem invariant_preserved (m : mem T) (l : positive)
    (cells : list (positive * T)) (fuel : nat) :
  list_at m l cells → length cells ≤ fuel → heap_ok m →
  (* SingleLinkedList() *)
  (∃ l' m', new_default m = Ok l' m' ∧ Inv m' l' ∧ Inv m' l) ∧
  (* SingleLinkedList(std::initializer_list<Type>) *)
  (∀ S, length S ≤ fuel →
     (room m (2 * length S) →
        ∃ l' m', new_from fuel S m = Ok l' m' ∧ Inv m' l' ∧ Inv m' l) ∧
     (¬ room m (2 * length S) → new_from fuel S m = Throw m)) ∧
  (* SingleLinkedList(const SingleLinkedList&) *)
  ((room m (2 * length cells) →
      ∃ l' m', new_copy fuel l m = Ok l' m' ∧ Inv m' l' ∧ Inv m' l) ∧
   (¬ room m (2 * length cells) → new_copy fuel l m = Throw m)) ∧
  (* operator= *)
  (∀ rhs rcells, list_at m rhs rcells → length rcells ≤ fuel →
     (rhs = l ∨ ∀ a, a ∈ cells.*1 → a ∉ rcells.*1) →
     (rhs = l ∨ room m (2 * length rcells) →
        ∃ m', assign fuel l rhs m = Ok l m' ∧ Inv m' l ∧ Inv m' rhs) ∧
     (rhs ≠ l → ¬ room m (2 * length rcells) → assign fuel l rhs m = Throw m)) ∧
  (* PushFront *)
  (∀ v, (room m 1 → ∃ m', PushFront l v m = Ok tt m' ∧ Inv m' l) ∧
        (¬ room m 1 → PushFront l v m = Throw m)) ∧
  (* PopFront *)
  (cells ≠ [] → ∃ m', PopFront l m = Ok tt m' ∧ Inv m' l) ∧
  (* InsertAfter *)
  (∀ pos v, refers_into l cells pos →
     (room m 1 → ∃ it m', InsertAfter l pos v m = Ok it m' ∧ Inv m' l) ∧
     (¬ room m 1 → InsertAfter l pos v m = Throw m)) ∧
  (* EraseAfter *)
  (∀ i, i < length cells →
     ∃ it m', EraseAfter l (mkIterator (pos_ptr l cells i)) m = Ok it m' ∧ Inv m' l) ∧
  (* Clear *)
  (∃ m', Clear fuel l m = Ok tt m' ∧ Inv m' l) ∧
  (* swap *)
  (∀ rhs, Inv m rhs → ∃ m', swap l rhs m = Ok tt m' ∧ Inv m' l ∧ Inv m' rhs).
Proof.
  intros Hl Hfuel Hok. pose proof Hl as (o & Ho & Hch & Hsz & Hmax).
  unfold heap_ok in Hok. unfold room in *.
  split_and!.
  - rewrite new_default_run. eexists _, _. split; [done|].
    assert (Hne : fresh (dom (objs m)) ≠ l) by by eapply fresh_obj_ne.
    split.
    + exists []. eapply list_at_empty; simpl; [apply lookup_insert_eq|done|done].
    + exists cells. eapply list_at_frame; [| |exact Hl]; simpl; [|done].
      by rewrite lookup_insert_ne.
  - intros S HS. split.
    + intros Hcap.
      destruct (new_from_run S fuel m HS)
        as (c' & m' & Hrun & _ & Hl' & Hfresh & Hsame & Hobj); [lia|].
      assert (Hne : l ≠ fresh (dom (objs m))).
      { intros Heq. symmetry in Heq. by eapply fresh_obj_ne. }
      exists (fresh (dom (objs m))), m'. split; [done|]. split; [by exists c'|].
      exists cells. by eapply (list_at_keep m m' l cells c'); [|apply Hobj|..].
    + intros Hcap. apply new_from_no_room; [done|lia|lia].
  - intros Hcap.
    destruct (new_copy_run l cells fuel m Hl Hfuel)
      as (c' & m' & Hrun & _ & Hl' & Hfresh & Hsame & Hobj); [lia|].
    assert (Hne : l ≠ fresh (dom (objs m))).
    { intros Heq. symmetry in Heq. by eapply fresh_obj_ne. }
    exists (fresh (dom (objs m))), m'. split; [done|]. split; [by exists c'|].
    exists cells. by eapply (list_at_keep m m' l cells c'); [|apply Hobj|..].
  - intros Hcap. apply (new_copy_no_room l cells); [done|done|lia|lia].
  - intros rhs rcells Hr Hrf Hdisj. split.
    + intros Hcase. destruct (decide (rhs = l)) as [->|Hne].
      { exists m. split; [apply assign_self|]. split; by exists cells. }
      destruct Hcase as [?|Hcap]; [done|]. destruct Hdisj as [?|Hdisj]; [done|].
      assert (Hne' : l ≠ rhs) by done.
      destruct (assign_run l rhs cells rcells fuel m Hne' Hl Hr Hfuel Hrf)
        as (c' & m' & Hrun & _ & Hl' & Hfresh & Hsame & Hgone & Hobj); [lia|].
      exists m'. split; [done|]. split; [by exists c'|].
      exists rcells. pose proof Hr as (orr & _ & Hchr & _).
      eapply list_at_frame; [by apply Hobj| |exact Hr].
      intros a Ha. apply Hsame.
      * intros Hin. pose proof (lseg_dom _ _ _ _ _ Hchr Ha) as Hd.
        apply elem_of_dom in Hd as [n Hn]. rewrite Hfresh in Hn; done.
      * intros Hin. by apply (Hdisj a).
    + intros Hne Hcap. apply (assign_no_room l rhs rcells); [done|done|lia|lia|done].
  - intros v. split.
    + intros Hcap.
      destruct (PushFront_spec m l cells v Hl) as (a & m' & _ & Hrun & Hl' & _); [lia|].
      exists m'. split; [done|]. by eexists.
    + intros Hcap. apply PushFront_full. lia.
  - intros Hne. destruct cells as [|c rest]; [done|].
    destruct (PopFront_spec m l c rest Hl) as (m' & Hrun & Hl' & _).
    exists m'. split; [done|]. by exists rest.
  - intros [p] v (i & Hi & Hp). simpl in Hp. subst p. split.
    + intros Hcap.
      destruct (InsertAfter_spec m l cells i v Hl Hi)
        as (a & m' & _ & Hrun & Hl' & _); [lia|].
      eexists _, m'. split; [done|]. by eexists.
    + intros Hcap. apply InsertAfter_full. lia.
  - intros i Hi.
    destruct (EraseAfter_spec m l cells i Hl Hi) as (c & m' & _ & Hrun & Hl' & _).
    eexists _, m'. split; [done|]. by eexists.
  - destruct (Clear_spec m l cells fuel Hl Hfuel) as (m' & Hrun & Hl' & _).
    exists m'. split; [done|]. by exists [].
  - intros rhs (rc & Hr). pose proof Hr as (orr & Hor & _).
    destruct (swap_mem_list_at m l o rhs orr cells rc Ho Hor Hl Hr) as [Hs1 Hs2].
    exists (swap_mem m l o rhs orr). split; [by apply swap_run|].
    split; by eexists.
Qed.

Lemma separate_independent fuel m l1 l2 :
  separate m l1 l2 → independent fuel m l1 l2.
Proof.
  intros (Hne & d1 & d2 & Hd1 & Hd2 & Hdisj) mu c1 m' Hl1 Hvalid Hfuel Hrun.
  rewrite (list_at_functional _ _ _ _ Hd1 Hl1) in *. clear Hd1.
  destruct (mutate_cases m l1 c1 mu fuel Hl1 Hvalid Hfuel)
    as [(m'' & c1' & Hok & Hl1' & Hfp)|[Hthrow|(f & Hfault)]].
  - destruct Hrun as [Hrun|Hrun]; rewrite Hok in Hrun; [|done].
    injection Hrun as <-.
    assert (Hne' : l2 ≠ l1) by done.
    destruct (footprint_frame _ _ _ _ _ _ _ Hfp Hne' Hd2 Hdisj) as [Hd2' Hdisj'].
    split.
    + intros xs (c2 & Hl2 & Hxs).
      rewrite (list_at_functional _ _ _ _ Hl2 Hd2) in *. by exists d2.
    + split; [done|]. by exists c1', d2.
  - destruct Hrun as [Hrun|Hrun]; rewrite Hthrow in Hrun; [done|].
    injection Hrun as <-. split; [done|]. split; [done|]. by exists c1, d2.
  - destruct Hrun as [Hrun|Hrun]; rewrite Hfault in Hrun; done.
Qed.

Lemma equal_loop_refl (xs : list T) :
  (∀ x, eqT x x = true) → equal_loop xs xs = true.
Proof.
  intros Hrefl. induction xs as [|x xs IH]; simpl; [done|]. by rewrite Hrefl.
Qed.

Lemma op_eq_same m l1 l2 c1 c2 fuel :
  list_at m l1 c1 → list_at m l2 c2 → c1.*2 = c2.*2 → length c1 ≤ fuel →
  (∀ x, eqT x x = true) →
  op_eq fuel l1 l2 m = Ok true m.
Proof.
  intros Hl1 Hl2 Heq Hfuel Hrefl.
  pose proof (op_eq_run m l1 l2 c1 c2 fuel Hl1 Hl2 Hfuel) as Hrun.
  rewrite Hrun, Heq. by rewrite equal_loop_refl.
Qed.

(** C3.  Copy-constructing from a well-formed list [L], or copy-assigning
    [L] to another list, gives a list with the same element sequence and
    size ([==] holds when the element type's [==] is reflexive) and leaves
    [L] as it was.  The copy shares no node with [L]: any valid mutation
    ([PushFront], [PopFront], [Clear], [InsertAfter], [EraseAfter]) of either
    list leaves the other list's sequence unchanged. *)
Theorem copy_is_deep (m : mem T) (L : positive) (cells : list (positive * T))
    (fuel : nat) :
  list_at m L cells → length cells ≤ fuel →
  room m (2 * length cells) →
  (* copy construction *)
  (∃ L2 m',
     new_copy fuel L m = Ok L2 m' ∧
     repr m' L2 cells.*2 ∧ repr m' L cells.*2 ∧
     GetSize L2 m' = Ok (Z.of_nat (length cells)) m' ∧
     ((∀ x, eqT x x = true) → op_eq fuel L2 L m' = Ok true m') ∧
     separate m' L L2 ∧
     independent fuel m' L L2 ∧ independent fuel m' L2 L) ∧
  (* copy assignment *)
  (∀ L2 c2, list_at m L2 c2 → length c2 ≤ fuel →
     L2 ≠ L → (∀ a, a ∈ cells.*1 → a ∉ c2.*1) →
     ∃ m',
       assign fuel L2 L m = Ok L2 m' ∧
       repr m' L2 cells.*2 ∧ repr m' L cells.*2 ∧
       GetSize L2 m' = Ok (Z.of_nat (length cells)) m' ∧
       ((∀ x, eqT x x = true) → op_eq fuel L2 L m' = Ok true m') ∧
       separate m' L L2 ∧
       independent fuel m' L L2 ∧ independent fuel m' L2 L).
Proof.
  intros Hl Hfuel Hroom.
  assert (Hcap : (Z.of_nat (size (heap m)) + 2 * Z.of_nat (length cells) ≤ SIZE_MAX)%Z)
    by (unfold room in Hroom; lia).
  split.
  - destruct (new_copy_run L cells fuel m Hl Hfuel Hcap)
      as (c' & m' & Hrun & Hv & Hl' & Hfresh & Hsame & Hobj).
    set (L2 := fresh (dom (objs m))) in *.
    pose proof Hl as (o & Ho & _).
    assert (Hne : L ≠ L2).
    { intros Heq. symmetry in Heq. by eapply fresh_obj_ne. }
    destruct (list_at_keep m m' L cells c' Hl (Hobj L Hne) Hfresh Hsame)
      as [HL Hdisj].
    assert (Hlen : length c' = length cells).
    { rewrite <- (length_fmap snd c'), Hv. by rewrite length_fmap. }
    assert (Hsep : separate m' L L2).
    { split; [done|]. by exists cells, c'. }
    exists L2, m'. split; [done|]. split; [by exists c'|]. split; [by exists cells|].
    split.
    { rewrite <- Hlen. by apply GetSize_run. }
    split.
    { intros Hrefl. eapply op_eq_same; try done. lia. }
    split; [done|]. split; [by apply separate_independent|].
    by apply separate_independent, separate_sym.
  - intros L2 c2 Hl2 Hfuel2 Hne Hdisj2.
    destruct (assign_run L2 L c2 cells fuel m Hne Hl2 Hl Hfuel2 Hfuel Hcap)
      as (c' & m' & Hrun & Hv & Hl' & Hfresh & Hsame & Hgone & Hobj).
    pose proof Hl as (o & _ & Hch & _).
    assert (Hdisj : ∀ a, a ∈ cells.*1 → a ∉ c'.*1).
    { intros a Ha Hin. pose proof (lseg_dom _ _ _ _ _ Hch Ha) as Hd.
      apply elem_of_dom in Hd as [n Hn]. rewrite Hfresh in Hn; done. }
    assert (HL : list_at m' L cells).
    { eapply list_at_frame; [apply Hobj; by intros ->| |exact Hl].
      intros a Ha. apply Hsame; [by apply Hdisj|by apply Hdisj2]. }
    assert (Hlen : length c' = length cells).
    { rewrite <- (length_fmap snd c'), Hv. by rewrite length_fmap. }
    assert (Hsep : separate m' L L2).
    { split; [by intros ->|]. by exists cells, c'. }
    exists m'. split; [done|]. split; [by exists c'|]. split; [by exists cells|].
    split.
    { rewrite <- Hlen. by apply GetSize_run. }
    split.
    { intros Hrefl. eapply op_eq_same; try done. lia. }
    split; [done|]. split; [by apply separate_independent|].
    by apply separate_independent, separate_sym.
Qed.

(** ** Further properties of the code *)

Lemma size_free_all (X : list positive) : ∀ h,
  NoDup X → (∀ a, a ∈ X → is_Some (h !! a)) →
  size (free_all X h) + length X = size h.
Proof.
  induction X as [|x X IH]; intros h Hnd Hin; [simpl; lia|].
  apply NoDup_cons in Hnd as [Hx Hnd].
  destruct (Hin x) as [n Hn]; [left|].
  assert (Hpos : size h ≠ 0).
  { intros Hz. apply map_size_empty_iff in Hz. subst h. by rewrite lookup_empty in Hn. }
  assert (Hrest : size (free_all X (delete x h)) + length X = size (delete x h)).
  { apply IH; [done|]. intros a Ha. rewrite lookup_delete_ne by (by intros ->).
    apply Hin. by right. }
  rewrite map_size_delete_Some in Hrest by by eexists.
  rewrite free_all_cons. simpl. lia.
Qed.

Lemma chain_all_Some h p cells a :
  chain h p cells → a ∈ cells.*1 → is_Some (h !! a).
Proof. intros Hch Ha. apply elem_of_dom. by eapply lseg_dom. Qed.

(** X1.  The destructor of a well-formed list releases exactly the nodes the
    list owns, each of them once, and the list object itself: afterwards
    none of its nodes is on the free store, every other node is as before,
    the free store is smaller by the length of the list, and any other list
    that shared no node with it is intact. *)
Theorem destructor_releases_all (m : mem T) (l : positive)
    (cells : list (positive * T)) (fuel : nat) :
  list_at m l cells → length cells ≤ fuel →
  ∃ m',
    destroy fuel l m = Ok tt m' ∧
    objs m' = delete l (objs m) ∧
    (∀ a, a ∈ cells.*1 → heap m' !! a = None) ∧
    (∀ a, a ∉ cells.*1 → heap m' !! a = heap m !! a) ∧
    size (heap m') + length cells = size (heap m) ∧
    (∀ l' c', l' ≠ l → list_at m l' c' →
       (∀ a, a ∈ cells.*1 → a ∉ c'.*1) → list_at m' l' c').
Proof.
  intros Hl Hfuel. pose proof Hl as (o & Ho & Hch & _).
  exists (mkMem (free_all cells.*1 (heap m)) (delete l (objs m))).
  split; [by apply destroy_run|]. simpl. split; [done|]. split.
  { intros a Ha. rewrite lookup_free_all. by rewrite decide_True. }
  split.
  { intros a Ha. rewrite lookup_free_all. by rewrite decide_False. }
  split.
  { rewrite <- (length_fmap fst cells). apply size_free_all.
    - by eapply chain_NoDup.
    - intros a Ha. by eapply chain_all_Some. }
  intros l' c' Hne Hl' Hdisj. eapply list_at_frame; [| |exact Hl']; simpl.
  - by rewrite lookup_delete_ne.
  - intros a Ha. rewrite lookup_free_all. rewrite decide_False; [done|].
    intros Hin. by apply (Hdisj a).
Qed.

(** X2.  [Clear] on a well-formed list releases exactly its nodes and leaves
    it empty: size [0], [IsEmpty()] true, [begin() == end()], an empty
    traversal.  Clearing the list again changes nothing. *)
Theorem clear_empties (m : mem T) (l : positive)
    (cells : list (positive * T)) (fuel : nat) :
  list_at m l cells → length cells ≤ fuel →
  ∃ m',
    Clear fuel l m = Ok tt m' ∧
    repr m' l [] ∧
    GetSize l m' = Ok 0%Z m' ∧
    IsEmpty l m' = Ok true m' ∧
    (b <- begin l ;; e <- end_ l ;; ret (iter_eqb b e)) m' = Ok true m' ∧
    to_list fuel l m' = Ok [] m' ∧
    (∀ a, a ∈ cells.*1 → heap m' !! a = None) ∧
    (∀ a, a ∉ cells.*1 → heap m' !! a = heap m !! a) ∧
    size (heap m') + length cells = size (heap m) ∧
    Clear fuel l m' = Ok tt m'.
Proof.
  intros Hl Hfuel. pose proof Hl as (o & Ho & Hch & _).
  destruct (Clear_spec m l cells fuel Hl Hfuel) as (m' & Hrun & Hl' & Hheap & _).
  exists m'. split; [done|]. split; [by exists []|].
  split; [by rewrite (GetSize_run _ _ _ Hl')|].
  split; [by rewrite (IsEmpty_run _ _ _ Hl')|].
  split.
  { unfold bind. by rewrite (begin_run _ _ _ Hl'). }
  split.
  { rewrite (to_list_run _ _ [] fuel Hl'); [done|simpl; lia]. }
  rewrite Hheap. split.
  { intros a Ha. rewrite lookup_free_all. by rewrite decide_True. }
  split.
  { intros a Ha. rewrite lookup_free_all. by rewrite decide_False. }
  split.
  { rewrite <- (length_fmap fst cells). apply size_free_all.
    - by eapply chain_NoDup.
    - intros a Ha. by eapply chain_all_Some. }
  pose proof Hl' as (o' & Ho' & Hch' & Hsz' & _).
  rewrite (Clear_run l [] m' o' fuel Ho' Hch'); [|simpl; lia].
  unfold clear_mem. simpl. f_equal.
  destruct o' as [[vo no] so]. unfold chain in Hch'. simpl in *. subst.
  rewrite insert_id by done. by destruct m'.
Qed.

(** X3.  On a well-formed list the observers agree: [GetSize()] is the
    number of elements a traversal reads, and [IsEmpty()] is true exactly
    when there is none, which is exactly when [begin() == end()]. *)
Theorem observers_agree (m : mem T) (l : positive) (xs : list T) :
  repr m l xs →
  GetSize l m = Ok (Z.of_nat (length xs)) m ∧
  to_list (length xs) l m = Ok xs m ∧
  IsEmpty l m = Ok (bool_decide (xs = [])) m ∧
  (b <- begin l ;; e <- end_ l ;; ret (iter_eqb b e)) m
    = Ok (bool_decide (xs = [])) m.
Proof.
  intros (cells & Hl & <-). rewrite length_fmap.
  split; [by apply GetSize_run|]. split; [by apply to_list_run|].
  assert (Hnil : bool_decide (cells.*2 = []) = bool_decide (cells = [])).
  { by destruct cells. }
  rewrite Hnil. split; [by apply IsEmpty_run|].
  unfold bind. rewrite (begin_run _ _ _ Hl). simpl. unfold ret. f_equal.
  by destruct cells.
Qed.

(** X5.  [PopFront] on a well-formed non-empty list removes exactly the
    first element: the rest of the sequence stays in order, the size drops
    by one and one node leaves the free store.  On an empty list the
    assertion [size_ != 0] fails. *)
Theorem pop_front_removes_first (m : mem T) (l : positive) (xs : list T) :
  repr m l xs →
  match xs with
  | [] => PopFront l m = Fault AssertionFailed
  | x :: rest =>
      (it <- begin l ;; iter_deref it) m = Ok x m ∧
      ∃ m',
        PopFront l m = Ok tt m' ∧
        repr m' l rest ∧
        GetSize l m' = Ok (Z.of_nat (length rest)) m' ∧
        size (heap m') + 1 = size (heap m) ∧
        (∀ l', l' ≠ l → objs m' !! l' = objs m !! l')
  end.
Proof.
  intros (cells & Hl & <-). destruct cells as [|[a x] rest]; simpl.
  - by apply PopFront_empty.
  - pose proof Hl as (o & Ho & Hch & _).
    pose proof Hch as Hch'. unfold chain in Hch'. simpl in Hch'.
    destruct Hch' as [Hn (r & Ha & Hr)]. split.
    { unfold bind. rewrite (begin_run _ _ _ Hl). simpl.
      unfold iter_deref, load_value, bind, load. simpl. by rewrite Ha. }
    destruct (PopFront_spec m l (a, x) rest Hl) as (m' & Hrun & Hl' & Hheap & Hfp).
    exists m'. split; [done|]. split; [by exists rest|]. split.
    { rewrite (GetSize_run _ _ _ Hl'). by rewrite length_fmap. }
    split.
    { rewrite Hheap. simpl. rewrite map_size_delete_Some by by eexists.
      assert (size (heap m) ≠ 0); [|lia].
      intros Hz. apply map_size_empty_iff in Hz. rewrite Hz in Ha.
      by rewrite lookup_empty in Ha. }
    by destruct Hfp as (Hobj & _).
Qed.

(** X8.  On a well-formed non-empty list [EraseAfter(before_begin())] and
    [PopFront()] end in the same memory.  On an empty list they differ:
    [PopFront] stops at its assertion, [EraseAfter] dereferences null. *)
Theorem erase_after_before_begin_is_pop_front (m : mem T) (l : positive)
    (cells : list (positive * T)) :
  list_at m l cells →
  match cells with
  | [] =>
      PopFront l m = Fault AssertionFailed ∧
      (pos <- before_begin l ;; EraseAfter l pos ;; ret tt) m
        = Fault UndefinedBehaviour
  | _ :: _ =>
      ∃ m',
        PopFront l m = Ok tt m' ∧
        (pos <- before_begin l ;; EraseAfter l pos ;; ret tt) m = Ok tt m'
  end.
Proof.
  intros Hl. pose proof Hl as (o & Ho & Hch & Hsz & _).
  destruct cells as [|[a x] rest].
  - split; [by apply PopFront_empty|].
    pose proof (EraseAfter_last m l [] Hl) as He. simpl in He.
    unfold before_begin. unfold bind at 1. simpl. unfold bind.
    by rewrite He.
  - unfold chain in Hch. simpl in Hch. destruct Hch as [Hn (r & Ha & Hr)].
    exists (pop_mem m l o a (mkNode x r)). split.
    + apply PopFront_run; try done. simpl in Hsz. lia.
    + unfold before_begin. unfold bind at 1. simpl. unfold bind.
      by rewrite (EraseAfter_head_run _ _ o a (mkNode x r)).
Qed.

(** X9.  Swapping two list objects twice gives back the memory: [swap] is
    its own inverse.  This needs the two objects to exist, nothing more. *)
Theorem swap_involutive (m : mem T) (l1 l2 : positive) :
  is_Some (objs m !! l1) → is_Some (objs m !! l2) →
  (swap l1 l2 ;; swap l1 l2) m = Ok tt m.
Proof.
  intros [o1 H1] [o2 H2]. unfold bind. rewrite (swap_run _ _ o1 _ o2) by done.
  assert (H1' : objs (swap_mem m l1 o1 l2 o2) !! l1
            = Some (mkList (mkNode (value (head_ o1)) (next_node (head_ o2))) (size_ o2))).
  { unfold swap_mem. simpl. apply lookup_insert_eq. }
  assert (H2' : objs (swap_mem m l1 o1 l2 o2) !! l2
            = Some (mkList (mkNode (value (head_ o2)) (next_node (head_ o1))) (size_ o1))).
  { unfold swap_mem. simpl. destruct (decide (l1 = l2)) as [->|Hne].
    - rewrite lookup_insert_eq. rewrite H1 in H2. by injection H2 as ->.
    - rewrite lookup_insert_ne by done. apply lookup_insert_eq. }
  rewrite (swap_run _ _ _ _ _ H1' H2'). f_equal.
  unfold swap_mem. simpl. destruct m as [h os]. simpl in *. f_equal.
  apply map_eq. intros i. rewrite !lookup_insert.
  destruct o1 as [[v1 n1] s1], o2 as [[v2 n2] s2]. simpl.
  repeat case_decide; subst; congruence.
Qed.

Lemma chain_elem_value h p cells a x :
  chain h p cells → (a, x) ∈ cells → ∃ q, h !! a = Some (mkNode x q).
Proof.
  intros Hch Hin. apply list_elem_of_split in Hin as (pre & post & ->).
  destruct (chain_split _ _ _ _ _ _ Hch) as (r & _ & Hb & _). by exists r.
Qed.

Lemma chain_addr_value h p cells a n :
  chain h p cells → a ∈ cells.*1 → h !! a = Some n → (a, value n) ∈ cells.
Proof.
  intros Hch Ha Hn. apply list_elem_of_fmap in Ha as ([a' x] & Heq & Hin).
  simpl in Heq. subst a'.
  destruct (chain_elem_value _ _ _ _ _ Hch Hin) as (q & Hq).
  rewrite Hn in Hq. injection Hq as ->. done.
Qed.

Lemma nth_ptr_middle h r (pre post : list (positive * T)) b vb :
  chain h r post →
  nth_ptr (pre ++ (b, vb) :: post) (S (length pre)) = r.
Proof.
  intros Hpost. replace (S (length pre)) with (length pre + 1) by lia.
  rewrite nth_ptr_app_r. by rewrite (chain_nth_ptr _ _ _ Hpost).
Qed.

Lemma load_next_pos m l cells i :
  list_at m l cells → i ≤ length cells →
  load_next (pos_ptr l cells i) m = Ok (nth_ptr cells i) m.
Proof.
  intros (o & Ho & Hch & _) Hi.
  destruct (pos_ptr_cases l cells i Hi) as [[-> Hp]|(pre & b & vb & post & -> & -> & Hp)].
  - rewrite Hp. unfold load_next, bind, load. rewrite Ho. simpl.
    by rewrite (chain_nth_ptr _ _ _ Hch).
  - rewrite Hp. destruct (chain_split _ _ _ _ _ _ Hch) as (r & _ & Hb & Hpost & _).
    unfold load_next, bind, load. rewrite Hb. simpl.
    by rewrite (nth_ptr_middle _ _ _ _ _ _ Hpost).
Qed.

Lemma pos_ptr_insert l cells i (c : positive * T) :
  i ≤ length cells →
  pos_ptr l (take i cells ++ c :: drop i cells) i = pos_ptr l cells i.
Proof.
  intros Hi. destruct i as [|j]; [done|]. simpl.
  rewrite lookup_app_l by (rewrite length_take; lia).
  by rewrite lookup_take_lt by lia.
Qed.

Lemma nth_ptr_insert cells i (c : positive * T) :
  i ≤ length cells →
  nth_ptr (take i cells ++ c :: drop i cells) i = HeapNode c.1.
Proof.
  intros Hi. unfold nth_ptr.
  rewrite lookup_app_r by (rewrite length_take; lia).
  rewrite length_take. by replace (i - i `min` length cells) with 0 by lia.
Qed.

(** X6.  [InsertAfter] at any position of a well-formed list (the sentinel
    or one of its nodes) with room for a node puts [v] right after that
    position: the sequence gains [v] at index [i], the size grows by one,
    the returned iterator refers to the new node, which holds [v] and is the
    successor of the position, and no existing node is moved or changes its
    value. *)
Theorem insert_after_at_position (m : mem T) (l : positive)
    (cells : list (positive * T)) (i : nat) (v : T) :
  list_at m l cells → i ≤ length cells → room m 1 →
  ∃ a m',
    heap m !! a = None ∧
    InsertAfter l (mkIterator (pos_ptr l cells i)) v m
      = Ok (mkIterator (HeapNode a)) m' ∧
    list_at m' l (take i cells ++ (a, v) :: drop i cells) ∧
    repr m' l (take i cells.*2 ++ v :: drop i cells.*2) ∧
    GetSize l m' = Ok (Z.of_nat (length cells) + 1)%Z m' ∧
    iter_deref (mkIterator (HeapNode a)) m' = Ok v m' ∧
    load_next (pos_ptr l cells i) m' = Ok (HeapNode a) m' ∧
    (∀ b n, heap m !! b = Some n → value <$> heap m' !! b = Some (value n)).
Proof.
  intros Hl Hi Hroom. pose proof Hl as (o & Ho & Hch & _).
  destruct (InsertAfter_spec m l cells i v Hl Hi) as (a & m' & Hfa & Hrun & Hl' & Hfp).
  { unfold room in Hroom. lia. }
  pose proof Hl' as (o' & Ho' & Hch' & _).
  assert (Hnew : (a, v) ∈ take i cells ++ (a, v) :: drop i cells).
  { apply elem_of_app. right. left. }
  exists a, m'. split; [done|]. split; [done|]. split; [done|]. split.
  { eexists. split; [exact Hl'|].
    rewrite fmap_app, fmap_cons, fmap_take, fmap_drop. done. }
  split.
  { rewrite (GetSize_run _ _ _ Hl'). f_equal.
    rewrite length_app, length_take. simpl. rewrite length_drop. lia. }
  split.
  { destruct (chain_elem_value _ _ _ _ _ Hch' Hnew) as (q & Hq).
    unfold iter_deref, load_value, bind, load. simpl. by rewrite Hq. }
  split.
  { rewrite <- (pos_ptr_insert l cells i (a, v)) by done.
    rewrite (load_next_pos _ _ _ _ Hl'); cycle 1.
    { rewrite length_app, length_take. simpl. lia. }
    by rewrite nth_ptr_insert. }
  intros b n Hb. destruct (decide (b ∈ cells.*1)) as [Hin|Hnin].
  - pose proof (chain_addr_value _ _ _ _ _ Hch Hin Hb) as Hcell.
    assert (Hcell' : (b, value n) ∈ take i cells ++ (a, v) :: drop i cells).
    { rewrite <- (take_drop i cells) in Hcell.
      apply elem_of_app in Hcell as [?|?]; apply elem_of_app; [by left|].
      right. by right. }
    destruct (chain_elem_value _ _ _ _ _ Hch' Hcell') as (q & Hq). by rewrite Hq.
  - destruct Hfp as (_ & Hsame & _). rewrite Hsame by (done || by eexists).
    by rewrite Hb.
Qed.

Lemma push_pop_mem m l o v :
  objs m !! l = Some o →
  (0 ≤ size_ o < SIZE_MAX)%Z →
  pop_mem (push_mem m l o v) l
    (mkList (mkNode (value (head_ o)) (HeapNode (fresh (dom (heap m)))))
            (size_incr (size_ o)))
    (fresh (dom (heap m))) (mkNode v (next_node (head_ o))) = m.
Proof.
  intros Ho Hs.
  assert (Hfa : heap m !! fresh (dom (heap m)) = None) by apply not_elem_of_dom, is_fresh.
  unfold pop_mem, push_mem. simpl.
  rewrite delete_insert_id by done. rewrite insert_insert_eq.
  rewrite size_incr_small by lia. rewrite size_decr_pos by lia.
  replace (size_ o + 1 - 1)%Z with (size_ o) by lia.
  destruct o as [[vo no] so]. simpl. rewrite insert_id by done. by destruct m.
Qed.

Lemma insert_erase_mem m l o b vb r v :
  objs m !! l = Some o →
  heap m !! b = Some (mkNode vb r) →
  (0 ≤ size_ o < SIZE_MAX)%Z →
  erase_mem (insert_mem m l o b (mkNode vb r) v) l
    (mkList (head_ o) (size_incr (size_ o)))
    b (mkNode vb (HeapNode (fresh (dom (heap m)))))
    (fresh (dom (heap m))) (mkNode v r) = m.
Proof.
  intros Ho Hb Hs. pose proof (fresh_heap_ne _ _ _ Hb) as Hne.
  assert (Hfa : heap m !! fresh (dom (heap m)) = None) by apply not_elem_of_dom, is_fresh.
  unfold erase_mem, insert_mem. simpl.
  rewrite insert_insert_eq.
  rewrite size_incr_small by lia. rewrite size_decr_pos by lia.
  replace (size_ o + 1 - 1)%Z with (size_ o) by lia.
  destruct o as [ho so]. simpl. rewrite (insert_id (objs m) l) by done.
  destruct m as [h os]. simpl in *. f_equal.
  apply map_eq. intros j. rewrite lookup_insert. case_decide as Hj.
  - by subst j.
  - rewrite lookup_delete. case_decide as Hj'; [by subst j|].
    by rewrite !lookup_insert_ne.
Qed.

(** X7.  On a well-formed list with room for a node, [InsertAfter] at a
    position followed by [EraseAfter] at the same position gives back the
    memory it started from, and [EraseAfter] returns the iterator to what
    followed the position in the first place. *)
Theorem insert_after_erase_after (m : mem T) (l : positive)
    (cells : list (positive * T)) (i : nat) (v : T) :
  list_at m l cells → i ≤ length cells → room m 1 →
  ∃ it m1,
    InsertAfter l (mkIterator (pos_ptr l cells i)) v m = Ok it m1 ∧
    EraseAfter l (mkIterator (pos_ptr l cells i)) m1
      = Ok (mkIterator (nth_ptr cells i)) m.
Proof.
  intros Hl Hi Hroom. pose proof Hl as (o & Ho & Hch & Hsz & Hmax).
  assert (Hcap : (Z.of_nat (size (heap m)) < SIZE_MAX)%Z) by (unfold room in Hroom; lia).
  pose proof (chain_length_le _ _ _ Hch) as Hle.
  assert (Hs : (0 ≤ size_ o < SIZE_MAX)%Z) by lia.
  set (a := fresh (dom (heap m))).
  destruct (pos_ptr_cases l cells i Hi) as [[-> Hp]|(pre & b & vb & post & -> & -> & Hp)].
  - rewrite Hp. eexists _, (push_mem m l o v).
    split; [by apply InsertAfter_head_run|].
    erewrite EraseAfter_head_run; cycle 1.
    + unfold push_mem. simpl. apply lookup_insert_eq.
    + reflexivity.
    + unfold push_mem. simpl. apply lookup_insert_eq.
    + simpl. rewrite push_pop_mem by done.
      by rewrite (chain_nth_ptr _ _ _ Hch).
  - rewrite Hp. destruct (chain_split _ _ _ _ _ _ Hch) as (r & _ & Hb & Hpost & _).
    pose proof (fresh_heap_ne _ _ _ Hb) as Hne.
    eexists _, (insert_mem m l o b (mkNode vb r) v).
    split; [by apply InsertAfter_node_run|].
    erewrite (EraseAfter_node_run _ l _ b (mkNode vb (HeapNode a)) a (mkNode v r)); cycle 1.
    + unfold insert_mem. simpl. apply lookup_insert_eq.
    + unfold insert_mem. simpl. apply lookup_insert_eq.
    + reflexivity.
    + unfold insert_mem. simpl. rewrite lookup_insert_ne by done.
      apply lookup_insert_eq.
    + done.
    + simpl. rewrite insert_erase_mem by done.
      by rewrite (nth_ptr_middle _ _ _ _ _ _ Hpost).
Qed.

Lemma nth_ptr_lookup cells i (c : positive * T) :
  cells !! i = Some c → nth_ptr cells i = HeapNode c.1.
Proof. unfold nth_ptr. by intros ->. Qed.

Lemma iter_advance_nodes m l cells : ∀ k j,
  list_at m l cells → j + k ≤ length cells →
  iter_advance k (mkIterator (nth_ptr cells j)) m
    = Ok (mkIterator (nth_ptr cells (j + k))) m.
Proof.
  induction k as [|k IH]; intros j Hl Hj; simpl.
  - by rewrite Nat.add_0_r.
  - unfold bind at 1.
    assert (Hinc : iter_incr (mkIterator (nth_ptr cells j)) m
                   = Ok (mkIterator (nth_ptr cells (S j))) m).
    { destruct (lookup_lt_is_Some_2 cells j) as [c Hc]; [lia|].
      pose proof (load_next_pos m l cells (S j) Hl) as Hn. simpl in Hn.
      unfold iter_incr, bind, assert. simpl.
      rewrite (nth_ptr_lookup _ _ _ Hc) in *. rewrite Hc in Hn. simpl.
      rewrite Hn by lia. done. }
    rewrite Hinc. rewrite (IH (S j)) by (done || lia).
    by replace (S j + k) with (j + S k) by lia.
Qed.

(** X10.  Walking a well-formed list with iterators: [i] increments from
    [begin()] never fail for [i] up to the size and reach the [i]-th node,
    whose dereference reads the [i]-th element; after as many increments as
    there are elements the iterator equals [end()].  A post-increment at a
    node returns the old position and moves to the next one.  Incrementing
    [end()] fails its assertion and dereferencing [end()] is undefined
    behaviour. *)
Theorem iterator_walk (m : mem T) (l : positive) (cells : list (positive * T)) :
  list_at m l cells →
  (∀ i, i ≤ length cells →
     (b <- begin l ;; iter_advance i b) m = Ok (mkIterator (nth_ptr cells i)) m) ∧
  (∀ i x, cells.*2 !! i = Some x →
     iter_deref (mkIterator (nth_ptr cells i)) m = Ok x m) ∧
  (b <- begin l ;; it <- iter_advance (length cells) b ;;
   e <- end_ l ;; ret (iter_eqb it e)) m = Ok true m ∧
  (∀ i, i < length cells →
     iter_post_incr (mkIterator (nth_ptr cells i)) m
       = Ok (mkIterator (nth_ptr cells i), mkIterator (nth_ptr cells (S i))) m) ∧
  (e <- end_ l ;; iter_incr e) m = Fault AssertionFailed ∧
  (e <- end_ l ;; iter_deref e) m = Fault UndefinedBehaviour.
Proof.
  intros Hl. pose proof Hl as (o & Ho & Hch & _).
  assert (Hadv : ∀ i, i ≤ length cells →
            (b <- begin l ;; iter_advance i b) m = Ok (mkIterator (nth_ptr cells i)) m).
  { intros i Hi. unfold bind at 1. rewrite (begin_run _ _ _ Hl).
    by apply (iter_advance_nodes m l cells i 0). }
  split; [done|]. split.
  { intros i x Hx. rewrite list_lookup_fmap in Hx.
    destruct (cells !! i) as [[a x']|] eqn:Hc; [|done]. simpl in Hx.
    injection Hx as ->.
    rewrite (nth_ptr_lookup _ _ _ Hc). simpl.
    destruct (chain_elem_value _ _ _ a x Hch) as (q & Hq).
    { by eapply list_elem_of_lookup_2. }
    unfold iter_deref, load_value, bind, load. simpl. by rewrite Hq. }
  split.
  { specialize (Hadv (length cells) (le_n _)).
    unfold bind in *. destruct (begin l m) as [b mb| |]; try done.
    rewrite Hadv. simpl. unfold ret. f_equal. by rewrite nth_ptr_end. }
  split.
  { intros i Hi. pose proof (iter_advance_nodes m l cells 1 i Hl) as H1.
    simpl in H1. unfold iter_post_incr. unfold bind in *.
    destruct (iter_incr (mkIterator (nth_ptr cells i)) m) as [it' mi| |];
      try (by specialize (H1 ltac:(lia))).
    specialize (H1 ltac:(lia)). unfold ret in *. injection H1 as -> ->.
    by replace (i + 1) with (S i) by lia. }
  split; done.
Qed.

(** X11.  In a well-formed list the [n + 2] iterator values ([before_begin()],
    one per node, [end()]) are pairwise different: two of them compare equal
    with [operator==] exactly when they are the same position, so a loop
    [it != end()] over [n] elements stops after exactly [n] increments. *)
Theorem positions_distinct (m : mem T) (l : positive)
    (cells : list (positive * T)) (i j : nat) :
  list_at m l cells → i ≤ S (length cells) → j ≤ S (length cells) →
  iter_eqb (mkIterator (pos_ptr l cells i)) (mkIterator (pos_ptr l cells j))
    = bool_decide (i = j) ∧
  iter_neb (mkIterator (pos_ptr l cells i)) (mkIterator (pos_ptr l cells j))
    = negb (bool_decide (i = j)).
Proof.
  intros (o & Ho & Hch & _) Hi Hj. pose proof (chain_NoDup _ _ _ Hch) as Hnd.
  assert (Heq : pos_ptr l cells i = pos_ptr l cells j ↔ i = j).
  { split; [|by intros ->].
    destruct i as [|i], j as [|j]; simpl; try done.
    - by destruct (cells !! j).
    - by destruct (cells !! i).
    - destruct (cells !! i) as [ci|] eqn:Hci, (cells !! j) as [cj|] eqn:Hcj;
        try done.
      + intros [= Hc]. f_equal.
        eapply (NoDup_lookup _ _ _ ci.1 Hnd); rewrite list_lookup_fmap.
        * by rewrite Hci.
        * rewrite Hcj. simpl. by rewrite Hc.
      + intros _. apply lookup_ge_None in Hci, Hcj. lia. }
  unfold iter_neb, iter_eqb. simpl.
  assert (bool_decide (pos_ptr l cells i = pos_ptr l cells j) = bool_decide (i = j))
    as ->; [|done].
  by apply bool_decide_ext.
Qed.

(** X12.  Assigning through a dereferenced [Iterator] that refers to the
    [i]-th node of a well-formed list replaces exactly the [i]-th element:
    the node stays where it is, every other node and every list object is
    untouched, the size is the same, and reading the iterator back gives the
    value written. *)
Theorem write_through_iterator (m : mem T) (l : positive)
    (cells : list (positive * T)) (i : nat) (a : positive) (x v : T) :
  list_at m l cells → cells !! i = Some (a, x) →
  ∃ m',
    iter_write (mkIterator (nth_ptr cells i)) v m = Ok tt m' ∧
    list_at m' l (<[i := (a, v)]> cells) ∧
    repr m' l (<[i := v]> cells.*2) ∧
    GetSize l m' = Ok (Z.of_nat (length cells)) m' ∧
    iter_deref (mkIterator (nth_ptr cells i)) m' = Ok v m' ∧
    objs m' = objs m ∧
    (∀ b, b ≠ a → heap m' !! b = heap m !! b).
Proof.
  intros Hl Hi. pose proof Hl as (o & Ho & Hch & Hsz & Hmax).
  pose proof (lookup_lt_Some _ _ _ Hi) as Hlt.
  rewrite (nth_ptr_lookup _ _ _ Hi). simpl.
  rewrite <- (take_drop_middle _ _ _ Hi) in Hch, Hsz.
  destruct (chain_split _ _ _ _ _ _ Hch) as (r & Hpre & Ha & Hpost & Hn1 & Hn2).
  set (m' := mkMem (<[a := mkNode v r]> (heap m)) (objs m)).
  assert (Hl' : list_at m' l (<[i := (a, v)]> cells)).
  { rewrite insert_take_drop by done.
    eapply list_at_intro; try done; unfold m'; simpl.
    - apply lseg_app. exists (HeapNode a). split.
      + eapply lseg_frame; [|exact Hpre]. intros b Hb.
        apply lookup_insert_ne. by intros ->.
      + simpl. split; [done|]. exists r. split; [apply lookup_insert_eq|].
        eapply lseg_frame; [|exact Hpost]. intros b Hb.
        apply lookup_insert_ne. by intros ->.
    - rewrite Hsz. by rewrite !length_app. }
  exists m'. split.
  { unfold iter_write, store_value. simpl. by rewrite Ha. }
  split; [done|]. split.
  { eexists. split; [exact Hl'|]. by rewrite list_fmap_insert. }
  split.
  { rewrite (GetSize_run _ _ _ Hl'). by rewrite length_insert. }
  split.
  { unfold iter_deref, load_value, bind, load, m'. simpl.
    by rewrite lookup_insert_eq. }
  split; [done|].
  intros b Hb. unfold m'. simpl. by rewrite lookup_insert_ne.
Qed.

(** X14.  What the position-taking operations do with a position they are
    not meant for: [EraseAfter] at the last node of a well-formed list (or
    at the sentinel of an empty one) and at [end()], and [InsertAfter] at
    [end()], dereference a null pointer; [InsertAfter] allocates first, so
    without room it throws before it gets there. *)
Theorem end_position_misuse (m : mem T) (l : positive)
    (cells : list (positive * T)) (v : T) :
  list_at m l cells →
  EraseAfter l (mkIterator (pos_ptr l cells (length cells))) m
    = Fault UndefinedBehaviour ∧
  (e <- end_ l ;; EraseAfter l e) m = Fault UndefinedBehaviour ∧
  (room m 1 → (e <- end_ l ;; InsertAfter l e v) m = Fault UndefinedBehaviour) ∧
  (¬ room m 1 → (e <- end_ l ;; InsertAfter l e v) m = Throw m).
Proof.
  intros Hl. split; [by apply EraseAfter_last|]. split; [done|]. split.
  - intros Hroom. unfold end_. unfold bind at 1. simpl.
    unfold InsertAfter, bind, new_Node.
    rewrite bool_decide_eq_true_2; [done|]. unfold room in Hroom. lia.
  - intros Hroom. unfold end_. unfold bind at 1. simpl.
    apply InsertAfter_full. unfold room in Hroom. lia.
Qed.

(** The size of a heap that lost the nodes [gone] and gained the nodes
    [new]. *)
Lemma heap_size_change (h h' : gmap positive (Node T)) (gone new : list positive) :
  NoDup gone → NoDup new →
  (∀ a, a ∈ gone → is_Some (h !! a)) →
  (∀ a, a ∈ new → h !! a = None) →
  (∀ a, a ∈ gone → h' !! a = None) →
  (∀ a, a ∈ new → is_Some (h' !! a)) →
  (∀ a, a ∉ new → a ∉ gone → h' !! a = h !! a) →
  size h' + length gone = size h + length new.
Proof.
  intros Hng Hnn Hgone Hnew Hgone' Hnew' Hsame.
  assert (Hsub : list_to_set (C := gset positive) gone ⊆ dom h).
  { intros a Ha%elem_of_list_to_set. by apply elem_of_dom, Hgone. }
  assert (Hdisj : (dom h ∖ list_to_set gone) ## list_to_set (C := gset positive) new).
  { intros a [Ha _]%elem_of_difference Hn%elem_of_list_to_set.
    apply elem_of_dom in Ha as [n Hn']. rewrite Hnew in Hn'; done. }
  assert (Hdom : dom h' = (dom h ∖ list_to_set gone) ∪ list_to_set new).
  { apply set_eq. intros a.
    rewrite elem_of_union, elem_of_difference, !elem_of_list_to_set, !elem_of_dom.
    destruct (decide (a ∈ new)) as [Hn|Hn].
    { split; [by right|]. intros _. by apply Hnew'. }
    destruct (decide (a ∈ gone)) as [Hg|Hg].
    { rewrite Hgone' by done. split; [by intros [? ?]|]. by intros [[_ ?]|?]. }
    rewrite Hsame by done. split; [by left|]. by intros [[? _]|?]. }
  pose proof (subseteq_size _ _ Hsub) as Hle.
  rewrite <- (size_dom h'), Hdom, size_union by done.
  rewrite size_difference by done.
  rewrite !size_list_to_set in * by done. rewrite size_dom in *. lia.
Qed.

(** X4.  The initializer-list constructor leaves nothing behind but the
    list it builds: its two temporaries are gone, the only new list object
    is the result, the only new nodes are the [length S] nodes of the
    result, and every node and list object that existed before is
    unchanged. *)
Theorem construction_leaks_nothing (S : list T) (fuel : nat) (m : mem T) :
  length S ≤ fuel → room m (2 * length S) →
  ∃ l cells m',
    new_from fuel S m = Ok l m' ∧
    list_at m' l cells ∧ cells.*2 = S ∧
    objs m !! l = None ∧
    dom (objs m') = {[l]} ∪ dom (objs m) ∧
    (∀ l', l' ≠ l → objs m' !! l' = objs m !! l') ∧
    dom (heap m') = dom (heap m) ∪ list_to_set cells.*1 ∧
    (∀ a n, heap m !! a = Some n → heap m' !! a = Some n) ∧
    size (heap m') = size (heap m) + length S.
Proof.
  intros Hfuel Hroom.
  destruct (new_from_run S fuel m Hfuel)
    as (cells & m' & Hrun & Hv & Hl & Hfresh & Hsame & Hobj).
  { unfold room in Hroom. lia. }
  set (l := fresh (dom (objs m))) in *.
  pose proof Hl as (o & Ho & Hch & _).
  assert (Hin' : ∀ a, a ∈ cells.*1 → is_Some (heap m' !! a)).
  { intros a Ha. by eapply chain_all_Some. }
  exists l, cells, m'. split; [done|]. split; [done|]. split; [done|].
  split; [apply fresh_obj_None|]. split.
  { apply set_eq. intros i. rewrite elem_of_union, elem_of_singleton, !elem_of_dom.
    destruct (decide (i = l)) as [->|Hne].
    - rewrite Ho. split; [by left|by eexists].
    - rewrite Hobj by done. split; [by right|]. by intros [?|?]. }
  split; [done|]. split.
  { apply set_eq. intros a. rewrite elem_of_union, elem_of_list_to_set, !elem_of_dom.
    destruct (decide (a ∈ cells.*1)) as [Ha|Ha].
    - split; [by right|]. intros _. by apply Hin'.
    - rewrite Hsame by done. split; [by left|]. by intros [?|?]. }
  split.
  { intros a n Hn. rewrite Hsame; [done|]. intros Ha.
    rewrite Hfresh in Hn; done. }
  pose proof (heap_size_change (heap m) (heap m') [] cells.*1) as Hsize.
  rewrite length_fmap in Hsize. simpl in Hsize.
  rewrite <- Hv, length_fmap. rewrite <- Hsize; [lia|constructor|..]; try done.
  - by eapply chain_NoDup.
  - intros a Ha. by apply elem_of_nil in Ha.
  - intros a Ha. by apply elem_of_nil in Ha.
  - intros a Ha _. by apply Hsame.
Qed.

(** X13.  Copy assignment between two distinct well-formed lists releases
    every node the target owned before, gives it as many new nodes as the
    source has, changes no other node, and creates or removes no list
    object: nothing is leaked and no temporary survives. *)
Theorem assign_releases_old (m : mem T) (this rhs : positive)
    (tcells rcells : list (positive * T)) (fuel : nat) :
  this ≠ rhs →
  list_at m this tcells → list_at m rhs rcells →
  length tcells ≤ fuel → length rcells ≤ fuel →
  room m (2 * length rcells) →
  ∃ cells m',
    assign fuel this rhs m = Ok this m' ∧
    list_at m' this cells ∧ cells.*2 = rcells.*2 ∧
    (∀ a, a ∈ tcells.*1 → heap m' !! a = None) ∧
    (∀ a, a ∈ cells.*1 → heap m !! a = None) ∧
    (∀ a, a ∉ cells.*1 → a ∉ tcells.*1 → heap m' !! a = heap m !! a) ∧
    size (heap m') + length tcells = size (heap m) + length rcells ∧
    dom (objs m') = dom (objs m).
Proof.
  intros Hne Ht Hr Hft Hfr Hroom.
  destruct (assign_run this rhs tcells rcells fuel m Hne Ht Hr Hft Hfr)
    as (cells & m' & Hrun & Hv & Hl & Hfresh & Hsame & Hgone & Hobj).
  { unfold room in Hroom. lia. }
  pose proof Ht as (ot & Hot & Hcht & _). pose proof Hl as (o & Ho & Hch & _).
  exists cells, m'. split; [done|]. split; [done|]. split; [done|].
  split; [done|]. split; [done|]. split; [done|]. split.
  { replace (length rcells) with (length cells.*1); cycle 1.
    { rewrite length_fmap, <- (length_fmap snd cells), Hv. by rewrite length_fmap. }
    rewrite <- (length_fmap fst tcells).
    apply heap_size_change; try done.
    - by eapply chain_NoDup.
    - by eapply chain_NoDup.
    - intros a Ha. by eapply chain_all_Some.
    - intros a Ha. by eapply chain_all_Some. }
  apply set_eq. intros i. rewrite !elem_of_dom.
  destruct (decide (i = this)) as [->|Hi].
  - rewrite Ho, Hot. split; by eexists.
  - by rewrite Hobj.
Qed.

(** X16.  The first loop of [CopyList]: pushing the elements of an array to
    the front of a well-formed list one after the other puts them before
    what the list held, in reverse order. *)
Theorem push_loop_reverses (S : list T) (fuel : nat) (m : mem T)
    (dst : positive) (ys : list T) :
  repr m dst ys → length S ≤ fuel → room m (length S) →
  ∃ m',
    CopyList_loop fuel dst (init_begin S) (init_end S) m = Ok tt m' ∧
    repr m' dst (reverse S ++ ys) ∧
    GetSize dst m' = Ok (Z.of_nat (length S + length ys)) m' ∧
    (∀ l, l ≠ dst → objs m' !! l = objs m !! l) ∧
    (∀ a n, heap m !! a = Some n → heap m' !! a = Some n).
Proof.
  intros (dcells & Hl & <-) Hfuel Hroom.
  destruct (CopyList_loop_run (λ _, True) dst (init_end S) S (init_begin S) fuel m dcells)
    as (new & m' & Hrun & _ & Hl' & Hv & Hfresh & Hsame & Hobj & _); try done.
  { pose proof (array_range S 0) as Hr. rewrite drop_0 in Hr. apply Hr. lia. }
  exists m'. split; [done|]. split.
  { exists (new ++ dcells). split; [done|]. by rewrite fmap_app, Hv. }
  split.
  { rewrite (GetSize_run _ _ _ Hl'). do 2 f_equal.
    rewrite length_app, <- (length_fmap snd new), Hv, length_reverse.
    by rewrite length_fmap. }
  split; [done|].
  intros a n Hn. rewrite Hsame; [done|]. intros Ha. rewrite Hfresh in Hn; done.
Qed.

(** X17.  Comparing with an empty list, whatever the element type's [==]
    and [<] are: an empty list equals exactly the empty lists, is less than
    every non-empty list, and no list is less than it. *)
Theorem compare_with_empty (m : mem T) (e r : positive) (ys : list T)
    (fuel : nat) :
  repr m e [] → repr m r ys →
  op_eq fuel e r m = Ok (bool_decide (ys = [])) m ∧
  op_eq fuel r e m = Ok (bool_decide (ys = [])) m ∧
  op_ne fuel e r m = Ok (negb (bool_decide (ys = []))) m ∧
  op_lt fuel e r m = Ok (negb (bool_decide (ys = []))) m ∧
  op_lt fuel r e m = Ok false m ∧
  op_le fuel e r m = Ok true m ∧
  op_ge fuel e r m = Ok (bool_decide (ys = [])) m.
Proof.
  intros (ce & He & Hnil) (cr & Hr & <-).
  destruct ce; [clear Hnil|done].
  pose proof (begin_run _ _ _ He) as Hbe. pose proof (begin_run _ _ _ Hr) as Hbr.
  change (nth_ptr [] 0) with nullptr in Hbe.
  assert (Hnil : bool_decide (cr.*2 = []) = bool_decide (nth_ptr cr 0 = nullptr)).
  { by destruct cr. }
  assert (Heq1 : op_eq fuel e r m = Ok (bool_decide (cr.*2 = [])) m).
  { unfold op_eq, end_, bind. crunch ltac:(rewrite ?Hbe, ?Hbr). rewrite Hnil.
    by destruct fuel. }
  assert (Heq2 : op_eq fuel r e m = Ok (bool_decide (cr.*2 = [])) m).
  { unfold op_eq, end_, bind. crunch ltac:(rewrite ?Hbe, ?Hbr). rewrite Hnil.
    destruct fuel; simpl; unfold iter_eqb; simpl;
      by rewrite !andb_false_r, andb_true_r. }
  assert (Hlt1 : op_lt fuel e r m = Ok (negb (bool_decide (cr.*2 = []))) m).
  { unfold op_lt, end_, bind. crunch ltac:(rewrite ?Hbe, ?Hbr). rewrite Hnil.
    by destruct fuel. }
  assert (Hlt2 : op_lt fuel r e m = Ok false m).
  { unfold op_lt, end_, bind. crunch ltac:(rewrite ?Hbe, ?Hbr).
    destruct fuel; simpl; unfold iter_eqb; simpl;
      by rewrite !andb_false_r. }
  split; [done|]. split; [done|]. split.
  { unfold op_ne, bind. by rewrite Heq1. }
  split; [done|]. split; [done|]. split.
  { unfold op_le, bind. by rewrite Hlt2. }
  unfold op_ge, bind. rewrite Hlt1. simpl. by rewrite negb_involutive.
Qed.

(** X18.  Constructing a list (from a sequence, or as a copy of a
    well-formed list) and destroying it again gives back exactly the memory
    from before the construction: every node allocated on the way is
    released and no list object is left over. *)
Theorem construct_destroy_roundtrip (m : mem T) (fuel : nat) :
  (∀ S, length S ≤ fuel → room m (2 * length S) →
     (l <- new_from fuel S ;; destroy fuel l) m = Ok tt m) ∧
  (∀ other ocells, list_at m other ocells → length ocells ≤ fuel →
     room m (2 * length ocells) →
     (l <- new_copy fuel other ;; destroy fuel l) m = Ok tt m).
Proof.
  assert (Hback : ∀ l cells m',
            l = fresh (dom (objs m)) →
            list_at m' l cells → length cells ≤ fuel →
            (∀ a, a ∈ cells.*1 → heap m !! a = None) →
            (∀ a, a ∉ cells.*1 → heap m' !! a = heap m !! a) →
            (∀ l', l' ≠ l → objs m' !! l' = objs m !! l') →
            destroy fuel l m' = Ok tt m).
  { intros l cells m' -> Hl Hlen Hfresh Hsame Hobj.
    rewrite (destroy_run _ cells) by done. f_equal.
    rewrite (free_all_restore (heap m) (heap m') cells Hfresh Hsame).
    destruct m as [h os]. simpl in *. f_equal.
    apply map_eq. intros i. destruct (decide (i = fresh (dom os))) as [->|Hi].
    - rewrite lookup_delete_eq. symmetry. apply fresh_obj_None.
    - rewrite lookup_delete_ne by done. by apply Hobj. }
  split.
  - intros S Hfuel Hroom.
    destruct (new_from_run S fuel m Hfuel)
      as (cells & m' & Hrun & Hv & Hl & Hfresh & Hsame & Hobj).
    { unfold room in Hroom. lia. }
    unfold bind. rewrite Hrun. eapply Hback; try done.
    rewrite <- (length_fmap snd cells), Hv. done.
  - intros other ocells Ho Hfuel Hroom.
    destruct (new_copy_run other ocells fuel m Ho Hfuel)
      as (cells & m' & Hrun & Hv & Hl & Hfresh & Hsame & Hobj).
    { unfold room in Hroom. lia. }
    unfold bind. rewrite Hrun. eapply Hback; try done.
    rewrite <- (length_fmap snd cells), Hv. by rewrite length_fmap.
Qed.

Lemma chain_insert_after h p pre b vb r post a v :
  chain h p (pre ++ (b, vb) :: post) →
  h !! b = Some (mkNode vb r) →
  h !! a = None →
  chain (<[b := mkNode vb (HeapNode a)]> (<[a := mkNode v r]> h)) p
    (pre ++ (b, vb) :: (a, v) :: post).
Proof.
  intros Hch Hb Ha.
  assert (Hfresh : a ∉ (pre ++ (b, vb) :: post).*1).
  { intros Hin. destruct (chain_all_Some _ _ _ _ Hch Hin) as [n Hn]. congruence. }
  rewrite fmap_app in Hfresh. simpl in Hfresh.
  apply not_elem_of_app in Hfresh as [Hf1 Hf2].
  apply not_elem_of_cons in Hf2 as [Hf2 Hf3].
  destruct (chain_split _ _ _ _ _ _ Hch) as (r' & Hpre & Hb' & Hpost & Hn1 & Hn2).
  rewrite Hb in Hb'. injection Hb' as <-.
  apply lseg_app. exists (HeapNode b). split.
  - eapply lseg_frame; [|exact Hpre]. intros c Hc.
    rewrite !lookup_insert_ne; [done|by intros <-|by intros <-].
  - simpl. split; [done|]. eexists. split; [apply lookup_insert_eq|].
    split; [done|]. eexists. split.
    { rewrite lookup_insert_ne by done. apply lookup_insert_eq. }
    eapply lseg_frame; [|exact Hpost]. intros c Hc.
    rewrite !lookup_insert_ne; [done|by intros <-|by intros <-].
Qed.

Lemma InsertAfter_other_head_run m l1 o1 l2 o2 v :
  l1 ≠ l2 →
  objs m !! l1 = Some o1 → objs m !! l2 = Some o2 →
  (Z.of_nat (size (heap m)) < SIZE_MAX)%Z →
  InsertAfter l1 (mkIterator (HeadOf l2)) v m =
    Ok (mkIterator (HeapNode (fresh (dom (heap m)))))
       (mkMem (<[fresh (dom (heap m)) := mkNode v (next_node (head_ o2))]> (heap m))
          (<[l1 := mkList (head_ o1) (size_incr (size_ o1))]>
             (<[l2 := mkList (mkNode (value (head_ o2))
                                     (HeapNode (fresh (dom (heap m))))) (size_ o2)]>
                (objs m)))).
Proof.
  intros Hne H1 H2 Hcap.
  unfold InsertAfter, bind, new_Node, load_next, bind, load,
    store_next, load_size, store_size.
  simpl. rewrite bool_decide_eq_true_2 by done.
  crunch ltac:(rewrite ?H2, ?lookup_insert_eq, ?(lookup_insert_ne _ l2 l1), ?H1 by done).
  rewrite (lookup_insert_ne _ l1 l2) by done. by rewrite lookup_insert_eq.
Qed.

(** X15.  Nothing ties the position argument of [InsertAfter] to the list
    it is called on.  Called on one well-formed list with a position of
    another, it links the new node into the other list's chain and counts
    it in its own [size_]: afterwards both lists have a size that differs
    from their number of nodes, so neither satisfies the invariant. *)
Theorem insert_after_foreign_position (m : mem T) (l1 l2 : positive)
    (c1 c2 : list (positive * T)) (i : nat) (v : T) :
  l1 ≠ l2 →
  list_at m l1 c1 → list_at m l2 c2 →
  (∀ a, a ∈ c1.*1 → a ∉ c2.*1) →
  i ≤ length c2 → room m 1 →
  ∃ a m' o1' o2',
    InsertAfter l1 (mkIterator (pos_ptr l2 c2 i)) v m
      = Ok (mkIterator (HeapNode a)) m' ∧
    objs m' !! l1 = Some o1' ∧
    chain (heap m') (next_node (head_ o1')) c1 ∧
    size_ o1' = (Z.of_nat (length c1) + 1)%Z ∧
    objs m' !! l2 = Some o2' ∧
    chain (heap m') (next_node (head_ o2')) (take i c2 ++ (a, v) :: drop i c2) ∧
    size_ o2' = Z.of_nat (length c2) ∧
    ¬ Inv m' l1 ∧ ¬ Inv m' l2.
Proof.
  intros Hne Hl1 Hl2 Hdisj Hi Hroom.
  pose proof Hl1 as (o1 & Ho1 & Hch1 & Hsz1 & Hmax1).
  pose proof Hl2 as (o2 & Ho2 & Hch2 & Hsz2 & Hmax2).
  assert (Hcap : (Z.of_nat (size (heap m)) < SIZE_MAX)%Z) by (unfold room in Hroom; lia).
  pose proof (chain_length_le _ _ _ Hch1) as Hle1.
  set (a := fresh (dom (heap m))).
  assert (Hfa : heap m !! a = None) by apply not_elem_of_dom, is_fresh.
  assert (Hincr : size_incr (size_ o1) = (Z.of_nat (length c1) + 1)%Z).
  { rewrite size_incr_small; lia. }
  assert (Hbroken : ∀ m' o1' o2' c2',
            objs m' !! l1 = Some o1' → chain (heap m') (next_node (head_ o1')) c1 →
            size_ o1' = (Z.of_nat (length c1) + 1)%Z →
            objs m' !! l2 = Some o2' → chain (heap m') (next_node (head_ o2')) c2' →
            size_ o2' = Z.of_nat (length c2) → length c2' = S (length c2) →
            ¬ Inv m' l1 ∧ ¬ Inv m' l2).
  { intros m' o1' o2' c2' H1 Hc1 Hs1 H2 Hc2 Hs2 Hlen. split.
    - intros (c & o & Ho & Hc & Hs & _). rewrite H1 in Ho. injection Ho as <-.
      rewrite (chain_functional _ _ _ _ Hc Hc1) in Hs. lia.
    - intros (c & o & Ho & Hc & Hs & _). rewrite H2 in Ho. injection Ho as <-.
      rewrite (chain_functional _ _ _ _ Hc Hc2) in Hs. lia. }
  destruct (pos_ptr_cases l2 c2 i Hi) as [[-> Hp]|(pre & b & vb & post & -> & -> & Hp)].
  - rewrite Hp, take_0, drop_0. simpl.
    set (o1' := mkList (head_ o1) (size_incr (size_ o1))).
    set (o2' := mkList (mkNode (value (head_ o2)) (HeapNode a)) (size_ o2)).
    set (m' := mkMem (<[a := mkNode v (next_node (head_ o2))]> (heap m))
                 (<[l1 := o1']> (<[l2 := o2']> (objs m)))).
    assert (Hc1' : chain (heap m') (next_node (head_ o1')) c1).
    { eapply lseg_frame; [|exact Hch1]. intros c Hc.
      apply lookup_insert_ne. intros <-.
      destruct (chain_all_Some _ _ _ _ Hch1 Hc) as [n Hn]. congruence. }
    assert (Hc2' : chain (heap m') (next_node (head_ o2')) ((a, v) :: c2)).
    { unfold chain. simpl. split; [done|]. eexists.
      split; [apply lookup_insert_eq|].
      eapply lseg_frame; [|exact Hch2]. intros c Hc.
      apply lookup_insert_ne. intros <-.
      destruct (chain_all_Some _ _ _ _ Hch2 Hc) as [n Hn]. congruence. }
    assert (H1' : objs m' !! l1 = Some o1') by apply lookup_insert_eq.
    assert (H2' : objs m' !! l2 = Some o2').
    { unfold m'. simpl. rewrite lookup_insert_ne by done. apply lookup_insert_eq. }
    exists a, m', o1', o2'.
    split; [by apply InsertAfter_other_head_run|].
    split; [done|]. split; [done|]. split; [done|]. split; [done|].
    split; [done|]. split; [done|].
    by apply (Hbroken m' o1' o2' ((a, v) :: c2)).
  - rewrite Hp, take_S_middle, drop_S_middle.
    destruct (chain_split _ _ _ _ _ _ Hch2) as (r & _ & Hb & _ & _ & _).
    pose proof (fresh_heap_ne _ _ _ Hb) as Hnab.
    assert (Hbc1 : b ∉ c1.*1).
    { intros Hin. apply (Hdisj b Hin). rewrite fmap_app. simpl.
      apply elem_of_app. right. left. }
    set (o1' := mkList (head_ o1) (size_incr (size_ o1))).
    set (m' := insert_mem m l1 o1 b (mkNode vb r) v).
    assert (Hc1' : chain (heap m') (next_node (head_ o1')) c1).
    { eapply lseg_frame; [|exact Hch1]. intros c Hc. unfold m', insert_mem. simpl.
      rewrite !lookup_insert_ne; [done| |by intros <-]. intros Heq.
      destruct (chain_all_Some _ _ _ _ Hch1 Hc) as [n Hn].
      fold a in Heq. congruence. }
    pose proof (chain_insert_after _ _ _ _ _ _ _ a v Hch2 Hb Hfa) as Hc2'.
    assert (H1' : objs m' !! l1 = Some o1') by apply lookup_insert_eq.
    assert (H2' : objs m' !! l2 = Some o2).
    { unfold m', insert_mem. simpl. by rewrite lookup_insert_ne. }
    exists a, m', o1', o2.
    split; [by apply (InsertAfter_node_run _ _ o1 b (mkNode vb r))|].
    split; [done|]. split; [done|]. split; [done|]. split; [done|].
    split; [by rewrite <- app_assoc|]. split; [done|].
    apply (Hbroken m' o1' o2 (pre ++ (b, vb) :: (a, v) :: post)); try done.
    rewrite !length_app. simpl. lia.
Qed.

End Proofs.

(** ** The theorems at work on concrete lists *)

(** The scenario of the specification: build [{1, 2, 3}], insert [42] after
    the first element, erase it again, clear. *)
Example spec_scenario :
  result ((l <- new_from 3 [1; 2; 3]%Z ;;
           s0 <- GetSize l ;;
           b <- begin l ;;
           x <- iter_deref b ;;
           InsertAfter l b 42%Z ;;
           xs1 <- to_list 4 l ;;
           s1 <- GetSize l ;;
           b' <- begin l ;;
           EraseAfter l b' ;;
           xs2 <- to_list 4 l ;;
           s2 <- GetSize l ;;
           Clear 4 l ;;
           s3 <- GetSize l ;;
           e <- IsEmpty l ;;
           ret (s0, x, xs1, s1, xs2, s2, s3, e)) empty_mem)
  = Some (3, 1, [1; 42; 2; 3], 4, [1; 2; 3], 3, 0, true)%Z.
Proof. vm_compute. reflexivity. Qed.

(** A copy, then the original is pushed to and the copy popped from. *)
Example copy_then_mutate :
  result ((l <- new_from 3 [1; 2; 3]%Z ;;
           l2 <- new_copy 3 l ;;
           PushFront l 9%Z ;;
           PopFront l2 ;;
           a <- to_list 4 l ;;
           b <- to_list 4 l2 ;;
           ret (a, b)) empty_mem)
  = Some ([9; 1; 2; 3], [2; 3])%Z.
Proof. vm_compute. reflexivity. Qed.

Lemma construct_from_sequence_witness :
  ∃ l m',
    new_from 3 [1; 2; 3]%Z empty_mem = Ok l m' ∧
    to_list 3 l m' = Ok [1; 2; 3]%Z m' ∧
    GetSize l m' = Ok 3%Z m' ∧
    repr m' l [1; 2; 3]%Z.
Proof.
  apply (construct_from_sequence [1; 2; 3]%Z 3 empty_mem).
  - simpl. lia.
  - unfold room. apply Z.leb_le. vm_compute. reflexivity.
Defined.

Lemma invariant_preserved_witness :
  (∃ m', PopFront 1 mem_two = Ok tt m' ∧ Inv m' 1) ∧
  (∃ it m', EraseAfter 1 (mkIterator (pos_ptr 1 cells123 1)) mem_two = Ok it m' ∧
            Inv m' 1) ∧
  (∃ m', Clear 3 1 mem_two = Ok tt m' ∧ Inv m' 1) ∧
  (∃ m', swap 1 2 mem_two = Ok tt m' ∧ Inv m' 1 ∧ Inv m' 2).
Proof.
  destruct (invariant_preserved mem_two 1 cells123 3)
    as (_ & _ & _ & _ & _ & Hpop & _ & Herase & Hclear & Hswap).
  - apply (cells_of_sound 3). vm_compute. reflexivity.
  - simpl. lia.
  - unfold heap_ok, room. apply Z.leb_le. vm_compute. reflexivity.
  - split; [apply Hpop; discriminate|].
    split; [apply Herase; simpl; lia|].
    split; [exact Hclear|].
    apply Hswap. exists cells12. apply (cells_of_sound 3). vm_compute. reflexivity.
Defined.

Lemma copy_is_deep_witness :
  ∃ L2 m',
    new_copy 3 1 mem123 = Ok L2 m' ∧
    repr m' L2 [1; 2; 3]%Z ∧ repr m' 1 [1; 2; 3]%Z ∧
    separate m' 1 L2 ∧
    independent 3 m' 1 L2 ∧ independent 3 m' L2 1.
Proof.
  destruct (copy_is_deep mem123 1 cells123 3)
    as [(L2 & m' & Hrun & H2 & H1 & _ & _ & Hsep & Hi1 & Hi2) _].
  - apply (cells_of_sound 3). vm_compute. reflexivity.
  - simpl. lia.
  - unfold room. apply Z.leb_le. vm_compute. reflexivity.
  - exists L2, m'.
    exact (conj Hrun (conj H2 (conj H1 (conj Hsep (conj Hi1 Hi2))))).
Defined.

Lemma insert_after_before_begin_is_push_front_witness :
  ∃ it m',
    (pos <- before_begin 1 ;; InsertAfter 1 pos 7%Z) mem123 = Ok it m' ∧
    PushFront 1 7%Z mem123 = Ok tt m' ∧
    repr m' 1 [7; 1; 2; 3]%Z ∧
    GetSize 1 m' = Ok 4%Z m' ∧
    begin 1 m' = Ok it m' ∧
    iter_deref it m' = Ok 7%Z m'.
Proof.
  apply (insert_after_before_begin_is_push_front mem123 1 7%Z).
  - exists cells123. split; [|reflexivity].
    apply (cells_of_sound 3). vm_compute. reflexivity.
  - unfold room. apply Z.leb_le. vm_compute. reflexivity.
Defined.

Lemma erase_after_removes_successor_witness :
  ∃ m',
    EraseAfter 1 (mkIterator (pos_ptr 1 cells123 2)) mem123
      = Ok (mkIterator nullptr) m' ∧
    heap m' !! 4%positive = None ∧
    repr m' 1 [1; 2]%Z ∧
    GetSize 1 m' = Ok 2%Z m'.
Proof.
  destruct (erase_after_removes_successor mem123 1 cells123 2)
    as (c & m' & Hc & _ & Hrun & Hgone & _ & _ & Hrepr & Hsize & _).
  - apply (cells_of_sound 3). vm_compute. reflexivity.
  - simpl. lia.
  - injection Hc as <-. exists m'.
    exact (conj Hrun (conj Hgone (conj Hrepr Hsize))).
Defined.

Lemma equality_operators_witness :
  ∃ b,
    op_eq 3 1 2 mem_two = Ok b mem_two ∧
    (b = true ↔ seq_equal [1; 2; 3]%Z [1; 2]%Z) ∧
    op_ne 3 1 2 mem_two = Ok (negb b) mem_two.
Proof.
  apply (equality_operators mem_two 1 2 [1; 2; 3]%Z [1; 2]%Z 3).
  - exists cells123. split; [|reflexivity].
    apply (cells_of_sound 3). vm_compute. reflexivity.
  - exists cells12. split; [|reflexivity].
    apply (cells_of_sound 3). vm_compute. reflexivity.
  - simpl. lia.
Defined.

Lemma ordering_operators_witness :
  ∃ lt gt : bool,
    op_lt 3 2 1 mem_two = Ok lt mem_two ∧
    (lt = true ↔ seq_less [1; 2]%Z [1; 2; 3]%Z) ∧
    op_lt 3 1 2 mem_two = Ok gt mem_two ∧
    (gt = true ↔ seq_less [1; 2; 3]%Z [1; 2]%Z) ∧
    op_gt 3 2 1 mem_two = Ok gt mem_two ∧
    op_le 3 2 1 mem_two = Ok (negb gt) mem_two ∧
    op_ge 3 2 1 mem_two = Ok (negb lt) mem_two ∧
    (∀ y zs, [1; 2; 3]%Z = [1; 2]%Z ++ y :: zs →
       lt = true ∧ ((∀ x, x ∈ [1; 2]%Z → ltT x x = false) → gt = false)).
Proof.
  apply (ordering_operators mem_two 2 1 [1; 2]%Z [1; 2; 3]%Z 3).
  - exists cells12. split; [|reflexivity].
    apply (cells_of_sound 3). vm_compute. reflexivity.
  - exists cells123. split; [|reflexivity].
    apply (cells_of_sound 3). vm_compute. reflexivity.
  - simpl. lia.
  - simpl. lia.
Defined.

Lemma swap_exchanges_witness :
  ∃ m',
    swap 1 2 mem_two = Ok tt m' ∧
    free_swap 1 2 mem_two = Ok tt m' ∧
    heap m' = heap mem_two ∧
    (∀ l, l ≠ 1%positive → l ≠ 2%positive → objs m' !! l = objs mem_two !! l) ∧
    (next_node ∘ head_ <$> objs m' !! 1%positive
       = next_node ∘ head_ <$> objs mem_two !! 2%positive) ∧
    (next_node ∘ head_ <$> objs m' !! 2%positive
       = next_node ∘ head_ <$> objs mem_two !! 1%positive) ∧
    (size_ <$> objs m' !! 1%positive = size_ <$> objs mem_two !! 2%positive) ∧
    (size_ <$> objs m' !! 2%positive = size_ <$> objs mem_two !! 1%positive) ∧
    (value ∘ head_ <$> objs m' !! 1%positive
       = value ∘ head_ <$> objs mem_two !! 1%positive) ∧
    (value ∘ head_ <$> objs m' !! 2%positive
       = value ∘ head_ <$> objs mem_two !! 2%positive) ∧
    list_at m' 1 cells12 ∧ list_at m' 2 cells123 ∧
    GetSize 1 m' = Ok 2%Z m' ∧
    GetSize 2 m' = Ok 3%Z m' ∧
    (separate mem_two 1 2 → separate m' 1 2).
Proof.
  apply (swap_exchanges mem_two 1 2 cells123 cells12).
  - apply (cells_of_sound 3). vm_compute. reflexivity.
  - apply (cells_of_sound 3). vm_compute. reflexivity.
Defined.

Lemma push_front_pop_front_witness :
  ∃ m1,
    PushFront 1 7%Z mem123 = Ok tt m1 ∧
    (it <- begin 1 ;; iter_deref it) m1 = Ok 7%Z m1 ∧
    repr m1 1 [7; 1; 2; 3]%Z ∧
    PopFront 1 m1 = Ok tt mem123 ∧
    (s <- (PushFront 1 7%Z ;; PopFront 1 ;; GetSize 1) ;; ret s) mem123
      = Ok 3%Z mem123.
Proof.
  apply (push_front_pop_front mem123 1 [1; 2; 3]%Z 7%Z).
  - exists cells123. split; [|reflexivity].
    apply (cells_of_sound 3). vm_compute. reflexivity.
  - unfold room. apply Z.leb_le. vm_compute. reflexivity.
Defined.

(** ** The further properties on concrete lists *)

Lemma destructor_releases_all_witness :
  ∃ m',
    destroy 3 1 mem_two = Ok tt m' ∧
    objs m' = delete 1%positive (objs mem_two) ∧
    (∀ a, a ∈ cells123.*1 → heap m' !! a = None) ∧
    (∀ a, a ∉ cells123.*1 → heap m' !! a = heap mem_two !! a) ∧
    size (heap m') + length cells123 = size (heap mem_two) ∧
    (∀ l' c', l' ≠ 1%positive → list_at mem_two l' c' →
       (∀ a, a ∈ cells123.*1 → a ∉ c'.*1) → list_at m' l' c').
Proof.
  apply (destructor_releases_all mem_two 1 cells123 3).
  - apply (cells_of_sound 3). vm_compute. reflexivity.
  - simpl. lia.
Defined.

Lemma clear_empties_witness :
  ∃ m',
    Clear 3 1 mem123 = Ok tt m' ∧
    repr m' 1 [] ∧
    GetSize 1 m' = Ok 0%Z m' ∧
    IsEmpty 1 m' = Ok true m' ∧
    (b <- begin 1 ;; e <- end_ 1 ;; ret (iter_eqb b e)) m' = Ok true m' ∧
    to_list 3 1 m' = Ok [] m' ∧
    (∀ a, a ∈ cells123.*1 → heap m' !! a = None) ∧
    (∀ a, a ∉ cells123.*1 → heap m' !! a = heap mem123 !! a) ∧
    size (heap m') + length cells123 = size (heap mem123) ∧
    Clear 3 1 m' = Ok tt m'.
Proof.
  apply (clear_empties mem123 1 cells123 3).
  - apply (cells_of_sound 3). vm_compute. reflexivity.
  - simpl. lia.
Defined.

Lemma observers_agree_witness :
  GetSize 1 mem123 = Ok 3%Z mem123 ∧
  to_list 3 1 mem123 = Ok [1; 2; 3]%Z mem123 ∧
  IsEmpty 1 mem123 = Ok false mem123 ∧
  (b <- begin 1 ;; e <- end_ 1 ;; ret (iter_eqb b e)) mem123 = Ok false mem123.
Proof.
  apply (observers_agree mem123 1 [1; 2; 3]%Z).
  exists cells123. split; [|reflexivity].
  apply (cells_of_sound 3). vm_compute. reflexivity.
Defined.

Lemma construction_leaks_nothing_witness :
  ∃ l cells m',
    new_from 3 [1; 2; 3]%Z empty_mem = Ok l m' ∧
    list_at m' l cells ∧ cells.*2 = [1; 2; 3]%Z ∧
    objs (@empty_mem Z) !! l = None ∧
    dom (objs m') = {[l]} ∪ dom (objs (@empty_mem Z)) ∧
    (∀ l', l' ≠ l → objs m' !! l' = objs (@empty_mem Z) !! l') ∧
    dom (heap m') = dom (heap (@empty_mem Z)) ∪ list_to_set cells.*1 ∧
    (∀ a n, heap (@empty_mem Z) !! a = Some n → heap m' !! a = Some n) ∧
    size (heap m') = size (heap (@empty_mem Z)) + 3.
Proof.
  apply (construction_leaks_nothing [1; 2; 3]%Z 3 empty_mem).
  - simpl. lia.
  - unfold room. apply Z.leb_le. vm_compute. reflexivity.
Defined.

Lemma pop_front_removes_first_witness :
  (it <- begin 1 ;; iter_deref it) mem123 = Ok 1%Z mem123 ∧
  ∃ m',
    PopFront 1 mem123 = Ok tt m' ∧
    repr m' 1 [2; 3]%Z ∧
    GetSize 1 m' = Ok 2%Z m' ∧
    size (heap m') + 1 = size (heap mem123) ∧
    (∀ l', l' ≠ 1%positive → objs m' !! l' = objs mem123 !! l').
Proof.
  apply (pop_front_removes_first mem123 1 [1; 2; 3]%Z).
  exists cells123. split; [|reflexivity].
  apply (cells_of_sound 3). vm_compute. reflexivity.
Defined.

Lemma insert_after_at_position_witness :
  ∃ a m',
    heap mem123 !! a = None ∧
    InsertAfter 1 (mkIterator (pos_ptr 1 cells123 2)) 7%Z mem123
      = Ok (mkIterator (HeapNode a)) m' ∧
    list_at m' 1 (take 2 cells123 ++ (a, 7%Z) :: drop 2 cells123) ∧
    repr m' 1 [1; 2; 7; 3]%Z ∧
    GetSize 1 m' = Ok 4%Z m' ∧
    iter_deref (mkIterator (HeapNode a)) m' = Ok 7%Z m' ∧
    load_next (pos_ptr 1 cells123 2) m' = Ok (HeapNode a) m' ∧
    (∀ b n, heap mem123 !! b = Some n → value <$> heap m' !! b = Some (value n)).
Proof.
  apply (insert_after_at_position mem123 1 cells123 2 7%Z).
  - apply (cells_of_sound 3). vm_compute. reflexivity.
  - simpl. lia.
  - unfold room. apply Z.leb_le. vm_compute. reflexivity.
Defined.

Lemma insert_after_erase_after_witness :
  ∃ it m1,
    InsertAfter 1 (mkIterator (pos_ptr 1 cells123 2)) 7%Z mem123 = Ok it m1 ∧
    EraseAfter 1 (mkIterator (pos_ptr 1 cells123 2)) m1
      = Ok (mkIterator (nth_ptr cells123 2)) mem123.
Proof.
  apply (insert_after_erase_after mem123 1 cells123 2 7%Z).
  - apply (cells_of_sound 3). vm_compute. reflexivity.
  - simpl. lia.
  - unfold room. apply Z.leb_le. vm_compute. reflexivity.
Defined.

Lemma erase_after_before_begin_is_pop_front_witness :
  ∃ m',
    PopFront 1 mem123 = Ok tt m' ∧
    (pos <- before_begin 1 ;; EraseAfter 1 pos ;; ret tt) mem123 = Ok tt m'.
Proof.
  apply (erase_after_before_begin_is_pop_front mem123 1 cells123).
  apply (cells_of_sound 3). vm_compute. reflexivity.
Defined.

Lemma swap_involutive_witness :
  (swap 1 2 ;; swap 1 2) mem_two = Ok tt mem_two.
Proof.
  apply (swap_involutive mem_two 1 2).
  - apply (bool_decide_unpack _). vm_compute. exact I.
  - apply (bool_decide_unpack _). vm_compute. exact I.
Defined.

Lemma iterator_walk_witness :
  (∀ i, i ≤ length cells123 →
     (b <- begin 1 ;; iter_advance i b) mem123
       = Ok (mkIterator (nth_ptr cells123 i)) mem123) ∧
  (∀ i x, cells123.*2 !! i = Some x →
     iter_deref (mkIterator (nth_ptr cells123 i)) mem123 = Ok x mem123) ∧
  (b <- begin 1 ;; it <- iter_advance (length cells123) b ;;
   e <- end_ 1 ;; ret (iter_eqb it e)) mem123 = Ok true mem123 ∧
  (∀ i, i < length cells123 →
     iter_post_incr (mkIterator (nth_ptr cells123 i)) mem123
       = Ok (mkIterator (nth_ptr cells123 i), mkIterator (nth_ptr cells123 (S i)))
            mem123) ∧
  (e <- end_ 1 ;; iter_incr e) mem123 = Fault AssertionFailed ∧
  (e <- end_ 1 ;; iter_deref e) mem123 = Fault UndefinedBehaviour.
Proof.
  apply (iterator_walk mem123 1 cells123).
  apply (cells_of_sound 3). vm_compute. reflexivity.
Defined.

Lemma positions_distinct_witness :
  iter_eqb (mkIterator (pos_ptr 1 cells123 1)) (mkIterator (pos_ptr 1 cells123 3))
    = false ∧
  iter_neb (mkIterator (pos_ptr 1 cells123 1)) (mkIterator (pos_ptr 1 cells123 3))
    = true.
Proof.
  apply (positions_distinct mem123 1 cells123 1 3).
  - apply (cells_of_sound 3). vm_compute. reflexivity.
  - simpl. lia.
  - simpl. lia.
Defined.

Lemma write_through_iterator_witness :
  ∃ m',
    iter_write (mkIterator (nth_ptr cells123 1)) 9%Z mem123 = Ok tt m' ∧
    list_at m' 1 (<[1 := (5%positive, 9%Z)]> cells123) ∧
    repr m' 1 [1; 9; 3]%Z ∧
    GetSize 1 m' = Ok 3%Z m' ∧
    iter_deref (mkIterator (nth_ptr cells123 1)) m' = Ok 9%Z m' ∧
    objs m' = objs mem123 ∧
    (∀ b, b ≠ 5%positive → heap m' !! b = heap mem123 !! b).
Proof.
  apply (write_through_iterator mem123 1 cells123 1 5%positive 2%Z 9%Z).
  - apply (cells_of_sound 3). vm_compute. reflexivity.
  - reflexivity.
Defined.

Lemma assign_releases_old_witness :
  ∃ cells m',
    assign 3 2 1 mem_two = Ok 2%positive m' ∧
    list_at m' 2 cells ∧ cells.*2 = [1; 2; 3]%Z ∧
    (∀ a, a ∈ cells12.*1 → heap m' !! a = None) ∧
    (∀ a, a ∈ cells.*1 → heap mem_two !! a = None) ∧
    (∀ a, a ∉ cells.*1 → a ∉ cells12.*1 → heap m' !! a = heap mem_two !! a) ∧
    size (heap m') + 2 = size (heap mem_two) + 3 ∧
    dom (objs m') = dom (objs mem_two).
Proof.
  apply (assign_releases_old mem_two 2 1 cells12 cells123 3).
  - discriminate.
  - apply (cells_of_sound 3). vm_compute. reflexivity.
  - apply (cells_of_sound 3). vm_compute. reflexivity.
  - simpl. lia.
  - simpl. lia.
  - unfold room. apply Z.leb_le. vm_compute. reflexivity.
Defined.

Lemma end_position_misuse_witness :
  EraseAfter 1 (mkIterator (pos_ptr 1 cells123 3)) mem123
    = Fault UndefinedBehaviour ∧
  (e <- end_ 1 ;; EraseAfter 1 e) mem123 = Fault UndefinedBehaviour ∧
  (room mem123 1 →
     (e <- end_ 1 ;; InsertAfter 1 e 7%Z) mem123 = Fault UndefinedBehaviour) ∧
  (¬ room mem123 1 → (e <- end_ 1 ;; InsertAfter 1 e 7%Z) mem123 = Throw mem123).
Proof.
  apply (end_position_misuse mem123 1 cells123 7%Z).
  apply (cells_of_sound 3). vm_compute. reflexivity.
Defined.

Lemma insert_after_foreign_position_witness :
  ∃ a m' o1' o2',
    InsertAfter 1 (mkIterator (pos_ptr 2 cells12 1)) 7%Z mem_two
      = Ok (mkIterator (HeapNode a)) m' ∧
    objs m' !! 1%positive = Some o1' ∧
    chain (heap m') (next_node (head_ o1')) cells123 ∧
    size_ o1' = 4%Z ∧
    objs m' !! 2%positive = Some o2' ∧
    chain (heap m') (next_node (head_ o2'))
      (take 1 cells12 ++ (a, 7%Z) :: drop 1 cells12) ∧
    size_ o2' = 2%Z ∧
    ¬ Inv m' 1 ∧ ¬ Inv m' 2.
Proof.
  apply (insert_after_foreign_position mem_two 1 2 cells123 cells12 1 7%Z).
  - discriminate.
  - apply (cells_of_sound 3). vm_compute. reflexivity.
  - apply (cells_of_sound 3). vm_compute. reflexivity.
  - apply Forall_forall. apply (bool_decide_unpack _). vm_compute. exact I.
  - simpl. lia.
  - unfold room. apply Z.leb_le. vm_compute. reflexivity.
Defined.

Lemma push_loop_reverses_witness :
  ∃ m',
    CopyList_loop 2 1 (init_begin [7; 8]%Z) (init_end [7; 8]%Z) mem123 = Ok tt m' ∧
    repr m' 1 [8; 7; 1; 2; 3]%Z ∧
    GetSize 1 m' = Ok 5%Z m' ∧
    (∀ l, l ≠ 1%positive → objs m' !! l = objs mem123 !! l) ∧
    (∀ a n, heap mem123 !! a = Some n → heap m' !! a = Some n).
Proof.
  apply (push_loop_reverses [7; 8]%Z 2 mem123 1 [1; 2; 3]%Z).
  - exists cells123. split; [|reflexivity].
    apply (cells_of_sound 3). vm_compute. reflexivity.
  - simpl. lia.
  - unfold room. apply Z.leb_le. vm_compute. reflexivity.
Defined.

Lemma compare_with_empty_witness :
  op_eq 0 1 2 mem_empty = Ok false mem_empty ∧
  op_eq 0 2 1 mem_empty = Ok false mem_empty ∧
  op_ne 0 1 2 mem_empty = Ok true mem_empty ∧
  op_lt 0 1 2 mem_empty = Ok true mem_empty ∧
  op_lt 0 2 1 mem_empty = Ok false mem_empty ∧
  op_le 0 1 2 mem_empty = Ok true mem_empty ∧
  op_ge 0 1 2 mem_empty = Ok false mem_empty.
Proof.
  apply (compare_with_empty mem_empty 1 2 [1; 2; 3]%Z 0).
  - exists []. split; [|reflexivity].
    apply (cells_of_sound 3). vm_compute. reflexivity.
  - exists cells123. split; [|reflexivity].
    apply (cells_of_sound 3). vm_compute. reflexivity.
Defined.

Lemma construct_destroy_roundtrip_witness :
  (l <- new_from 3 [4; 5]%Z ;; destroy 3 l) mem123 = Ok tt mem123 ∧
  (l <- new_copy 3 1 ;; destroy 3 l) mem123 = Ok tt mem123.
Proof.
  destruct (construct_destroy_roundtrip mem123 3) as [Hnew Hcopy]. split.
  - apply Hnew.
    + simpl. lia.
    + unfold room. apply Z.leb_le. vm_compute. reflexivity.
  - apply (Hcopy 1%positive cells123).
    + apply (cells_of_sound 3). vm_compute. reflexivity.
    + simpl. lia.
    + unfold room. apply Z.leb_le. vm_compute. reflexivity.
Defined.
